(** * Monkshu backend: API registry and JWT token manager

    A shallow embedding of [backend/server/lib/apiregistry.js] and
    [backend/server/lib/apiregistry_extensions/jwttokenmanager.js],
    followed by the properties of the request pipeline and of the token
    life cycle that hold (or fail) on that code.

    Conventions of the embedding:
    - JavaScript objects used as dictionaries (the registry table, the
      live-token table, HTTP headers, parsed query strings) are
      [gmap string _]: a lookup finds own properties, the members
      inherited from [Object.prototype] are not modelled;
    - the map of the custom security checkers, whose keys come from the
      entries and from the callers of [addCustomSecurityChecker], is the
      plain object it is in the code ([ModuleMap]): a lookup goes through
      the prototype chain;
    - [Date.now()] is the argument [now] of every operation that reads
      the clock: one synchronous call is taken to run within one clock
      reading;
    - a JavaScript exception that escapes the function is the outcome
      [Thrown];
    - built-ins of the language and of Node.js that the code calls
      ([JSON.parse], [toLowerCase], [URL], [crypto], ...) and the helper
      module [utils.js], which is not part of the sources at hand, are
      the fields of the class [Platform]: every theorem holds for every
      platform. *)

From Stdlib Require Import ZArith Lia Ascii String.
From stdpp Require Import base option list strings pretty gmap fin_maps sorting.

Set Warnings "-register-all".
Local Open Scope Z_scope.
Local Open Scope string_scope.

(** ** JavaScript values and outcomes *)

Module JS.

Inductive jsval : Type :=
| JUndefined
| JNull
| JNaN
| JBool (b : bool)
| JNum (n : Z)
| JStr (s : string)
| JArr (elems : list jsval)
| JObj (props : list (string * jsval)).

(** The result of a call that may let an exception escape. *)
Inductive outcome (A : Type) : Type :=
| Returned (a : A)
| Thrown.
Arguments Returned {A} a.
Arguments Thrown {A}.

(** Own-property lookup in the property list of an object literal; the
    first binding of a key is the live one. *)
Fixpoint assoc (k : string) (props : list (string * jsval)) : option jsval :=
  match props with
  | [] => None
  | (k', v) :: rest => if String.eqb k' k then Some v else assoc k rest
  end.

(** [o[k]] and [o.k]: a [TypeError] on [null] and [undefined], the own
    property of an object, [undefined] otherwise (members inherited from
    a prototype are outside the model). *)
Definition getProp (o : jsval) (k : string) : outcome jsval :=
  match o with
  | JUndefined | JNull => Thrown
  | JObj props => Returned (default JUndefined (assoc k props))
  | _ => Returned JUndefined
  end.

(** [o[k] = v] on an object literal: an existing key keeps its position. *)
Fixpoint setProp (k : string) (v : jsval) (props : list (string * jsval))
  : list (string * jsval) :=
  match props with
  | [] => [(k, v)]
  | (k', v') :: rest =>
      if String.eqb k' k then (k, v) :: rest else (k', v') :: setProp k v rest
  end.

(** [{...a, ...b}]: the properties of [b] written over those of [a]. *)
Definition spread (a b : list (string * jsval)) : list (string * jsval) :=
  fold_left (fun acc kv => setProp (fst kv) (snd kv) acc) b a.

(** Truthiness of a string-or-undefined and of a number. *)
Definition truthyStr (s : option string) : bool :=
  match s with
  | Some s => negb (String.eqb s "")
  | None => false
  end.

Definition truthyNum (n : Z) : bool := negb (Z.eqb n 0).

(** [`${s}`] for a string-or-undefined. *)
Definition showStr (s : option string) : string := default "undefined" s.

(** [s.split(sep)] for a one-character separator. *)
Fixpoint split_on (sep : ascii) (s : string) : list string :=
  match s with
  | EmptyString => [""]
  | String c r =>
      if Ascii.eqb c sep then "" :: split_on sep r
      else match split_on sep r with
           | w :: ws => String c w :: ws
           | [] => [String c ""]
           end
  end.

Definition is_blank (c : ascii) : bool :=
  Ascii.eqb c " "%char || Ascii.eqb c "009"%char.

(** [s.split(/[ \t]+/)]: a maximal run of blanks is one separator;
    [in_run] tells that the previous character was a blank. *)
Fixpoint split_blanks (in_run : bool) (s : string) : list string :=
  match s with
  | EmptyString => [""]
  | String c r =>
      if is_blank c then
        if in_run then split_blanks true r else "" :: split_blanks true r
      else match split_blanks false r with
           | w :: ws => String c w :: ws
           | [] => [String c ""]
           end
  end.

(** [hay.includes(needle)] on strings. *)
Fixpoint str_includes (needle hay : string) : bool :=
  String.prefix needle hay ||
  match hay with
  | EmptyString => false
  | String _ r => str_includes needle r
  end.

(** [arr.includes(v)] for an array of strings: only a string is equal to
    a string. *)
Definition includes (arr : list string) (v : jsval) : bool :=
  match v with
  | JStr s => bool_decide (s ∈ arr)
  | _ => false
  end.

(** Truthiness of a value. *)
Definition truthy (v : jsval) : bool :=
  match v with
  | JUndefined | JNull | JNaN => false
  | JBool b => b
  | JNum n => truthyNum n
  | JStr s => negb (String.eqb s "")
  | JArr _ | JObj _ => true
  end.

(** [Buffer.from(s).toString("base64")]: strings are sequences of bytes. *)
Definition b64_alphabet : string :=
  "ABCDEFGHIJKLMNOPQRSTUVWXYZabcdefghijklmnopqrstuvwxyz0123456789+/".

Definition b64_digit (n : N) : ascii :=
  default "A"%char (String.get (N.to_nat n) b64_alphabet).

Fixpoint base64 (s : string) : string :=
  match s with
  | EmptyString => ""
  | String a EmptyString =>
      let x := N_of_ascii a in
      String (b64_digit (x / 4)) (String (b64_digit ((x mod 4) * 16)) "==")
  | String a (String b EmptyString) =>
      let x := N_of_ascii a in
      let y := N_of_ascii b in
      String (b64_digit (x / 4))
        (String (b64_digit ((x mod 4) * 16 + y / 16))
           (String (b64_digit ((y mod 16) * 4)) "="))
  | String a (String b (String c r)) =>
      let x := N_of_ascii a in
      let y := N_of_ascii b in
      let z := N_of_ascii c in
      String (b64_digit (x / 4))
        (String (b64_digit ((x mod 4) * 16 + y / 16))
           (String (b64_digit ((y mod 16) * 4 + z / 64))
              (String (b64_digit (z mod 64)) (base64 r))))
  end%N.

(** [buf.toString("hex")] *)
Definition hex_digit (n : N) : ascii :=
  default "0"%char (String.get (N.to_nat n) "0123456789abcdef").

Fixpoint hex (s : string) : string :=
  match s with
  | EmptyString => ""
  | String a r =>
      let x := N_of_ascii a in
      String (hex_digit (x / 16)) (String (hex_digit (x mod 16)) (hex r))
  end%N.

(** The names of the properties of [Object.prototype], which every
    plain object inherits: eleven functions and the accessor
    [__proto__]. *)
Definition Object_prototype_names : list string :=
  [ "constructor"; "__defineGetter__"; "__defineSetter__"; "hasOwnProperty";
    "__lookupGetter__"; "__lookupSetter__"; "isPrototypeOf";
    "propertyIsEnumerable"; "toString"; "valueOf"; "__proto__";
    "toLocaleString" ].

Definition inherited (name : string) : bool :=
  existsb (String.eqb name) Object_prototype_names.

(** The source of [crypto.randomBytes]: a tape of bytes and the position
    of the next byte to hand out. *)
Record Rng := mkRng {
  tape : nat → ascii;
  pos : nat
}.

Definition randomBytes (n : nat) (g : Rng) : string * Rng :=
  (string_of_list_ascii (map (tape g) (seq (pos g) n)),
   {| tape := tape g; pos := (pos g + n)%nat |}).

End JS.
Export JS.

(** ** The platform *)

Class Platform := {
  (** [String.prototype.toLowerCase] and [String.prototype.trim] *)
  toLowerCase : string → string;
  trim : string → string;
  (** [ToNumber] on strings, arrays and objects; [None] is [NaN] *)
  ToNumber_ext : jsval → option Z;
  (** loose equality [==] *)
  looseEq : jsval → jsval → bool;
  (** conversion of a value inside a template literal *)
  ToString : jsval → string;
  JSON_stringify : jsval → string;
  (** [JSON.parse(Buffer.from(seg, "base64").toString("utf8"))];
      [None] when it throws *)
  decodeClaims : string → option jsval;
  (** [parseInt]; [None] is [NaN] *)
  parseInt : jsval → option Z;
  (** [crypto.createHmac("sha256", key).update(msg).digest()]: the raw
      digest *)
  hmac_sha256 : string → string → string;
  (** [utils.escapedSplit] *)
  escapedSplit : string → string → list string;
  (** [new URL(url).pathname] *)
  URL_pathname : string → string;
  (** [new URL(entry, "http://dummyhost/").search] *)
  URL_search : string → string;
  (** [querystring.parse] *)
  querystring_parse : string → gmap string string;
  (** [path.resolve] and [path.basename] *)
  path_resolve : string → string;
  path_basename : string → string
}.

(** [ToNumber]; [None] is [NaN]. *)
Definition ToNumber `{Platform} (v : jsval) : option Z :=
  match v with
  | JUndefined | JNaN => None
  | JNull => Some 0
  | JBool b => Some (if b then 1 else 0)
  | JNum n => Some n
  | _ => ToNumber_ext v
  end.

(** [a > b] for a number [a]: false as soon as [b] is not a number. *)
Definition js_gt `{Platform} (a : Z) (b : jsval) : bool :=
  match ToNumber b with
  | Some n => Z.ltb n a
  | None => false
  end.

(** [a <= b] for a number [a]: false as soon as [b] is not a number. *)
Definition js_le `{Platform} (a : Z) (b : jsval) : bool :=
  match ToNumber b with
  | Some n => Z.leb a n
  | None => false
  end.

(** The [reason] object handed down the security chain. *)
Record Reason := mkReason {
  reason : option string;
  code : option Z
}.

(** A registry entry once parsed by [_getAPIRegEntryAsURL]. *)
Record Entry := mkEntry {
  query : gmap string string;
  search : string;
  rawpathname : string
}.

(** ** jwttokenmanager.js *)

Module JwtTokenManager.
Section WithPlatform.
Context `{Platform}.

Definition BASE_64_HEADER : string := "eyJhbGciOiJIUzI1NiIsInR5cCI6IkpXVCJ9".

(** [JSON.parse(Buffer.from(token.split(".")[1],"base64").toString("utf8"))]
    under [try]: [None] when an exception is caught. A token without a
    second segment hands [undefined] to [Buffer.from], which throws. *)
Definition parseClaims (token : string) : option jsval :=
  seg ← split_on "." token !! 1%nat; decodeClaims seg.

Definition reject (msg : string) : Reason :=
  {| reason := Some msg; code := Some 403 |}.

(** The loop over [checkClaims.split(",")]: the first key on which the
    claim and the request differ. *)
Fixpoint claimsLoop (keys : list string) (claims req : jsval)
  : outcome (option (string * jsval * jsval)) :=
  match keys with
  | [] => Returned None
  | key :: rest =>
      match getProp claims key, getProp req key with
      | Returned c, Returned r =>
          if negb (looseEq c r) then Returned (Some (key, c, r))
          else claimsLoop rest claims req
      | _, _ => Thrown
      end
  end.

Definition updateLastAccessOrAddToken (now : Z) (token : string)
  (activeTokens : gmap string Z) : gmap string Z :=
  <[token := now]> activeTokens.

Definition checkToken (now : Z) (token : string) (reason : Reason)
  (accessNeeded checkClaims : option string) (req : jsval)
  (activeTokens : gmap string Z) : outcome bool * Reason * gmap string Z :=
  let lastAccess := default 0 (activeTokens !! token) in
  if negb (truthyNum lastAccess) then
    (Returned false, reject "JWT Token Error, no last access found", activeTokens)
  else
  match parseClaims token with
  | None =>
      (Returned false, reject "JWT Token Error, claims are not parseable", activeTokens)
  | Some claims =>
  match getProp claims "expiryInterval" with
  | Thrown => (Thrown, reason, activeTokens)
  | Returned expiryInterval =>
  if js_gt (now - lastAccess) expiryInterval then
    (Returned false, reject "JWT Token Error, expired", activeTokens)
  else
  match getProp claims "sub" with
  | Thrown => (Thrown, reason, activeTokens)
  | Returned sub =>
  if truthyStr accessNeeded
     && negb (String.eqb (toLowerCase (default "" accessNeeded)) "true")
     && negb (includes (escapedSplit (default "" accessNeeded) ",") sub)
  then
    (Returned false,
     reject ("JWT Token Error, sub:claims doesn't match needed access level. Claims are "
             +:+ JSON_stringify claims +:+ " and needed access is "
             +:+ default "" accessNeeded +:+ "."),
     activeTokens)
  else
  match (if truthyStr checkClaims
         then claimsLoop (split_on "," (default "" checkClaims)) claims req
         else Returned None) with
  | Thrown => (Thrown, reason, activeTokens)
  | Returned (Some (key, c, r)) =>
      (Returned false,
       reject ("JWT Token Error, claims check failed. Claims keys is " +:+ key
               +:+ ", found JWT claim " +:+ ToString c
               +:+ ", request claims " +:+ ToString r +:+ "."),
       activeTokens)
  | Returned None =>
      (Returned true, reason, updateLastAccessOrAddToken now token activeTokens)
  end end end end.

(** The security-checker entry point of the token manager. *)
Definition checkSecurity (now : Z) (apiregentry : Entry) (req : jsval)
  (headers : gmap string string) (reason : Reason)
  (activeTokens : gmap string Z) : outcome bool * Reason * gmap string Z :=
  let needsToken := query apiregentry !! "needsToken" in
  if negb (truthyStr needsToken)
     || String.eqb (toLowerCase (default "" needsToken)) "false"
  then (Returned true, reason, activeTokens)
  else
    let incomingToken := headers !! "authorization" in
    let token_splits :=
      if truthyStr incomingToken
      then split_blanks false (default "" incomingToken) else [] in
    match token_splits with
    | [scheme; token] =>
        if String.eqb (toLowerCase (trim scheme)) "bearer"
        then checkToken now token reason needsToken
               (query apiregentry !! "checkClaims") req activeTokens
        else (Returned false,
              reject ("JWT malformatted. Got token " +:+ showStr incomingToken),
              activeTokens)
    | _ => (Returned false,
            reject ("JWT malformatted. Got token " +:+ showStr incomingToken),
            activeTokens)
    end.

Definition releaseToken (token : string) (activeTokens : gmap string Z)
  : gmap string Z :=
  if negb (String.eqb token "")
     && truthyNum (default 0 (activeTokens !! token))
  then delete token activeTokens
  else activeTokens.

(** The token manager configuration once [initSync] has put the
    defaults in. *)
Record Conf := mkConf {
  expiryInterval : Z;
  tokenGCInterval : Z
}.

(** The claim set built by [createSignedJWTToken]: [jti] is the
    lower-case hex of sixteen random bytes. A [NaN] interval makes [exp]
    a [NaN] too. *)
Definition buildClaims (now : Z) (conf : Conf)
  (jwtproperties : list (string * jsval)) (jti : string)
  : list (string * jsval) :=
  let timenowEPOCH := (now + 500) / 1000 in
  let configured := default JUndefined (assoc "expiryInterval" jwtproperties) in
  let parsed :=
    parseInt (if truthy configured then configured
              else JNum (expiryInterval conf)) in
  spread
    [ ("iss", JStr "Monkshu");
      ("iat", JNum timenowEPOCH);
      ("iatms", JNum now);
      ("nbf", JNum timenowEPOCH);
      ("exp", match parsed with
              | Some e => JNum (timenowEPOCH + e)
              | None => JNaN
              end);
      ("jti", JStr jti);
      ("expiryInterval", match parsed with
                         | Some e => JNum e
                         | None => JNaN
                         end) ]
    jwtproperties.

(** The string handed to the HMAC. *)
Definition tokenClaimHeader (claimB64 : string) : string :=
  claimB64 +:+ "." +:+ BASE_64_HEADER.

Definition createSignedJWTToken (now : Z) (conf : Conf)
  (jwtproperties : list (string * jsval)) (g : Rng)
  (activeTokens : gmap string Z) : string * Rng * gmap string Z :=
  let (jtiBytes, g1) := randomBytes 16 g in
  let claims := buildClaims now conf jwtproperties (hex jtiBytes) in
  let claimB64 := base64 (JSON_stringify (JObj claims)) in
  let (keyBytes, g2) := randomBytes 32 g1 in
  let sig64 := hex (hmac_sha256 (hex keyBytes) (tokenClaimHeader claimB64)) in
  let token := BASE_64_HEADER +:+ "." +:+ claimB64 +:+ "." +:+ sig64 in
  (token, g2, updateLastAccessOrAddToken now token activeTokens).

(** [getClaims] on a token string: the empty object when the token is
    empty or its claims do not parse. *)
Definition getClaims (token : string) : jsval :=
  if String.eqb token "" then JObj []
  else default (JObj []) (parseClaims token).

(** A call [tokenListener(event, token)]: the listener, the event name
    and the token. *)
Definition Call : Type := nat * string * string.

Definition addListener (listener : nat) (listeners : list nat) : list nat :=
  (listeners ++ [listener])%list.

Fixpoint removeListener (listener : nat) (listeners : list nat) : list nat :=
  match listeners with
  | [] => []
  | l :: rest =>
      if Nat.eqb l listener then rest else l :: removeListener listener rest
  end.

(** One turn of the loop of [_cleanTokens]. The state is the table as
    mutated so far and the calls made so far; once an exception has
    escaped, the remaining turns do not run. *)
Definition cleanToken (now : Z) (listeners : list nat)
  (st : outcome unit * gmap string Z * list Call) (token : string)
  : outcome unit * gmap string Z * list Call :=
  match st with
  | (Thrown, _, _) => st
  | (Returned _, activeTokens, calls) =>
      match getProp (getClaims token) "expiryInterval" with
      | Thrown => (Thrown, activeTokens, calls)
      | Returned ei =>
          if js_gt (now - default 0 (activeTokens !! token)) ei
          then (Returned tt, delete token activeTokens,
                (calls ++ map (fun l => (l, "token_expireed", token)) listeners)%list)
          else st
      end
  end.

(** [_cleanTokens]: the keys are listed once, before the loop. *)
Definition _cleanTokens (now : Z) (listeners : list nat)
  (activeTokens : gmap string Z) : outcome unit * gmap string Z * list Call :=
  fold_left (cleanToken now listeners) (map fst (map_to_list activeTokens))
    (Returned tt, activeTokens, []).

End WithPlatform.
End JwtTokenManager.

(** ** apiregistry.js *)

Module ApiRegistry.
Section WithPlatform.
Context `{Platform}.

(** Everything an extension module can reach besides its arguments (the
    shared cluster store, the request and server objects) is a value of
    [World]. *)
Context {World : Type}.

(** The [reason] objects live in a store and are passed by reference, as
    JavaScript passes objects: [reason.reason = ...] writes into the
    store at the reference, whereas [reason = {...}] makes a new object
    and rebinds the local name only. *)
Definition Heap : Type := gmap nat Reason.

Definition alloc (o : Reason) (h : Heap) : nat * Heap :=
  let l := fresh (dom h) in (l, <[l := o]> h).

(** A security checker module: the name [_loadSortedConfOjbects] tags it
    with ([undefined] for a module that was never tagged) and its
    [checkSecurity]. A module object is taken to have these two
    properties and no other, and [Object.prototype] for prototype. *)
Record Checker := mkChecker {
  modulename : option string;
  check : Entry → string → jsval → gmap string string → nat →
          Heap → World → outcome bool * Heap * World
}.

(** The object [ENV.CUSTOM_SECURITY_CHECKERS]. It is made by the
    literal [{}], so it is a plain object and not a dictionary: besides
    its own properties, which [addCustomSecurityChecker] writes, a
    lookup finds what the prototype chain holds. [proto] is the module
    an assignment to [__proto__] has made the prototype of the object;
    [None] when the prototype is still [Object.prototype]. *)
Record ModuleMap := mkModuleMap {
  own : gmap string Checker;
  proto : option Checker
}.

(** The literal [{}]. *)
Definition emptyObject : ModuleMap := mkModuleMap ∅ None.

(** What a lookup in the object hands to the loop of [checkSecurity]: a
    module; a truthy value that has no [checkSecurity], such as a
    function inherited from [Object.prototype]; or [undefined] (or
    another falsy value). *)
Inductive Slot : Type :=
| Module (c : Checker)
| NotAModule
| Undefined.

(** [module[name]] for a module that is the prototype of the object: its
    method and its tag, then the members of [Object.prototype]. *)
Definition memberOfModule (p : Checker) (name : string) : Slot :=
  if String.eqb name "checkSecurity" then NotAModule
  else if String.eqb name "__org_monkshu_apiregistry_conf_modulename"
       then match modulename p with
            | Some tag => if String.eqb tag "" then Undefined else NotAModule
            | None => Undefined
            end
  else if inherited name then NotAModule else Undefined.

(** [obj[name]]: an own property first; then [__proto__], whose getter
    returns the prototype itself; then what the prototype holds. *)
Definition member (obj : ModuleMap) (name : string) : Slot :=
  match own obj !! name with
  | Some c => Module c
  | None =>
      match proto obj with
      | Some p =>
          if String.eqb name "__proto__" then Module p else memberOfModule p name
      | None => if inherited name then NotAModule else Undefined
      end
  end.

(** [obj[name] = module]: an own property, except that [__proto__],
    unless it is an own property already, is the setter inherited from
    [Object.prototype], which replaces the prototype. *)
Definition assign (name : string) (module : Checker) (obj : ModuleMap)
  : ModuleMap :=
  match own obj !! name with
  | None =>
      if String.eqb name "__proto__"
      then {| own := own obj; proto := Some module |}
      else {| own := <[name := module]> (own obj); proto := proto obj |}
  | Some _ => {| own := <[name := module]> (own obj); proto := proto obj |}
  end.

(** [delete obj[name]] removes an own property and nothing else. *)
Definition remove (name : string) (obj : ModuleMap) : ModuleMap :=
  {| own := delete name (own obj); proto := proto obj |}.

Record Decoder := mkDecoder {
  decode : Entry → string → jsval → gmap string string → World → jsval * World
}.

Record Encoder := mkEncoder {
  encode : Entry → string → jsval → gmap string string → gmap string string →
           World → jsval * World
}.

(** A header manager may write into the response headers. *)
Record HeaderManager := mkHeaderManager {
  inject : Entry → string → jsval → gmap string string → gmap string string →
           World → gmap string string * World
}.

(** The module state and the part of the cluster store the registry
    owns. *)
Record Registry := mkRegistry {
  apireg : gmap string string;
  decoders : list Decoder;
  encoders : list Encoder;
  headermanagers : list HeaderManager;
  securitycheckers : list Checker;
  CUSTOM_SECURITY_CHECKERS : ModuleMap
}.

(** [s.indexOf("?")] *)
Fixpoint indexOf (c : ascii) (s : string) : option nat :=
  match s with
  | EmptyString => None
  | String c' r => if Ascii.eqb c' c then Some 0%nat else S <$> indexOf c r
  end.

Definition _getAPIRegEntryAsURL (endPoint : string) : Entry :=
  let search := URL_search endPoint in
  let has_search := negb (String.eqb search "") in
  {| query := querystring_parse
                (if has_search
                 then String.substring 1 (String.length search - 1) search
                 else "");
     search := search;
     rawpathname :=
       if has_search
       then String.substring 0 (default 0%nat (indexOf "?" endPoint)) endPoint
       else endPoint |}.

(** [apireg[endPoint]], and whether it is truthy. *)
Definition lookupEntry (reg : Registry) (url : string) : option string :=
  match apireg reg !! URL_pathname url with
  | Some e => if String.eqb e "" then None else Some e
  | None => None
  end.

Definition getAPI (reg : Registry) (url : string) : option string :=
  match lookupEntry reg url with
  | Some e => Some (path_resolve (rawpathname (_getAPIRegEntryAsURL e)))
  | None => None
  end.

Definition getAPIConf (reg : Registry) (url : string)
  : option (gmap string string) :=
  match lookupEntry reg url with
  | Some e => Some (query (_getAPIRegEntryAsURL e))
  | None => None
  end.

(** [decodeIncomingData]: [false] for an unregistered end point, else the
    data threaded through every decoder. *)
Definition decodeIncomingData (reg : Registry) (url : string) (data : jsval)
  (headers : gmap string string) (w : World) : jsval * World :=
  match lookupEntry reg url with
  | None => (JBool false, w)
  | Some e =>
      let apiregentry := _getAPIRegEntryAsURL e in
      fold_left (fun acc d => decode d apiregentry url (fst acc) headers (snd acc))
        (decoders reg) (data, w)
  end.

Definition encodeResponse (reg : Registry) (url : string) (respObj : jsval)
  (reqHeaders respHeaders : gmap string string) (w : World) : jsval * World :=
  match lookupEntry reg url with
  | None => (JBool false, w)
  | Some e =>
      let apiregentry := _getAPIRegEntryAsURL e in
      fold_left (fun acc x => encode x apiregentry (URL_pathname url) (fst acc)
                                reqHeaders respHeaders (snd acc))
        (encoders reg) (respObj, w)
  end.

Definition injectResponseHeaders (reg : Registry) (url : string)
  (response : jsval) (requestHeaders responseHeaders : gmap string string)
  (w : World) : gmap string string * World :=
  match lookupEntry reg url with
  | None => (responseHeaders, w)
  | Some e =>
      let apiregentry := _getAPIRegEntryAsURL e in
      fold_left (fun acc m => inject m apiregentry (URL_pathname url) response
                                requestHeaders (fst acc) (snd acc))
        (headermanagers reg) (responseHeaders, w)
  end.

(** The array [allSecurityCheckers]: the core chain, then one slot per
    name of the [customSecurity] directive, holding what the lookup of
    the name in [CUSTOM_SECURITY_CHECKERS] finds. *)
Definition allSecurityCheckers (reg : Registry) (apiregentry : Entry)
  : list Slot :=
  (map Module (securitycheckers reg) ++
   match query apiregentry !! "customSecurity" with
   | Some names =>
       if String.eqb names "" then []
       else map (member (CUSTOM_SECURITY_CHECKERS reg))
              (escapedSplit names ",")
   | None => []
   end)%list.

(** The loop over [allSecurityCheckers]. [reasonRef] is the reference
    bound to the name [reason], which the loop hands to each checker;
    [invoked] lists the modules called so far, in order. A falsy slot is
    stepped over by the guard [securitycheckerThis &&]; on a truthy
    value that has no [checkSecurity] the call is a [TypeError]. *)
Fixpoint runCheckers (chain : list Slot) (apiregentry : Entry)
  (endPoint : string) (req : jsval) (headers : gmap string string)
  (reasonRef : nat) (h : Heap) (w : World) (invoked : list Checker)
  : outcome bool * Heap * World * list Checker :=
  match chain with
  | [] => (Returned true, h, w, invoked)
  | Undefined :: rest =>
      runCheckers rest apiregentry endPoint req headers reasonRef h w invoked
  | NotAModule :: rest => (Thrown, h, w, invoked)
  | Module c :: rest =>
      match check c apiregentry endPoint req headers reasonRef h w with
      | (Thrown, h', w') => (Thrown, h', w', (invoked ++ [c])%list)
      | (Returned true, h', w') =>
          runCheckers rest apiregentry endPoint req headers reasonRef h' w'
            (invoked ++ [c])%list
      | (Returned false, h', w') =>
          match h' !! reasonRef with
          | None => (Thrown, h', w', (invoked ++ [c])%list)
          | Some o =>
              (Returned false,
               <[reasonRef := {| reason := Some (showStr (reason o)
                                 +:+ " ---- Failed on: "
                                 +:+ showStr (modulename c));
                              code := code o |}]> h',
               w', (invoked ++ [c])%list)
          end
      end
  end.

(** [checkSecurity]. For an unregistered end point the assignment
    [reason = {...}] allocates the new object and binds it to the
    parameter ([reasonRef'] below), which nothing reads afterwards; the
    object at [reasonRef], the one the caller holds, is not written. *)
Definition checkSecurity (reg : Registry) (url : string) (req : jsval)
  (headers : gmap string string) (reasonRef : nat) (h : Heap) (w : World)
  : outcome bool * Heap * World * list Checker :=
  match lookupEntry reg url with
  | None =>
      let (reasonRef', h') :=
        alloc {| reason := Some "API endpoint missing"; code := Some 403 |} h in
      (Returned false, h', w, [])
  | Some e =>
      let apiregentry := _getAPIRegEntryAsURL e in
      runCheckers (allSecurityCheckers reg apiregentry) apiregentry
        (URL_pathname url) req headers reasonRef h w []
  end.

Definition addCustomSecurityChecker (name : string) (module : Checker)
  (reg : Registry) : Registry :=
  {| apireg := apireg reg; decoders := decoders reg; encoders := encoders reg;
     headermanagers := headermanagers reg;
     securitycheckers := securitycheckers reg;
     CUSTOM_SECURITY_CHECKERS := assign name module (CUSTOM_SECURITY_CHECKERS reg) |}.

Definition removeCustomSecurityChecker (name : string) (reg : Registry)
  : Registry :=
  {| apireg := apireg reg; decoders := decoders reg; encoders := encoders reg;
     headermanagers := headermanagers reg;
     securitycheckers := securitycheckers reg;
     CUSTOM_SECURITY_CHECKERS := remove name (CUSTOM_SECURITY_CHECKERS reg) |}.

Definition listAPIs (reg : Registry) : list string :=
  map fst (map_to_list (apireg reg)).

(** The third argument of [addAPI] and [deleteAPI]. The parameter is
    named [app], so inside these two functions [app] is the argument and
    not the module [app.js]: [app.getApps()] is a method call on the
    argument. It is either a plain value (an application name, or
    [undefined] when left out) or an object that has a [getApps] method,
    such as the module [app.js] itself. *)
Inductive AppArg : Type :=
| ArgValue (v : jsval)
| ArgWithGetApps (appRoots : list (string * string)).

(** [app.getApps()]: a [TypeError] unless the argument has the method. *)
Definition call_getApps (app : AppArg) : outcome (list (string * string)) :=
  match app with
  | ArgValue _ => Thrown
  | ArgWithGetApps appRoots => Returned appRoots
  end.

(** [apps[app]]: [apps] is the array of [app.js], which has no property
    named after an object. *)
Definition approotOf (apps : list (string * string)) (app : AppArg)
  : option string :=
  None.

(** The registry files on disk, by path, as the objects [JSON.parse]
    reads from them. *)
Definition Disk : Type := gmap string (gmap string string).

Definition withApireg (reg : Registry) (table : gmap string string) : Registry :=
  {| apireg := table; decoders := decoders reg; encoders := encoders reg;
     headermanagers := headermanagers reg;
     securitycheckers := securitycheckers reg;
     CUSTOM_SECURITY_CHECKERS := CUSTOM_SECURITY_CHECKERS reg |}.

Definition addAPI (API_REGISTRY : string) (path apiregentry : string)
  (app : AppArg) (reg : Registry) (disk : Disk)
  : outcome unit * Registry * Disk :=
  match call_getApps app with
  | Thrown => (Thrown, reg, disk)
  | Returned apps =>
      let approot := approotOf apps app in
      let stored :=
        match approot with
        | Some r => r +:+ "/" +:+ apiregentry
        | None => apiregentry
        end in
      let reg' := withApireg reg (<[path := stored]> (apireg reg)) in
      let regFile :=
        match approot with
        | Some r => r +:+ "/conf/apiregistry.json"
        | None => API_REGISTRY
        end in
      match disk !! regFile with
      | None => (Thrown, reg', disk)
      | Some regFileObj =>
          (Returned tt, reg', <[regFile := <[path := apiregentry]> regFileObj]> disk)
      end
  end.

Definition editAPI := addAPI.

Definition deleteAPI (API_REGISTRY : string) (path : string)
  (app : AppArg) (reg : Registry) (disk : Disk)
  : outcome unit * Registry * Disk :=
  match call_getApps app with
  | Thrown => (Thrown, reg, disk)
  | Returned apps =>
      let approot := approotOf apps app in
      let reg' :=
        if truthyStr (apireg reg !! path)
        then withApireg reg (delete path (apireg reg)) else reg in
      let regFile :=
        match approot with
        | Some r => r +:+ "/conf/apiregistry.json"
        | None => API_REGISTRY
        end in
      match disk !! regFile with
      | None => (Thrown, reg', disk)
      | Some regFileObj =>
          (Returned tt, reg',
           <[regFile := if truthyStr (regFileObj !! path)
                        then delete path regFileObj else regFileObj]> disk)
      end
  end.

End WithPlatform.

(** *** The extension pipeline loader *)

Section Loader.
Context `{Platform}.

Record PathAndRoot := mkPathAndRoot {
  path : string;
  root : string
}.

Record ConfObject := mkConfObject {
  module : string;
  priority : Z
}.

(** The comparator handed to [sort]. *)
Definition byPriority (a b : ConfObject) : Z :=
  if Z.ltb (priority a) (priority b) then -1
  else if Z.gtb (priority a) (priority b) then 1 else 0.

(** [Array.prototype.sort(cmp)]. The language fixes the result, not the
    algorithm: the sort is stable and, for a consistent comparator, its
    result is ordered. Straight insertion is the model; any other stable
    sort returns the same array ([Array_sort_unique] below). *)
Fixpoint insertSorted {A : Type} (cmp : A → A → Z) (x : A) (l : list A)
  : list A :=
  match l with
  | [] => [x]
  | y :: rest =>
      if Z.ltb 0 (cmp x y) then y :: insertSorted cmp x rest else x :: l
  end.

Definition Array_sort {A : Type} (cmp : A → A → Z) (l : list A) : list A :=
  foldr (insertSorted cmp) [] l.

(** The records pushed for one configuration file: [requireConf] is
    [require] on a configuration path, as the list of its keys, in the
    order of [Object.keys], with their priorities. *)
Definition confObjectsOf (requireConf : string → list (string * Z))
  (pr : PathAndRoot) : list ConfObject :=
  map (fun kv => {| module := root pr +:+ "/lib/apiregistry_extensions/"
                              +:+ toLowerCase (fst kv) +:+ ".js";
                    priority := snd kv |})
    (requireConf (path pr)).

(** The flat list, in discovery order, and the list once sorted. *)
Definition discovered (requireConf : string → list (string * Z))
  (pathAndRoots : list PathAndRoot) : list ConfObject :=
  concat (map (confObjectsOf requireConf) pathAndRoots).

Definition sortedConfObjects (requireConf : string → list (string * Z))
  (pathAndRoots : list PathAndRoot) : list ConfObject :=
  Array_sort byPriority (discovered requireConf pathAndRoots).

(** [_loadSortedConfOjbects]: each record is replaced by its module,
    tagged with the base name of its file. *)
Definition _loadSortedConfOjbects {M : Type}
  (requireConf : string → list (string * Z)) (requireModule : string → M)
  (pathAndRoots : list PathAndRoot) : list (M * string) :=
  map (fun c => (requireModule (module c), path_basename (module c)))
    (sortedConfObjects requireConf pathAndRoots).

(** The list [initSync] hands to the loader for one pipeline kind: the
    core configuration, then the configuration of each application that
    has one, in the order of [app.getApps()]. *)
Definition pathAndRootsOf (existsSync : string → bool)
  (ROOTDIR CONF_CORE CONF_APPS : string) (apps : list (string * string))
  : list PathAndRoot :=
  {| path := CONF_CORE; root := ROOTDIR |} ::
  concat (map (fun a : string * string =>
                 let appRoot := snd a in
                 if existsSync (appRoot +:+ "/" +:+ CONF_APPS)
                 then [{| path := appRoot +:+ "/" +:+ CONF_APPS; root := appRoot |}]
                 else [])
            apps).

End Loader.

(** *** The chains of [initSync] *)

Section Chains.
Context `{Platform} {World : Type}.

(** The two constants of one pipeline kind:
    [CONSTANTS.API_MANAGER_..._CONF_CORE_SERVER] and
    [CONSTANTS.API_MANAGER_..._CONF_APPS]. *)
Record ConfPaths := mkConfPaths {
  CONF_CORE_SERVER : string;
  CONF_APPS : string
}.

(** The part of [initSync] that fills the four chains: for each pipeline
    kind the list of configurations, the core one and then the one of
    each application that has it on disk, goes through
    [_loadSortedConfOjbects]. [requireDecoder] and the like are
    [require] on the path of a module, seen as a module of that kind;
    the loader writes the base name of the file into the module, which
    is the name a security checker is reported under. The table and the
    custom checkers are not touched here, and the calls of the
    [initSync] of the modules, which come after, are left out. *)
Definition loadChains (existsSync : string → bool)
  (requireConf : string → list (string * Z)) (ROOTDIR : string)
  (DECODERS ENCODERS HEADERMANAGERS SECURITYCHECKERS : ConfPaths)
  (requireDecoder : string → Decoder (World := World))
  (requireEncoder : string → Encoder (World := World))
  (requireHeaderManager : string → HeaderManager (World := World))
  (requireChecker : string → Checker (World := World))
  (apps : list (string * string)) (reg : Registry (World := World))
  : Registry (World := World) :=
  let load {M : Type} (requireModule : string → M) (conf : ConfPaths) :=
    _loadSortedConfOjbects requireConf requireModule
      (pathAndRootsOf existsSync ROOTDIR (CONF_CORE_SERVER conf)
         (CONF_APPS conf) apps) in
  {| apireg := apireg reg;
     decoders := map fst (load requireDecoder DECODERS);
     encoders := map fst (load requireEncoder ENCODERS);
     headermanagers := map fst (load requireHeaderManager HEADERMANAGERS);
     securitycheckers :=
       map (fun m : Checker * string => mkChecker (Some m.2) (check m.1))
         (load requireChecker SECURITYCHECKERS);
     CUSTOM_SECURITY_CHECKERS := CUSTOM_SECURITY_CHECKERS reg |}.

End Chains.
End ApiRegistry.

(** ** SHA-256 and HMAC, for the sample platform (FIPS 180-4, RFC 2104) *)

Module Sha256.
Local Open Scope N_scope.

Definition mask32 : N := 0xffffffff.
Definition add32 (x y : N) : N := N.land (x + y) mask32.
Definition rotr (n x : N) : N :=
  N.land (N.lor (N.shiftr x n) (N.shiftl x (32 - n))) mask32.
Definition not32 (x : N) : N := N.lxor x mask32.

Definition Ch (x y z : N) : N := N.lxor (N.land x y) (N.land (not32 x) z).
Definition Maj (x y z : N) : N :=
  N.lxor (N.lxor (N.land x y) (N.land x z)) (N.land y z).
Definition Sigma0 (x : N) : N :=
  N.lxor (N.lxor (rotr 2 x) (rotr 13 x)) (rotr 22 x).
Definition Sigma1 (x : N) : N :=
  N.lxor (N.lxor (rotr 6 x) (rotr 11 x)) (rotr 25 x).
Definition sigma0 (x : N) : N :=
  N.lxor (N.lxor (rotr 7 x) (rotr 18 x)) (N.shiftr x 3).
Definition sigma1 (x : N) : N :=
  N.lxor (N.lxor (rotr 17 x) (rotr 19 x)) (N.shiftr x 10).

(** The constants of the standard are roots of the first primes: the
    first thirty-two bits of the fractional parts of the cube roots of
    the first sixty-four primes, and of the square roots of the first
    eight. *)
Definition is_prime (n : nat) : bool :=
  forallb (fun d => negb (Nat.eqb (n mod d) 0)) (seq 2 (n - 2)).

Definition primes : list N :=
  map N.of_nat (List.filter is_prime (seq 2 310)).

(** The integer cube root, one bit at a time from bit [bits - 1] down. *)
Fixpoint cube_root (bits : nat) (n r : N) : N :=
  match bits with
  | O => r
  | S b =>
      let r' := r + N.shiftl 1 (N.of_nat b) in
      cube_root b n (if r' * r' * r' <=? n then r' else r)
  end.

Definition K : list N :=
  map (fun p => N.land (cube_root 36 (N.shiftl p 96) 0) mask32) primes.

Definition H0 : list N :=
  map (fun p => N.land (N.sqrt (N.shiftl p 64)) mask32) (List.firstn 8 primes).

(** The [n] low bytes of a number, most significant first. *)
Fixpoint be_bytes (n : nat) (x : N) : list N :=
  match n with
  | O => []
  | S n' => N.land (N.shiftr x (8 * N.of_nat n')) 0xff :: be_bytes n' x
  end.

Definition pad (msg : list N) : list N :=
  let len := N.of_nat (List.length msg) in
  let zeros := N.to_nat ((119 - len mod 64) mod 64) in
  (msg ++ [0x80] ++ List.repeat 0 zeros ++ be_bytes 8 (8 * len))%list.

Fixpoint words (fuel : nat) (bytes : list N) : list N :=
  match fuel, bytes with
  | S fuel', a :: b :: c :: d :: rest =>
      (N.shiftl a 24 + N.shiftl b 16 + N.shiftl c 8 + d) :: words fuel' rest
  | _, _ => []
  end.

Fixpoint schedule (n : nat) (ws : list N) : list N :=
  match n with
  | O => ws
  | S n' =>
      let i := List.length ws in
      let w k := List.nth (i - k) ws 0 in
      schedule n'
        (ws ++ [add32 (add32 (sigma1 (w 2%nat)) (w 7%nat))
                      (add32 (sigma0 (w 15%nat)) (w 16%nat))])%list
  end.

Definition round (st : list N) (kw : N * N) : list N :=
  match st with
  | [a; b; c; d; e; f; g; h] =>
      let t1 :=
        add32 (add32 (add32 h (Sigma1 e)) (add32 (Ch e f g) (fst kw))) (snd kw) in
      let t2 := add32 (Sigma0 a) (Maj a b c) in
      [add32 t1 t2; a; b; c; add32 d t1; e; f; g]
  | _ => st
  end.

Definition compress (st : list N) (block : list N) : list N :=
  let ws := schedule 48 (words 16 block) in
  let st' := fold_left round (List.combine K ws) st in
  map (fun p => add32 (fst p) (snd p)) (List.combine st st').

Fixpoint blocks (fuel : nat) (bytes : list N) (st : list N) : list N :=
  match fuel with
  | O => st
  | S fuel' =>
      match bytes with
      | [] => st
      | _ => blocks fuel' (List.skipn 64 bytes) (compress st (List.firstn 64 bytes))
      end
  end.

Definition sha256 (msg : list N) : list N :=
  let p := pad msg in
  List.flat_map (be_bytes 4) (blocks (List.length p) p H0).

Definition hmac (key msg : list N) : list N :=
  let key' := if (64 <? N.of_nat (List.length key)) then sha256 key else key in
  let key'' := (key' ++ List.repeat 0 (64 - List.length key'))%list in
  sha256 (map (N.lxor 0x5c) key''
          ++ sha256 (map (N.lxor 0x36) key'' ++ msg))%list.

Definition bytes_of (s : string) : list N :=
  map N_of_ascii (list_ascii_of_string s).

Definition string_of (l : list N) : string :=
  string_of_list_ascii (map ascii_of_N l).

End Sha256.

(** ** A platform to run the code on

    The functions below behave as the JavaScript ones on the plain ASCII
    inputs of the examples further down: URLs of the shape
    [http://host/path?query], query strings without escapes, claims that
    are flat objects of integers and plain strings. *)

Module Sample.

Definition dq : string := String "034"%char "".

Definition lower (c : ascii) : ascii :=
  let n := nat_of_ascii c in
  if (Nat.leb 65 n && Nat.leb n 90)%bool then ascii_of_nat (n + 32) else c.

Fixpoint toLowerCase (s : string) : string :=
  match s with
  | EmptyString => ""
  | String c r => String (lower c) (toLowerCase r)
  end.

Definition is_space (c : ascii) : bool :=
  let n := nat_of_ascii c in
  (Nat.eqb n 32 || (Nat.leb 9 n && Nat.leb n 13))%bool.

Fixpoint trimStart (s : string) : string :=
  match s with
  | EmptyString => ""
  | String c r => if is_space c then trimStart r else s
  end.

Fixpoint trimEnd (s : string) : string :=
  match s with
  | EmptyString => ""
  | String c r =>
      match trimEnd r with
      | EmptyString => if is_space c then "" else String c ""
      | r' => String c r'
      end
  end.

Definition trim (s : string) : string := trimEnd (trimStart s).

(** Decimal digits only. *)
Fixpoint digits (acc : Z) (s : string) : option Z :=
  match s with
  | EmptyString => Some acc
  | String c r =>
      let n := nat_of_ascii c in
      if (Nat.leb 48 n && Nat.leb n 57)%bool
      then digits (10 * acc + Z.of_nat (n - 48)) r
      else None
  end.

Definition stringToNumber (s : string) : option Z :=
  if String.eqb s "" then Some 0 else digits 0 s.

Definition ToNumber_ext (v : jsval) : option Z :=
  match v with
  | JStr s => stringToNumber s
  | _ => None
  end.

Definition looseEq (a b : jsval) : bool :=
  match a, b with
  | JUndefined, JUndefined | JUndefined, JNull
  | JNull, JUndefined | JNull, JNull => true
  | JBool x, JBool y => Bool.eqb x y
  | JNum x, JNum y => Z.eqb x y
  | JStr x, JStr y => String.eqb x y
  | JNum x, JStr y | JStr y, JNum x =>
      match stringToNumber y with
      | Some n => Z.eqb x n
      | None => false
      end
  | _, _ => false
  end.

Fixpoint JSON_stringify (v : jsval) : string :=
  match v with
  | JUndefined => "undefined"
  | JNull | JNaN => "null"
  | JBool b => if b then "true" else "false"
  | JNum n => pretty n
  | JStr s => dq +:+ s +:+ dq
  | JArr l =>
      "[" +:+
      (fix elems (l : list jsval) : string :=
         match l with
         | [] => ""
         | x :: r =>
             JSON_stringify x +:+
             match r with [] => "" | _ => "," +:+ elems r end
         end) l +:+ "]"
  | JObj ps =>
      "{" +:+
      (fix members (ps : list (string * jsval)) : string :=
         match ps with
         | [] => ""
         | (k, x) :: r =>
             dq +:+ k +:+ dq +:+ ":" +:+ JSON_stringify x +:+
             match r with [] => "" | _ => "," +:+ members r end
         end) ps +:+ "}"
  end.

Definition ToString (v : jsval) : string :=
  match v with
  | JStr s => s
  | JArr _ => ""
  | JObj _ => "[object Object]"
  | JNaN => "NaN"
  | _ => JSON_stringify v
  end.

(** The claim sets the examples use; [decodeClaims] inverts
    [base64 ∘ JSON_stringify] on them and throws on any other segment. *)
Definition knownClaims : list jsval :=
  [ JObj [("expiryInterval", JNum 1000)];
    JObj [("expiryInterval", JNum 1000); ("sub", JStr "user1")];
    JObj [];
    JNull ].

Definition decodeClaims (seg : string) : option jsval :=
  head (filter (fun v => String.eqb (base64 (JSON_stringify v)) seg) knownClaims).

Definition parseInt (v : jsval) : option Z :=
  match v with
  | JNum n => Some n
  | JStr s => if String.eqb s "" then None else digits 0 s
  | _ => None
  end.

Definition hmac_sha256 (key msg : string) : string :=
  Sha256.string_of (Sha256.hmac (Sha256.bytes_of key) (Sha256.bytes_of msg)).

Definition escapedSplit (s sep : string) : list string :=
  match sep with
  | String c EmptyString => split_on c s
  | _ => [s]
  end.

Fixpoint upTo (stop : ascii → bool) (s : string) : string :=
  match s with
  | EmptyString => ""
  | String c r => if stop c then "" else String c (upTo stop r)
  end.

Fixpoint from (start : ascii → bool) (s : string) : string :=
  match s with
  | EmptyString => ""
  | String c r => if start c then s else from start r
  end.

Definition is_char (c : ascii) (x : ascii) : bool := Ascii.eqb x c.

Definition URL_pathname (url : string) : string :=
  let afterScheme :=
    match from (is_char ":") url with
    | String _ (String _ (String _ r)) => r
    | _ => url
    end in
  upTo (fun c => (is_char "?" c || is_char "#" c)%bool)
    (from (is_char "/") afterScheme).

Definition URL_search (entry : string) : string :=
  match upTo (is_char "#") (from (is_char "?") entry) with
  | String _ EmptyString => ""
  | q => q
  end.

Definition keyValue (kv : string) : string * string :=
  (upTo (is_char "=") kv,
   match from (is_char "=") kv with
   | String _ v => v
   | EmptyString => ""
   end).

Definition querystring_parse (qs : string) : gmap string string :=
  if String.eqb qs "" then ∅
  else list_to_map (map keyValue (split_on "&" qs)).

Definition path_resolve (p : string) : string := p.

Definition path_basename (p : string) : string :=
  default p (last (split_on "/" p)).

#[export] Instance platform : Platform :=
  Build_Platform toLowerCase trim ToNumber_ext looseEq ToString JSON_stringify
    decodeClaims parseInt hmac_sha256 escapedSplit URL_pathname URL_search
    querystring_parse path_resolve path_basename.

(** Tokens of the examples: a header segment, the claims, a signature
    segment. *)
Definition tokenOf (claims : jsval) : string :=
  JwtTokenManager.BASE_64_HEADER +:+ "." +:+ base64 (JSON_stringify claims)
  +:+ ".00".

Definition t1000 : string := tokenOf (JObj [("expiryInterval", JNum 1000)]).
Definition tUser1 : string :=
  tokenOf (JObj [("expiryInterval", JNum 1000); ("sub", JStr "user1")]).
Definition tNoExpiry : string := tokenOf (JObj []).

End Sample.

(** ** Vocabulary of the statements *)

Module TokenSpec.
Import JwtTokenManager.

(** The character [c] occurs in [s]. *)
Fixpoint has_char (c : ascii) (s : string) : bool :=
  match s with
  | EmptyString => false
  | String c' r => Ascii.eqb c' c || has_char c r
  end.

(** The string the signature would be computed over if the header came
    first: [header.claims]. *)
Definition headerThenClaims (claimB64 : string) : string :=
  BASE_64_HEADER +:+ "." +:+ claimB64.

Section WithPlatform.
Context `{Platform}.

(** The claims of [token] parse and carry an [expiryInterval] that is
    the number [E]. *)
Definition numericExpiry (token : string) (E : Z) : Prop :=
  ∃ claims ei,
    parseClaims token = Some claims ∧
    getProp claims "expiryInterval" = Returned ei ∧
    ToNumber ei = Some E.

(** [now - lastAccess <= claims.expiryInterval], as JavaScript evaluates
    it on the claims of [token]. *)
Definition withinExpiry (now : Z) (token : string) (lastAccess : Z) : Prop :=
  ∃ claims ei,
    parseClaims token = Some claims ∧
    getProp claims "expiryInterval" = Returned ei ∧
    js_le (now - lastAccess) ei = true.

(** The entry asks for a token: [needsToken] is set and is not the
    literal [false]. *)
Definition requiresToken (apiregentry : Entry) : Prop :=
  truthyStr (query apiregentry !! "needsToken") = true ∧
  String.eqb (toLowerCase (default "" (query apiregentry !! "needsToken")))
    "false" = false.

(** The headers carry [Authorization: Bearer token]. *)
Definition carriesBearer (headers : gmap string string) (token : string)
  : Prop :=
  ∃ auth scheme,
    headers !! "authorization" = Some auth ∧ auth ≠ "" ∧
    split_blanks false auth = [scheme; token] ∧
    String.eqb (toLowerCase (trim scheme)) "bearer" = true.

(** A validation of [token] at time [now] against the table
    [activeTokens]: a call of [checkToken], or a call of the security
    checker for an entry that asks for a token, with the token in the
    headers. *)
Inductive validation (now : Z) (token : string) (activeTokens : gmap string Z)
  : outcome bool * Reason * gmap string Z → Prop :=
| by_checkToken reason accessNeeded checkClaims req :
    validation now token activeTokens
      (checkToken now token reason accessNeeded checkClaims req activeTokens)
| by_checkSecurity apiregentry req headers reason :
    requiresToken apiregentry →
    carriesBearer headers token →
    validation now token activeTokens
      (checkSecurity now apiregentry req headers reason activeTokens).

(** The checks of [checkToken] that do not look at the clock pass: the
    access level and the claims named by [checkClaims]. *)
Definition authorized (token : string) (accessNeeded checkClaims : option string)
  (req : jsval) : Prop :=
  ∃ claims sub,
    parseClaims token = Some claims ∧
    getProp claims "sub" = Returned sub ∧
    (truthyStr accessNeeded
     && negb (String.eqb (toLowerCase (default "" accessNeeded)) "true")
     && negb (includes (escapedSplit (default "" accessNeeded) ",") sub)) = false ∧
    (if truthyStr checkClaims
     then claimsLoop (split_on "," (default "" checkClaims)) claims req
     else Returned None) = Returned None.

(** Successive calls of [checkToken] for one token, at the given clock
    readings: the results, and the table left by the last call. *)
Fixpoint accesses (times : list Z) (token : string)
  (accessNeeded checkClaims : option string) (req : jsval)
  (activeTokens : gmap string Z) : list (outcome bool) * gmap string Z :=
  match times with
  | [] => ([], activeTokens)
  | now :: later =>
      let '(r, _, activeTokens') :=
        checkToken now token (mkReason None None) accessNeeded checkClaims req
          activeTokens in
      let '(rs, final) :=
        accesses later token accessNeeded checkClaims req activeTokens' in
      (r :: rs, final)
  end.

(** Every clock reading is at most [E] after the previous one, [last]
    being the reading before the first; no reading is zero. *)
Fixpoint withinInterval (E : Z) (last : Z) (times : list Z) : Prop :=
  match times with
  | [] => True
  | now :: later => now ≠ 0 ∧ now - last <= E ∧ withinInterval E now later
  end.

(** The test of the sweep on one entry of the table. *)
Definition expiredAt (now : Z) (token : string) (lastAccess : Z) : bool :=
  match getProp (getClaims token) "expiryInterval" with
  | Returned ei => js_gt (now - lastAccess) ei
  | Thrown => false
  end.

(** The calls the sweep makes for the tokens it evicts: one call per
    listener for each of them. *)
Definition expiryCalls (listeners : list nat) (evicted : list string)
  : list Call :=
  List.flat_map (fun token => map (fun l => (l, "token_expireed", token)) listeners)
    evicted.

End WithPlatform.
End TokenSpec.

Module RegistrySpec.
Import ApiRegistry.
Section WithPlatform.
Context `{Platform} {World : Type}.

(** Every module of the chain, called in turn from the state [s], says
    yes, and the run ends in the state [s']; an [undefined] slot is
    stepped over. *)
Inductive passes (apiregentry : Entry) (endPoint : string) (req : jsval)
  (headers : gmap string string) (reasonRef : nat)
  : list (Slot (World := World)) → Heap * World → Heap * World → Prop :=
| passes_nil s :
    passes apiregentry endPoint req headers reasonRef [] s s
| passes_undefined chain s s' :
    passes apiregentry endPoint req headers reasonRef chain s s' →
    passes apiregentry endPoint req headers reasonRef (Undefined :: chain) s s'
| passes_checker c chain h w h1 w1 s' :
    check c apiregentry endPoint req headers reasonRef h w
      = (Returned true, h1, w1) →
    passes apiregentry endPoint req headers reasonRef chain (h1, w1) s' →
    passes apiregentry endPoint req headers reasonRef (Module c :: chain) (h, w) s'.

(** The module of a slot, if it holds one. *)
Definition moduleOf (slot : Slot (World := World)) : option Checker :=
  match slot with
  | Module c => Some c
  | NotAModule | Undefined => None
  end.

(** The modules of a chain. *)
Definition defined (chain : list (Slot (World := World))) : list Checker :=
  omap moduleOf chain.

(** No module is registered under [name], and [name] is not a name the
    object inherits: the prototype is the one of the literal [{}] and
    [name] is no property of [Object.prototype]. *)
Definition unknownName (obj : ModuleMap (World := World)) (name : string)
  : Prop :=
  own obj !! name = None ∧ proto obj = None ∧ name ∉ Object_prototype_names.

(** The modules registered under the names, in the order of the names;
    a name without module gives none. *)
Definition registeredUnder (obj : ModuleMap (World := World))
  (names : list string) : list Checker :=
  omap (fun name => own obj !! name) names.

(** What the registry writes into the reason object when the module [c]
    has said no. *)
Definition failedOn (o : Reason) (c : Checker (World := World)) : Reason :=
  {| reason := Some (showStr (reason o) +:+ " ---- Failed on: "
                     +:+ showStr (modulename c));
     code := code o |}.

End WithPlatform.
End RegistrySpec.

Module LoaderSpec.
Import ApiRegistry.

(** Ascending priorities. *)
Definition byPriorityLe (a b : ConfObject) : Prop := priority a <= priority b.

(** The entries of priority [k], in the order of the list. *)
Definition ofPriority (k : Z) (l : list ConfObject) : list ConfObject :=
  List.filter (fun c => Z.eqb (priority c) k) l.

(** [sorted] holds the entries of [entries], each as often, with
    priorities ascending and the entries of each priority in the order
    they have in [entries]. *)
Definition arranged (sorted entries : list ConfObject) : Prop :=
  StronglySorted byPriorityLe sorted ∧
  sorted ≡ₚ entries ∧
  ∀ k, ofPriority k sorted = ofPriority k entries.

Section WithPlatform.
Context `{Platform}.

(** The descriptor of one entry [name: priority] of a configuration
    found under [root]: the path of its module and the priority. *)
Definition descriptor (root : string) (entry : string * Z) : ConfObject :=
  {| module := root +:+ "/lib/apiregistry_extensions/"
               +:+ toLowerCase entry.1 +:+ ".js";
     priority := entry.2 |}.

(** Discovery order, for one pipeline kind: the entries of the core
    configuration in the order of its keys, then those of the
    configuration of each application that has one on disk, the
    applications in catalog order. [conf path] is the configuration at
    [path], as the list of its entries. *)
Definition discovery (existsSync : string → bool)
  (conf : string → list (string * Z)) (ROOTDIR : string) (paths : ConfPaths)
  (apps : list (string * string)) : list ConfObject :=
  (map (descriptor ROOTDIR) (conf (CONF_CORE_SERVER paths)) ++
   flat_map (fun app : string * string =>
               let confOfApp := app.2 +:+ "/" +:+ CONF_APPS paths in
               if existsSync confOfApp
               then map (descriptor app.2) (conf confOfApp) else [])
     apps)%list.

End WithPlatform.

End LoaderSpec.

(** ** Fixtures of the examples *)

Module Fixtures.
Import JwtTokenManager ApiRegistry.
#[local] Existing Instance Sample.platform.

Definition emptyReason : Reason := mkReason None None.

Definition live1000 : gmap string Z := {[ Sample.t1000 := 1000 ]}.

Definition conf0 : Conf := mkConf 600000 1800000.

(** A tape that hands out the bytes 0, 1, 2, ... *)
Definition g0 : Rng := mkRng (fun n => ascii_of_nat n) 0.

Definition issued : string :=
  (createSignedJWTToken 1700000000000 conf0 [("sub", JStr "user1")] g0 ∅).1.1.

(** The world of the registry examples is the log of the modules that
    ran. *)
Definition Log : Type := list string.

Definition says (answer : bool) (name : string) (why : option string)
  : Checker (World := Log) :=
  mkChecker (Some (name +:+ ".js"))
    (fun _ _ _ _ reasonRef h w =>
       (Returned answer,
        match why with
        | Some msg => <[reasonRef := {| reason := Some msg; code := Some 403 |}]> h
        | None => h
        end,
        (w ++ [name])%list)).

Definition checkerA : Checker := says true "a" None.
Definition checkerB : Checker := says false "b" (Some "denied").
Definition checkerC : Checker := says true "c" None.

(** A module the loader has not tagged, as the ones handed to
    [addCustomSecurityChecker] are. *)
Definition untagged (c : Checker (World := Log)) : Checker :=
  mkChecker None (check c).

Definition ghostModule : Checker := untagged (says false "ghost" (Some "denied")).

Definition registryOf (table : gmap string string)
  (core : list (Checker (World := Log))) (custom : gmap string Checker)
  : Registry :=
  mkRegistry table [] [] [] core (mkModuleMap custom None).

Definition pingTable : gmap string string :=
  {[ "/apis/ping" := "/srv/apis/ping.js";
     "/apis/guarded" := "/srv/apis/guarded.js?customSecurity=ghost" ]}.

(** An entry whose directive names a property of [Object.prototype]. *)
Definition oddTable : gmap string string :=
  {[ "/apis/odd" := "/srv/apis/odd.js?customSecurity=constructor" ]}.

Definition oddURL : string := "http://localhost:9090/apis/odd".

Definition pingURL : string := "http://localhost:9090/apis/ping?x=1".
Definition guardedURL : string := "http://localhost:9090/apis/guarded".
Definition nowhereURL : string := "http://localhost:9090/apis/nowhere".

Definition deniedByB : Reason := {| reason := Some "denied"; code := Some 403 |}.

(** The caller's reason object sits at reference 0. *)
Definition callerHeap : Heap := {[ 0%nat := emptyReason ]}.

(** A server with one application. The decoders of both write the path
    of their file into the log; the modules of the other kinds do
    nothing, and the security checkers say yes. *)
Definition manifests (p : string) : list (string * Z) :=
  if String.eqb p "/srv/conf/decoders.json" then [("Thirty", 30); ("Ten", 10)]
  else if String.eqb p "/apps/shop/conf/decoders.json"
       then [("Twenty", 20); ("AlsoTen", 10)]
  else if String.eqb p "/srv/conf/securitycheckers.json"
       then [("Second", 20); ("First", 10)]
  else [].

Definition confPathsOf (kind : string) : ConfPaths :=
  mkConfPaths ("/srv/conf/" +:+ kind +:+ ".json") ("conf/" +:+ kind +:+ ".json").

Definition tracingDecoder (file : string) : Decoder (World := Log) :=
  mkDecoder (fun _ _ data _ w => (data, (w ++ [file])%list)).

Definition quietEncoder (file : string) : Encoder (World := Log) :=
  mkEncoder (fun _ _ respObj _ _ w => (respObj, w)).

Definition quietHeaderManager (file : string) : HeaderManager (World := Log) :=
  mkHeaderManager (fun _ _ _ _ responseHeaders w => (responseHeaders, w)).

Definition agreeingChecker (file : string) : Checker (World := Log) :=
  says true file None.

Definition loadedRegistry : Registry :=
  loadChains (fun _ => true) manifests "/srv" (confPathsOf "decoders")
    (confPathsOf "encoders") (confPathsOf "headermanagers")
    (confPathsOf "securitycheckers") tracingDecoder quietEncoder
    quietHeaderManager agreeingChecker [("shop", "/apps/shop")]
    (registryOf pingTable [] ∅).

End Fixtures.

(** ** The rest of jwttokenmanager.js *)

(** What the header manager calls besides the platform: [mustache.render]
    and [utils.parseBoolean]. *)
Class Templating := {
  mustache_render : string → jsval → string;
  parseBoolean : string → bool
}.

Module JwtTokenManagerMore.
Import JwtTokenManager.
Section WithPlatform.
Context `{Platform} `{Templating}.

Definition getToken (headers : gmap string string) : option string :=
  headers !! "authorization".

(** The argument of [getClaims]: a token, or the headers of a request. *)
Inductive HeadersOrToken : Type :=
| AToken (token : string)
| TheHeaders (headers : gmap string string).

(** [getClaims(headersOrToken)]: with headers, the whole value of
    [authorization] is taken for the token. *)
Definition getClaimsOf (headersOrToken : HeadersOrToken) : jsval :=
  match headersOrToken with
  | AToken token => getClaims token
  | TheHeaders headers =>
      match getToken headers with
      | Some token => getClaims token
      | None => JObj []
      end
  end.

(** [v.toLowerCase()] on a truthy value: only a string has the method. *)
Definition call_toLowerCase (v : jsval) : outcome string :=
  match v with
  | JStr s => Returned (toLowerCase s)
  | _ => Thrown
  end.

(** [checkSecurity] when [query.needsToken] may be any value, as in the
    object [checkHeaderToken] builds. *)
Definition checkSecurityAny (now : Z) (needsToken : jsval)
  (checkClaims : option string) (req : jsval) (headers : gmap string string)
  (reason : Reason) (activeTokens : gmap string Z)
  : outcome bool * Reason * gmap string Z :=
  if negb (truthy needsToken) then (Returned true, reason, activeTokens)
  else
  match call_toLowerCase needsToken with
  | Thrown => (Thrown, reason, activeTokens)
  | Returned lowered =>
  if String.eqb lowered "false" then (Returned true, reason, activeTokens)
  else
    let incomingToken := headers !! "authorization" in
    let token_splits :=
      if truthyStr incomingToken
      then split_blanks false (default "" incomingToken) else [] in
    match token_splits with
    | [scheme; token] =>
        if String.eqb (toLowerCase (trim scheme)) "bearer"
        then checkToken now token reason
               (match needsToken with JStr s => Some s | _ => None end)
               checkClaims req activeTokens
        else (Returned false,
              reject ("JWT malformatted. Got token " +:+ showStr incomingToken),
              activeTokens)
    | _ => (Returned false,
            reject ("JWT malformatted. Got token " +:+ showStr incomingToken),
            activeTokens)
    end
  end.

(** [checkHeaderToken]: the entry it makes up has the boolean [true] for
    [needsToken], an empty request and a new reason object. *)
Definition checkHeaderToken (now : Z) (headers : gmap string string)
  (activeTokens : gmap string Z) : outcome bool * Reason * gmap string Z :=
  checkSecurityAny now (JBool true) None (JObj []) headers (mkReason None None)
    activeTokens.

(** [l.join(sep)] *)
Fixpoint join (sep : string) (l : list string) : string :=
  match l with
  | [] => ""
  | x :: rest =>
      match rest with
      | [] => x
      | _ => x +:+ sep +:+ join sep rest
      end
  end.

(** One turn of the loop of [_parseAddstokenString]: the key and the
    value it stores for one [key:template] item. *)
Definition parseItem (request response : jsval) (split : string)
  : string * string :=
  let tuple := split_on ":" split in
  let key := default "" (head tuple) in
  let value := join ":" (tail tuple) in
  let renderedFromResponse := mustache_render value response in
  let renderedFromRequest := mustache_render value request in
  (key,
   if negb (String.eqb renderedFromResponse "") then renderedFromResponse
   else if negb (String.eqb renderedFromRequest "")
           && negb (String.eqb key "flag")
        then renderedFromRequest else value).

Definition _parseAddstokenString (addsTokenString : string)
  (request response : jsval) : list (string * jsval) :=
  fold_left
    (fun retObj split =>
       let kv := parseItem request response split in
       setProp kv.1 (JStr kv.2) retObj)
    (escapedSplit addsTokenString ",") [].

(** What a call of the header manager leaves behind. *)
Record Injected := mkInjected {
  finished : outcome unit;
  responseHeaders : gmap string string;
  rng : Rng;
  tokens : gmap string Z;
  notified : list Call
}.

Definition flagText (v : jsval) : string :=
  match v with
  | JStr s => s
  | _ => ""
  end.

Definition injectResponseHeadersInternal (now : Z) (conf : Conf)
  (addsToken : string) (request response : jsval)
  (headersOut : gmap string string) (listeners : list nat) (g : Rng)
  (activeTokens : gmap string Z) : Injected :=
  let untouched r := mkInjected r headersOut g activeTokens [] in
  let addsTokenParsed := _parseAddstokenString addsToken request response in
  let tokenflag := default JUndefined (assoc "tokenflag" addsTokenParsed) in
  let issue :=
    let '(token, g', activeTokens') :=
      createSignedJWTToken now conf addsTokenParsed g activeTokens in
    mkInjected (Returned tt)
      (<["authorization" := "Bearer " +:+ token]>
         (<["token_type" := "bearer"]>
            (<["access_token" := token]> headersOut)))
      g' activeTokens'
      (map (fun l => (l, "token_generated", token)) listeners) in
  if truthy tokenflag && negb (parseBoolean (flagText tokenflag))
  then untouched (Returned tt)
  else if truthy tokenflag then issue
  else
    match getProp response "result" with
    | Thrown => untouched Thrown
    | Returned result =>
        if negb (truthy result) then untouched (Returned tt) else issue
    end.

Definition injectResponseHeaders (now : Z) (conf : Conf)
  (apiregentry : Entry) (request response : jsval)
  (headersOut : gmap string string) (listeners : list nat) (g : Rng)
  (activeTokens : gmap string Z) : Injected :=
  if negb (truthyStr (query apiregentry !! "addsToken"))
  then mkInjected (Returned tt) headersOut g activeTokens []
  else injectResponseHeadersInternal now conf
         (default "" (query apiregentry !! "addsToken")) request response
         headersOut listeners g activeTokens.

(** The state [initSync] works on: the guard, the table in the cluster
    store if there is one, the configuration, and the intervals of the
    sweeps scheduled so far. *)
Record ManagerState := mkManagerState {
  alreadyInit : bool;
  storedTokens : option (gmap string Z);
  loadedConf : option Conf;
  scheduled : list Z
}.

(** [x || d] on a number that may be missing. *)
Definition orDefault (x : option Z) (d : Z) : Z :=
  match x with
  | Some n => if truthyNum n then n else d
  | None => d
  end.

(** [initSync]: [confFile] is what [require(TOKENMANCONF)] gives, [None]
    when it throws; its two fields may be missing. *)
Definition initSync (confFile : option (option Z * option Z))
  (s : ManagerState) : ManagerState :=
  if alreadyInit s then s
  else
    let fields := default (None, None) confFile in
    let conf := {| expiryInterval := orDefault fields.1 600000;
                   tokenGCInterval := orDefault fields.2 1800000 |} in
    {| alreadyInit := true;
       storedTokens := Some (default ∅ (storedTokens s));
       loadedConf := Some conf;
       scheduled := (scheduled s ++ [tokenGCInterval conf])%list |}.

End WithPlatform.
End JwtTokenManagerMore.

(** ** The rest of apiregistry.js *)

Module ApiRegistryMore.
Import ApiRegistry.
Section WithPlatform.
Context `{Platform}.

(** The loops of [initSync] over the entries of a table: an entry whose
    path part, up to the first question mark, is not on disk is taken
    relative to [root]. *)
Definition resolveTarget (existsSync : string → bool) (root entry : string)
  : string :=
  if existsSync (default "" (head (split_on "?" entry))) then entry
  else root +:+ "/" +:+ entry.

(** One turn of the loop of [initSync] over the applications:
    [readAppRegistry app appRoot] is the registry file of the
    application once its placeholders are replaced and the text parsed.
    The entries of the application are written over the table. *)
Definition overlayApp (existsSync : string → bool)
  (readAppRegistry : string → string → gmap string string)
  (table : gmap string string) (appObj : string * string)
  : gmap string string :=
  let app := appObj.1 in
  let appRoot := appObj.2 in
  if existsSync (appRoot +:+ "/conf/apiregistry.json")
  then (resolveTarget existsSync appRoot <$> readAppRegistry app appRoot) ∪ table
  else table.

(** The table [initSync] puts in the cluster store: the table already in
    the store if there is one, else the core registry file; then the
    applications, in catalog order. *)
Definition initTable (existsSync : string → bool)
  (readAppRegistry : string → string → gmap string string)
  (ROOTDIR : string) (cached : option (gmap string string))
  (coreFile : gmap string string) (apps : list (string * string))
  : gmap string string :=
  fold_left (overlayApp existsSync readAppRegistry) apps
    (resolveTarget existsSync ROOTDIR <$> default coreFile cached).

(** The registry of the application, if it has one, says nothing of the
    path [k]. *)
Definition silentOn (existsSync : string → bool)
  (readAppRegistry : string → string → gmap string string) (k : string)
  (appObj : string * string) : Prop :=
  existsSync (appObj.2 +:+ "/conf/apiregistry.json") = true →
  readAppRegistry appObj.1 appObj.2 !! k = None.

(** The token manager as a module of the security chain, at clock
    reading [now]: the world is the live-token table. The registry hands
    it the reference of the reason object; when there is no object
    there, a refusal for a malformed header throws at [reason.reason =],
    while [checkToken] falls back on its default parameter. *)
Definition tokenChecker (now : Z) : Checker (World := gmap string Z) :=
  mkChecker (Some "jwttokenmanager.js")
    (fun apiregentry _ req headers reasonRef h activeTokens =>
       match h !! reasonRef with
       | Some rsn =>
           let '(res, rsn', activeTokens') :=
             JwtTokenManager.checkSecurity now apiregentry req headers rsn
               activeTokens in
           (res, <[reasonRef := rsn']> h, activeTokens')
       | None =>
           let needsToken := query apiregentry !! "needsToken" in
           if negb (truthyStr needsToken)
              || String.eqb (toLowerCase (default "" needsToken)) "false"
           then (Returned true, h, activeTokens)
           else
             let incomingToken := headers !! "authorization" in
             match (if truthyStr incomingToken
                    then split_blanks false (default "" incomingToken)
                    else []) with
             | [scheme; token] =>
                 if String.eqb (toLowerCase (trim scheme)) "bearer"
                 then
                   let '(res, _, activeTokens') :=
                     JwtTokenManager.checkToken now token (mkReason None None)
                       needsToken (query apiregentry !! "checkClaims") req
                       activeTokens in
                   (res, h, activeTokens')
                 else (Thrown, h, activeTokens)
             | _ => (Thrown, h, activeTokens)
             end
       end).

End WithPlatform.
End ApiRegistryMore.

(** ** More of the sample platform: templates and flags

    [mustache.render] on templates made of text and [{{name}}] tags,
    over flat views and without escaping: a tag stands for the text of
    the property, for nothing when the view has no such property. *)

Module SampleTemplating.

Definition valueOf (view : jsval) (name : string) : string :=
  match view with
  | JObj props =>
      match assoc name props with
      | Some JUndefined | Some JNull | None => ""
      | Some v => Sample.ToString v
      end
  | _ => ""
  end.

Fixpoint render (view : jsval) (tag : option string) (s : string) : string :=
  match s with
  | EmptyString => ""
  | String c r =>
      match tag with
      | None =>
          match r with
          | String c' r' =>
              if (Ascii.eqb c "{" && Ascii.eqb c' "{")%bool
              then render view (Some "") r'
              else String c (render view None r)
          | EmptyString => String c ""
          end
      | Some name =>
          match r with
          | String c' r' =>
              if (Ascii.eqb c "}" && Ascii.eqb c' "}")%bool
              then valueOf view name +:+ render view None r'
              else render view (Some (name +:+ String c "")) r
          | EmptyString => ""
          end
      end
  end.

Definition render_template (template : string) (view : jsval) : string :=
  render view None template.

(** [utils.parseBoolean] as the text "true" in any case. *)
Definition isTrue (s : string) : bool :=
  String.eqb (Sample.toLowerCase s) "true".

#[export] Instance templating : Templating :=
  Build_Templating render_template isTrue.

End SampleTemplating.

(** ** Fixtures of the further examples *)

Module MoreFixtures.
Import JwtTokenManager ApiRegistry JwtTokenManagerMore ApiRegistryMore Fixtures.
#[local] Existing Instance Sample.platform.

(** The claim set of the token issued at clock reading 1000 for the
    subject [user1], and a platform that decodes it as well as the claim
    sets of the other examples. *)
Definition issuedClaims : jsval :=
  JObj (buildClaims 1000 conf0 [("sub", JStr "user1")]
          (hex (randomBytes 16 g0).1)).

Definition decodeIssued (seg : string) : option jsval :=
  head (filter (fun v => String.eqb (base64 (Sample.JSON_stringify v)) seg)
          (issuedClaims :: Sample.knownClaims)).

Definition issuingPlatform : Platform :=
  Build_Platform Sample.toLowerCase Sample.trim Sample.ToNumber_ext
    Sample.looseEq Sample.ToString Sample.JSON_stringify decodeIssued
    Sample.parseInt Sample.hmac_sha256 Sample.escapedSplit Sample.URL_pathname
    Sample.URL_search Sample.querystring_parse Sample.path_resolve
    Sample.path_basename.

Definition secureEntry : Entry :=
  mkEntry {[ "needsToken" := "true" ]} "?needsToken=true" "/srv/apis/secure.js".

(** Two tokens in the table, one of them stale at clock reading 5000. *)
Definition twoTokens : gmap string Z :=
  {[ Sample.t1000 := 3999; Sample.tUser1 := 4500 ]}.

(** An entry that issues a token and writes its gate [flag:...]. *)
Definition loginEntry : Entry :=
  mkEntry {[ "addsToken" := "sub:{{id}},flag:false" ]}
    "?addsToken=sub:{{id}},flag:false" "/srv/apis/login.js".

Definition loginRequest : jsval := JObj [("id", JStr "user1")].
Definition loginResponse : jsval := JObj [("result", JBool true)].

(** A registry whose security chain is the token manager alone. *)
Definition secureTable : gmap string string :=
  {[ "/apis/secure" := "/srv/apis/secure.js?needsToken=true" ]}.

Definition secureURL : string := "http://localhost:9090/apis/secure".

Definition tokenRegistry (now : Z) : Registry (World := gmap string Z) :=
  mkRegistry secureTable [] [] []
    [tokenChecker now] emptyObject.

(** The registry files of run-time changes. *)
Definition coreRegistryFile : string := "/srv/conf/apiregistry.json".


Definition newURL : string := "http://localhost:9090/apis/new".

(** Start-up with three applications: [shop] and [blog] both register
    [/apis/x], [wiki] has no registry file. *)
Definition startApps : list (string * string) :=
  [("shop", "/apps/shop"); ("blog", "/apps/blog"); ("wiki", "/apps/wiki")].

Definition onDisk (p : string) : bool :=
  (String.eqb p "/apps/shop/conf/apiregistry.json"
   || String.eqb p "/apps/blog/conf/apiregistry.json"
   || String.eqb p "/srv/apis/ping.js")%bool.

Definition appRegistryOf (app appRoot : string) : gmap string string :=
  if String.eqb app "shop" then {[ "/apis/x" := "apis/shop_x.js" ]}
  else if String.eqb app "blog" then {[ "/apis/x" := "apis/blog_x.js?needsToken=true" ]}
  else ∅.

Definition coreTable : gmap string string :=
  {[ "/apis/ping" := "/srv/apis/ping.js"; "/apis/x" := "apis/core_x.js" ]}.

(** Two configurations of decoders with a tie at priority 10. *)
Definition decoderConfs (p : string) : list (string * Z) :=
  if String.eqb p "/srv/conf/decoders.json"
  then [("Thirty", 30); ("Ten", 10)]
  else [("Twenty", 20); ("AlsoTen", 10)].

Definition decoderSources : list PathAndRoot :=
  pathAndRootsOf (fun _ => true) "/srv"
    "/srv/conf/decoders.json" "conf/decoders.json" [("shop", "/apps/shop")].

End MoreFixtures.

(** * Properties of the token manager *)

Module TokenProps.
Import JwtTokenManager TokenSpec.
Section WithPlatform.
Context `{Platform}.

(** Case analysis along the branches of [checkToken] in [E]. *)
Ltac break_checkToken E :=
  unfold checkToken in E;
  repeat match type of E with
         | context [match ?x with _ => _ end] => destruct x eqn:?
         end;
  simplify_eq.

(** What [checkToken] leaves in the table: the refreshed entry when it
    returns [true], the table it was given otherwise. *)
Lemma checkToken_table now token rsn accessNeeded checkClaims req
  (activeTokens : gmap string Z) r rsn' t' :
  checkToken now token rsn accessNeeded checkClaims req activeTokens
    = (r, rsn', t') →
  t' = match r with
       | Returned true => <[token := now]> activeTokens
       | _ => activeTokens
       end.
Proof. intros E. break_checkToken E; reflexivity. Qed.

(** A rejection carries the code 403. *)
Lemma checkToken_false_code now token rsn accessNeeded checkClaims req
  (activeTokens : gmap string Z) rsn' t' :
  checkToken now token rsn accessNeeded checkClaims req activeTokens
    = (Returned false, rsn', t') →
  code rsn' = Some 403.
Proof. intros E. break_checkToken E; reflexivity. Qed.

Lemma checkToken_absent now token rsn accessNeeded checkClaims req
  (activeTokens : gmap string Z) :
  default 0 (activeTokens !! token) = 0 →
  checkToken now token rsn accessNeeded checkClaims req activeTokens
    = (Returned false, reject "JWT Token Error, no last access found",
       activeTokens).
Proof. intros E. unfold checkToken. rewrite E. reflexivity. Qed.

Lemma truthyNum_nonzero n : n ≠ 0 → truthyNum n = true.
Proof. intros Hn. unfold truthyNum. destruct (Z.eqb_spec n 0); [lia | done]. Qed.

Lemma checkToken_expired now token rsn accessNeeded checkClaims req
  (activeTokens : gmap string Z) lastAccess E :
  activeTokens !! token = Some lastAccess → lastAccess ≠ 0 →
  numericExpiry token E → E < now - lastAccess →
  checkToken now token rsn accessNeeded checkClaims req activeTokens
    = (Returned false, reject "JWT Token Error, expired", activeTokens).
Proof.
  intros Hla Hnz (claims & ei & Hp & Hg & Hn) Hold.
  unfold checkToken. rewrite Hla. simpl.
  rewrite truthyNum_nonzero by done. simpl. rewrite Hp, Hg.
  unfold js_gt. rewrite Hn.
  destruct (Z.ltb_spec E (now - lastAccess)); [reflexivity | lia].
Qed.

(** What a successful [checkToken] went through. *)
Lemma checkToken_true_inv now token rsn accessNeeded checkClaims req
  (activeTokens : gmap string Z) rsn' t' :
  checkToken now token rsn accessNeeded checkClaims req activeTokens
    = (Returned true, rsn', t') →
  ∃ lastAccess claims ei,
    activeTokens !! token = Some lastAccess ∧ lastAccess ≠ 0 ∧
    parseClaims token = Some claims ∧
    getProp claims "expiryInterval" = Returned ei ∧
    js_gt (now - lastAccess) ei = false ∧
    rsn' = rsn ∧ t' = <[token := now]> activeTokens.
Proof.
  intros E. unfold checkToken in E.
  destruct (activeTokens !! token) as [lastAccess|] eqn:Hla; simpl in E;
    [|discriminate].
  destruct (truthyNum lastAccess) eqn:Hnz; simpl in E; [|discriminate].
  destruct (parseClaims token) as [claims|]; [|discriminate].
  destruct (getProp claims "expiryInterval") as [ei|] eqn:Hg; [|discriminate].
  destruct (js_gt (now - lastAccess) ei) eqn:Hgt; [discriminate|].
  exists lastAccess, claims, ei. repeat split; try done.
  - intros ->. discriminate.
  - break_checkToken E; reflexivity.
  - break_checkToken E; reflexivity.
Qed.

Lemma checkToken_pass now token rsn accessNeeded checkClaims req
  (activeTokens : gmap string Z) lastAccess E :
  activeTokens !! token = Some lastAccess → lastAccess ≠ 0 →
  numericExpiry token E → now - lastAccess <= E →
  authorized token accessNeeded checkClaims req →
  checkToken now token rsn accessNeeded checkClaims req activeTokens
    = (Returned true, rsn, <[token := now]> activeTokens).
Proof.
  intros Hla Hnz (claims & ei & Hp & Hg & Hn) Hage
    (claims' & sub & Hp' & Hsub & Hacc & Hloop).
  rewrite Hp in Hp'. injection Hp' as <-.
  unfold checkToken. rewrite Hla. simpl.
  rewrite truthyNum_nonzero by done. simpl. rewrite Hp, Hg.
  unfold js_gt. rewrite Hn.
  destruct (Z.ltb_spec E (now - lastAccess)); [lia|].
  rewrite Hsub, Hacc, Hloop. reflexivity.
Qed.

(** With a token in the headers, the security checker is [checkToken]. *)
Lemma checkSecurity_bearer now apiregentry req headers rsn
  (activeTokens : gmap string Z) token :
  requiresToken apiregentry → carriesBearer headers token →
  checkSecurity now apiregentry req headers rsn activeTokens =
  checkToken now token rsn (query apiregentry !! "needsToken")
    (query apiregentry !! "checkClaims") req activeTokens.
Proof.
  intros [Hn Hf] (auth & scheme & Hh & Hne & Hs & Hb).
  unfold checkSecurity. rewrite Hn, Hf, Hh. simpl.
  destruct (String.eqb_spec auth ""); [done|]. simpl.
  rewrite Hs, Hb. reflexivity.
Qed.

(** An entry that asks for no token passes without a look at the
    table. *)
Lemma checkSecurity_no_token_needed now apiregentry req headers rsn
  (activeTokens : gmap string Z) :
  truthyStr (query apiregentry !! "needsToken") = false ∨
  String.eqb (toLowerCase (default "" (query apiregentry !! "needsToken")))
    "false" = true →
  checkSecurity now apiregentry req headers rsn activeTokens
    = (Returned true, rsn, activeTokens).
Proof.
  intros Hn. unfold checkSecurity.
  destruct Hn as [-> | ->]; [done|]. by rewrite orb_true_r.
Qed.

(** Without a well-formed [Authorization] header, an entry that asks
    for a token is refused with the code 403. *)
Lemma checkSecurity_no_header now apiregentry req headers rsn
  (activeTokens : gmap string Z) :
  requiresToken apiregentry → headers !! "authorization" = None →
  checkSecurity now apiregentry req headers rsn activeTokens
    = (Returned false, reject "JWT malformatted. Got token undefined",
       activeTokens).
Proof.
  intros [Hn Hf] Hh. unfold checkSecurity. by rewrite Hn, Hf, Hh.
Qed.

Lemma validation_checkToken now token (activeTokens : gmap string Z) res :
  validation now token activeTokens res →
  ∃ rsn accessNeeded checkClaims req,
    res = checkToken now token rsn accessNeeded checkClaims req activeTokens.
Proof.
  intros [rsn a c req | e req headers rsn Hr Hc].
  - by exists rsn, a, c, req.
  - eexists rsn, _, _, req. by apply checkSecurity_bearer.
Qed.

(** After [releaseToken] the token is gone from the table, unless it is
    the empty string, which has no claims to parse. *)
Lemma releaseToken_gone token (activeTokens : gmap string Z) :
  default 0 (releaseToken token activeTokens !! token) = 0 ∨ token = "".
Proof.
  unfold releaseToken. destruct (String.eqb_spec token "") as [->|Hne]; simpl.
  - by right.
  - left. destruct (truthyNum (default 0 (activeTokens !! token))) eqn:Ht.
    + by rewrite lookup_delete_eq.
    + unfold truthyNum in Ht.
      destruct (Z.eqb_spec (default 0 (activeTokens !! token)) 0); [done|discriminate].
Qed.

Lemma checkToken_empty now rsn accessNeeded checkClaims req
  (activeTokens : gmap string Z) :
  ∃ rsn',
    checkToken now "" rsn accessNeeded checkClaims req activeTokens
      = (Returned false, rsn', activeTokens) ∧ code rsn' = Some 403.
Proof.
  unfold checkToken.
  destruct (negb (truthyNum (default 0 (activeTokens !! "")))); [by eexists|].
  simpl. by eexists.
Qed.

(** C1, amended: a validation of a token succeeds only if the token is
    in the live-token table with a non-zero [lastAccess] and, when its
    claims carry a numeric [expiryInterval], with
    [now - lastAccess <= expiryInterval]; when the token is absent from
    the table the validation returns [false] with code 403, and so it
    does right after [releaseToken]; when the token is in the table and
    its age exceeds its numeric [expiryInterval], the validation returns
    [false] with code 403 and a reason that contains "expired". *)
Theorem validation_live_and_unexpired now token (activeTokens : gmap string Z) :
  (∀ res, validation now token activeTokens res →
     (res.1.1 = Returned true →
      ∃ lastAccess,
        activeTokens !! token = Some lastAccess ∧ lastAccess ≠ 0 ∧
        ∀ E, numericExpiry token E → now - lastAccess <= E) ∧
     (activeTokens !! token = None →
      res.1.1 = Returned false ∧ code res.1.2 = Some 403) ∧
     (∀ lastAccess E,
        activeTokens !! token = Some lastAccess → lastAccess ≠ 0 →
        numericExpiry token E → E < now - lastAccess →
        res.1.1 = Returned false ∧ code res.1.2 = Some 403 ∧
        ∃ msg, reason res.1.2 = Some msg ∧ str_includes "expired" msg = true)) ∧
  (∀ res, validation now token (releaseToken token activeTokens) res →
     res.1.1 = Returned false ∧ code res.1.2 = Some 403).
Proof.
  split.
  - intros res (rsn & a & c & req & ->)%validation_checkToken.
    split; [|split].
    + destruct (checkToken now token rsn a c req activeTokens)
        as [[r rsn'] t'] eqn:E. simpl. intros ->.
      apply checkToken_true_inv in E
        as (la & claims & ei & Hla & Hnz & Hp & Hg & Hgt & _ & _).
      exists la. repeat split; try done.
      intros E (claims' & ei' & Hp' & Hg' & Hn).
      rewrite Hp in Hp'. injection Hp' as <-.
      rewrite Hg in Hg'. injection Hg' as <-.
      unfold js_gt in Hgt. rewrite Hn in Hgt.
      destruct (Z.ltb_spec E (now - la)); [discriminate | lia].
    + intros Hnone. rewrite checkToken_absent by (by rewrite Hnone). done.
    + intros la E Hla Hnz Hnum Hold.
      rewrite (checkToken_expired _ _ _ _ _ _ _ la E) by done.
      repeat split. by eexists.
  - intros res (rsn & a & c & req & ->)%validation_checkToken.
    destruct (releaseToken_gone token activeTokens) as [Hgone | ->].
    + rewrite checkToken_absent by done. done.
    + destruct (checkToken_empty now rsn a c req (releaseToken "" activeTokens))
        as (rsn' & -> & Hc). done.
Qed.

(** C10: whenever [checkToken] returns [false], whatever the cause, the
    live-token table is the one it was given; only a call that returns
    [true] writes a [lastAccess]. *)
Theorem checkToken_rejection_keeps_table now token rsn accessNeeded checkClaims
  req (activeTokens : gmap string Z) r rsn' t' :
  checkToken now token rsn accessNeeded checkClaims req activeTokens
    = (r, rsn', t') →
  (r = Returned false → t' = activeTokens) ∧
  (t' ≠ activeTokens → r = Returned true ∧ t' = <[token := now]> activeTokens).
Proof.
  intros E. apply checkToken_table in E. subst t'. split.
  - by intros ->.
  - intros Hne. destruct r as [[|]|]; done.
Qed.

Lemma last_nonempty (x : Z) (l : list Z) (d d' : Z) :
  List.last (x :: l) d = List.last (x :: l) d'.
Proof.
  revert x. induction l as [|y l IH]; intros x; [done|].
  change (List.last (y :: l) d = List.last (y :: l) d'). apply IH.
Qed.

(** The table after a run of accesses that all succeed. *)
Lemma accesses_within token accessNeeded checkClaims req E :
  numericExpiry token E → authorized token accessNeeded checkClaims req →
  ∀ times (activeTokens : gmap string Z) lastAccess,
    activeTokens !! token = Some lastAccess → lastAccess ≠ 0 →
    withinInterval E lastAccess times →
    (accesses times token accessNeeded checkClaims req activeTokens).1
      = map (fun _ => Returned true) times ∧
    (accesses times token accessNeeded checkClaims req activeTokens).2 !! token
      = Some (List.last times lastAccess).
Proof.
  intros Hnum Hauth times.
  induction times as [|now later IH]; intros activeTokens la Hla Hnz Hw.
  - done.
  - destruct Hw as (Hnow & Hage & Hw). cbn [accesses].
    rewrite (checkToken_pass _ _ _ _ _ _ _ la E) by done.
    specialize (IH (<[token := now]> activeTokens) now
                  (lookup_insert_eq _ _ _) Hnow Hw).
    destruct (accesses later token accessNeeded checkClaims req
                (<[token := now]> activeTokens)) as [rs final].
    simpl in *. destruct IH as [-> ->]. split; [done|].
    destruct later as [|t later]; [done|]. f_equal. apply last_nonempty.
Qed.

(** Once the age has passed the interval, every later access fails and
    the table stays as it is. *)
Lemma accesses_after_gap token accessNeeded checkClaims req E
  (activeTokens : gmap string Z) lastAccess :
  numericExpiry token E →
  activeTokens !! token = Some lastAccess → lastAccess ≠ 0 →
  ∀ times, Forall (fun now => E < now - lastAccess) times →
    accesses times token accessNeeded checkClaims req activeTokens
      = (map (fun _ => Returned false) times, activeTokens).
Proof.
  intros Hnum Hla Hnz times.
  induction times as [|now later IH]; intros Hall.
  - done.
  - apply Forall_cons in Hall as [Hold Hall]. cbn [accesses].
    rewrite (checkToken_expired _ _ _ _ _ _ _ lastAccess E) by done.
    rewrite (IH Hall). done.
Qed.

(** C8: a validation that succeeds sets the [lastAccess] of the token to
    the current time; hence accesses that each come at most
    [expiryInterval] after the previous one all succeed, however many
    they are, while after one gap longer than [expiryInterval] the next
    access, and every access after it, is rejected as expired. *)
Theorem sliding_expiry token accessNeeded checkClaims req E :
  (∀ now (activeTokens : gmap string Z) res,
     validation now token activeTokens res → res.1.1 = Returned true →
     res.2 = <[token := now]> activeTokens ∧ res.2 !! token = Some now) ∧
  (numericExpiry token E → authorized token accessNeeded checkClaims req →
   ∀ times (activeTokens : gmap string Z) lastAccess,
     activeTokens !! token = Some lastAccess → lastAccess ≠ 0 →
     withinInterval E lastAccess times →
     (accesses times token accessNeeded checkClaims req activeTokens).1
       = map (fun _ => Returned true) times ∧
     (accesses times token accessNeeded checkClaims req activeTokens).2 !! token
       = Some (List.last times lastAccess)) ∧
  (numericExpiry token E →
   ∀ (activeTokens : gmap string Z) lastAccess now rsn,
     activeTokens !! token = Some lastAccess → lastAccess ≠ 0 →
     E < now - lastAccess →
     checkToken now token rsn accessNeeded checkClaims req activeTokens
       = (Returned false, reject "JWT Token Error, expired", activeTokens) ∧
     ∀ later, Forall (fun t => now <= t) later →
       accesses later token accessNeeded checkClaims req activeTokens
         = (map (fun _ => Returned false) later, activeTokens)).
Proof.
  split; [|split].
  - intros now activeTokens res (rsn & a & c & rq & ->)%validation_checkToken.
    destruct (checkToken now token rsn a c rq activeTokens)
      as [[r rsn'] t'] eqn:Hc. simpl. intros ->.
    apply checkToken_table in Hc. subst t'.
    split; [done | apply lookup_insert_eq].
  - intros Hnum Hauth. by apply accesses_within.
  - intros Hnum activeTokens la now rsn Hla Hnz Hold. split.
    + by apply (checkToken_expired _ _ _ _ _ _ _ la E).
    + intros later Hlater. apply (accesses_after_gap _ _ _ _ E _ la); try done.
      eapply Forall_impl; [exact Hlater|]. simpl. intros t Ht. lia.
Qed.

(** *** Issuing a token *)

Lemma split_on_free c a : has_char c a = false → split_on c a = [a].
Proof.
  induction a as [|x a IH]; [done|]. simpl.
  intros [Hx Ha]%orb_false_elim. by rewrite Hx, IH.
Qed.

Lemma split_on_segment c a rest :
  has_char c a = false → split_on c (a +:+ String c rest) = a :: split_on c rest.
Proof.
  induction a as [|x a IH]; simpl.
  - intros _. by rewrite Ascii.eqb_refl.
  - intros [Hx Ha]%orb_false_elim. by rewrite Hx, IH.
Qed.

(** A digit taken from an alphabet is the fallback or a character of the
    alphabet. *)
Lemma digit_of_alphabet (k : nat) (alphabet : string) (d : ascii) :
  In (default d (String.get k alphabet)) (d :: list_ascii_of_string alphabet).
Proof.
  revert k. induction alphabet as [|x alphabet IH]; intros k; simpl.
  - by left.
  - destruct k as [|k]; simpl; [by right; left|].
    destruct (IH k) as [E|E]; [by left | by right; right].
Qed.

Lemma b64_digit_not_dot n : Ascii.eqb (b64_digit n) "." = false.
Proof.
  unfold b64_digit.
  pose proof (digit_of_alphabet (N.to_nat n) b64_alphabet "A") as Hin.
  assert (Hall : Forall (fun c => Ascii.eqb c "." = false)
                   ("A"%char :: list_ascii_of_string b64_alphabet))
    by (vm_compute; repeat constructor).
  rewrite Forall_forall in Hall. apply Hall. by apply list_elem_of_In.
Qed.

Lemma hex_digit_not_dot n : Ascii.eqb (hex_digit n) "." = false.
Proof.
  unfold hex_digit.
  pose proof (digit_of_alphabet (N.to_nat n) "0123456789abcdef" "0") as Hin.
  assert (Hall : Forall (fun c => Ascii.eqb c "." = false)
                   ("0"%char :: list_ascii_of_string "0123456789abcdef"))
    by (vm_compute; repeat constructor).
  rewrite Forall_forall in Hall. apply Hall. by apply list_elem_of_In.
Qed.

Lemma base64_step (a b c : ascii) (r : string) :
  base64 (String a (String b (String c r))) =
  String (b64_digit (N_of_ascii a / 4))
    (String (b64_digit ((N_of_ascii a mod 4) * 16 + N_of_ascii b / 16))
       (String (b64_digit ((N_of_ascii b mod 16) * 4 + N_of_ascii c / 64))
          (String (b64_digit (N_of_ascii c mod 64)) (base64 r)))).
Proof. reflexivity. Qed.

(** No dot in the output of [base64]: by induction three bytes at a
    time. *)
Lemma base64_no_dot_upto (n : nat) :
  ∀ s, (String.length s < n)%nat → has_char "." (base64 s) = false.
Proof.
  induction n as [|n IH]; intros s Hlen; [lia|].
  destruct s as [|a [|b [|c r]]].
  - done.
  - cbn [base64 has_char]. by rewrite !b64_digit_not_dot.
  - cbn [base64 has_char]. by rewrite !b64_digit_not_dot.
  - rewrite base64_step. cbn [has_char]. rewrite !b64_digit_not_dot. simpl.
    apply IH. simpl in Hlen. lia.
Qed.

Lemma base64_no_dot s : has_char "." (base64 s) = false.
Proof. apply (base64_no_dot_upto (S (String.length s))). lia. Qed.

Lemma hex_no_dot s : has_char "." (hex s) = false.
Proof.
  induction s as [|a s IH]; [done|].
  cbn [hex has_char]. by rewrite !hex_digit_not_dot, IH.
Qed.

(** A header, a base64 segment and a hex segment joined by dots split
    back into the three of them. *)
Lemma three_segments (claimsJSON digest : string) :
  split_on "." (BASE_64_HEADER +:+ "." +:+ base64 claimsJSON +:+ "."
                +:+ hex digest)
  = [BASE_64_HEADER; base64 claimsJSON; hex digest].
Proof.
  change (BASE_64_HEADER +:+ "." +:+ base64 claimsJSON +:+ "." +:+ hex digest)
    with (BASE_64_HEADER +:+ String "." (base64 claimsJSON +:+ String "." (hex digest))).
  rewrite split_on_segment by reflexivity.
  rewrite split_on_segment by apply base64_no_dot.
  rewrite split_on_free by apply hex_no_dot. reflexivity.
Qed.

(** C2, amended: [createSignedJWTToken] returns [header.claims.signature],
    three segments, where [header] is the constant segment, [claims] is
    the base64 of the JSON of the claim set, and [signature] is the hex
    of an HMAC-SHA256 computed over [claims.header] (the claims segment
    first, then the header segment) with a key made of thirty-two random
    bytes drawn during the call, after the sixteen of [jti]. The token
    is entered in the table. *)
Theorem createSignedJWTToken_shape now conf jwtproperties g
  (activeTokens : gmap string Z) :
  let jti := hex (randomBytes 16 g).1 in
  let claimB64 :=
    base64 (JSON_stringify (JObj (buildClaims now conf jwtproperties jti))) in
  let key :=
    hex (string_of_list_ascii (map (tape g) (seq (pos g + 16) 32))) in
  let sig64 := hex (hmac_sha256 key (claimB64 +:+ "." +:+ BASE_64_HEADER)) in
  let token := (createSignedJWTToken now conf jwtproperties g activeTokens).1.1 in
  let g' := (createSignedJWTToken now conf jwtproperties g activeTokens).1.2 in
  token = BASE_64_HEADER +:+ "." +:+ claimB64 +:+ "." +:+ sig64 ∧
  split_on "." token = [BASE_64_HEADER; claimB64; sig64] ∧
  tape g' = tape g ∧ pos g' = (pos g + 48)%nat ∧
  (createSignedJWTToken now conf jwtproperties g activeTokens).2
    = <[token := now]> activeTokens.
Proof.
  intros jti claimB64 key sig64 token g'.
  assert (Htok : token = BASE_64_HEADER +:+ "." +:+ claimB64 +:+ "." +:+ sig64)
    by reflexivity.
  split; [exact Htok|]. split; [|split; [reflexivity|split]].
  - rewrite Htok. apply three_segments.
  - simpl. lia.
  - reflexivity.
Qed.

(** *** The sweep *)

Lemma cleanToken_step now listeners (m : gmap string Z) calls token ei :
  getProp (getClaims token) "expiryInterval" = Returned ei →
  cleanToken now listeners (Returned tt, m, calls) token =
  if expiredAt now token (default 0 (m !! token))
  then (Returned tt, delete token m,
        (calls ++ map (fun l => (l, "token_expireed", token)) listeners)%list)
  else (Returned tt, m, calls).
Proof. intros Hg. unfold cleanToken, expiredAt. rewrite Hg. reflexivity. Qed.

(** The loop of the sweep over a list of distinct keys. *)
Lemma cleanTokens_loop now listeners :
  ∀ keys (m : gmap string Z) calls,
    NoDup keys →
    (∀ k, k ∈ keys → getProp (getClaims k) "expiryInterval" ≠ Thrown) →
    ∃ m',
      fold_left (cleanToken now listeners) keys (Returned tt, m, calls) =
      (Returned tt, m',
       (calls ++ expiryCalls listeners
          (List.filter (fun k => expiredAt now k (default 0 (m !! k))) keys))%list) ∧
      ∀ k, m' !! k =
           if bool_decide (k ∈ keys) && expiredAt now k (default 0 (m !! k))
           then None else m !! k.
Proof.
  induction keys as [|key keys IH]; intros m calls Hnd Hok.
  - exists m. split; [simpl; by rewrite app_nil_r | done].
  - apply NoDup_cons in Hnd as [Hnotin Hnd].
    destruct (getProp (getClaims key) "expiryInterval") as [ei|] eqn:Hg;
      [|exfalso; apply (Hok key); [apply elem_of_cons; by left | exact Hg]].
    assert (Hok' : ∀ k, k ∈ keys → getProp (getClaims k) "expiryInterval" ≠ Thrown)
      by (intros k Hk; apply Hok, elem_of_cons; by right).
    cbn [fold_left]. rewrite (cleanToken_step _ _ _ _ _ ei Hg).
    assert (Hsame : ∀ m1 : gmap string Z, (∀ k, k ≠ key → m1 !! k = m !! k) →
              List.filter (fun k => expiredAt now k (default 0 (m1 !! k))) keys =
              List.filter (fun k => expiredAt now k (default 0 (m !! k))) keys).
    { intros m1 Hm1. apply List.filter_ext_in. intros k Hk.
      rewrite Hm1; [done|]. intros ->. by apply Hnotin, list_elem_of_In. }
    destruct (expiredAt now key (default 0 (m !! key))) eqn:Hexp.
    + destruct (IH (delete key m)
                  (calls ++ map (fun l => (l, "token_expireed", key)) listeners)%list
                  Hnd Hok') as (m' & -> & Hm').
      exists m'. split.
      * rewrite Hsame by (intros k Hk; by apply lookup_delete_ne).
        cbn [List.filter]. rewrite Hexp. unfold expiryCalls. cbn [List.flat_map].
        by rewrite <- app_assoc.
      * intros k. rewrite Hm'. destruct (decide (k = key)) as [->|Hne].
        -- rewrite lookup_delete_eq, Hexp.
           rewrite (bool_decide_eq_true_2 (key ∈ key :: keys))
             by (apply elem_of_cons; by left).
           simpl. by case_match.
        -- rewrite lookup_delete_ne by done.
           rewrite (bool_decide_ext (k ∈ key :: keys) (k ∈ keys)); [done|].
           rewrite elem_of_cons. split; [by intros [?|?] | by right].
    + destruct (IH m calls Hnd Hok') as (m' & -> & Hm').
      exists m'. split.
      * cbn [List.filter]. by rewrite Hexp.
      * intros k. rewrite Hm'. destruct (decide (k = key)) as [->|Hne].
        -- rewrite Hexp. rewrite (bool_decide_eq_false_2 (key ∈ keys)) by done.
           simpl. by rewrite andb_false_r.
        -- rewrite (bool_decide_ext (k ∈ key :: keys) (k ∈ keys)); [done|].
           rewrite elem_of_cons. split; [by intros [?|?] | by right].
Qed.

(** The sweep, when no live token has [null] for claims: it returns, the
    table it leaves holds the entries that are not expired, and the
    listeners are called once each for every evicted token, under the
    event name the code spells "token_expireed". *)
Lemma cleanTokens_spec now listeners (activeTokens : gmap string Z) :
  (∀ k, is_Some (activeTokens !! k) →
        getProp (getClaims k) "expiryInterval" ≠ Thrown) →
  ∃ m',
    _cleanTokens now listeners activeTokens =
    (Returned tt, m',
     expiryCalls listeners
       (List.filter (fun k => expiredAt now k (default 0 (activeTokens !! k)))
          (map fst (map_to_list activeTokens)))) ∧
    ∀ k, m' !! k =
         match activeTokens !! k with
         | Some lastAccess =>
             if expiredAt now k lastAccess then None else Some lastAccess
         | None => None
         end.
Proof.
  intros Hok. unfold _cleanTokens.
  destruct (cleanTokens_loop now listeners (map fst (map_to_list activeTokens))
              activeTokens []) as (m' & E & Hm').
  - apply NoDup_fst_map_to_list.
  - intros k Hk. apply Hok.
    apply list_elem_of_fmap in Hk as ([k' v] & -> & Hkv).
    apply elem_of_map_to_list in Hkv. simpl. by exists v.
  - exists m'. split; [exact E|].
    intros k. rewrite Hm'.
    destruct (activeTokens !! k) as [la|] eqn:Hla; simpl.
    + rewrite bool_decide_eq_true_2; [done|].
      apply list_elem_of_fmap. exists (k, la). split; [done|].
      by apply elem_of_map_to_list.
    + by destruct (_ && _).
Qed.

End WithPlatform.
End TokenProps.

(** ** The token manager on concrete tokens *)

Module TokenExamples.
Import JwtTokenManager TokenSpec TokenProps Fixtures.
#[local] Existing Instance Sample.platform.

Lemma t1000_numericExpiry : numericExpiry Sample.t1000 1000.
Proof.
  exists (JObj [("expiryInterval", JNum 1000)]), (JNum 1000).
  repeat split; vm_compute; reflexivity.
Defined.

Lemma t1000_authorized : authorized Sample.t1000 None None (JObj []).
Proof.
  exists (JObj [("expiryInterval", JNum 1000)]), JUndefined.
  repeat split; vm_compute; reflexivity.
Defined.

Lemma validation_live_and_unexpired_witness :
  (∃ lastAccess,
     live1000 !! Sample.t1000 = Some lastAccess ∧ lastAccess ≠ 0 ∧
     1500 - lastAccess <= 1000) ∧
  ((checkToken 1500 Sample.t1000 emptyReason None None (JObj []) ∅).1.1
     = Returned false) ∧
  ((checkToken 2500 Sample.t1000 emptyReason None None (JObj []) live1000).1.1
     = Returned false) ∧
  ((checkToken 1500 Sample.t1000 emptyReason None None (JObj [])
      (releaseToken Sample.t1000 live1000)).1.1 = Returned false).
Proof.
  split; [|split; [|split]].
  - destruct (validation_live_and_unexpired 1500 Sample.t1000 live1000) as [Hv _].
    destruct (Hv _ (by_checkToken 1500 Sample.t1000 live1000 emptyReason None None (JObj [])))
      as (Hok & _ & _).
    destruct Hok as (la & Hla & Hnz & Hage); [vm_compute; reflexivity|].
    exists la. repeat split; [exact Hla | exact Hnz |].
    exact (Hage 1000 t1000_numericExpiry).
  - destruct (validation_live_and_unexpired 1500 Sample.t1000 ∅) as [Hv _].
    destruct (Hv _ (by_checkToken 1500 Sample.t1000 ∅ emptyReason None None (JObj [])))
      as (_ & Habsent & _).
    apply Habsent. reflexivity.
  - destruct (validation_live_and_unexpired 2500 Sample.t1000 live1000) as [Hv _].
    destruct (Hv _ (by_checkToken 2500 Sample.t1000 live1000 emptyReason None None (JObj [])))
      as (_ & _ & Hexp).
    apply (Hexp 1000 1000); [vm_compute; reflexivity | lia
                            | exact t1000_numericExpiry | lia].
  - destruct (validation_live_and_unexpired 1500 Sample.t1000 live1000) as [_ Hr].
    apply (Hr _ (by_checkToken 1500 Sample.t1000 _ emptyReason None None (JObj []))).
Defined.

(** C1 as stated fails: a token whose claims carry no [expiryInterval]
    is in the table and validates, however old its [lastAccess], though
    [now - lastAccess <= claims.expiryInterval] does not hold. *)
Lemma validation_without_expiry_claim :
  let activeTokens : gmap string Z := {[ Sample.tNoExpiry := 1000 ]} in
  let res := checkToken 99999999 Sample.tNoExpiry emptyReason None None
               (JObj []) activeTokens in
  validation 99999999 Sample.tNoExpiry activeTokens res ∧
  res.1.1 = Returned true ∧
  ¬ ∃ lastAccess,
      activeTokens !! Sample.tNoExpiry = Some lastAccess ∧
      withinExpiry 99999999 Sample.tNoExpiry lastAccess.
Proof.
  intros activeTokens res. split; [constructor|]. split; [vm_compute; reflexivity|].
  intros (la & _ & claims & ei & Hp & Hg & Hle).
  vm_compute in Hp. injection Hp as <-.
  vm_compute in Hg. injection Hg as <-.
  vm_compute in Hle. discriminate.
Qed.

Lemma checkToken_rejection_keeps_table_witness :
  checkToken 2500 Sample.t1000 emptyReason None None (JObj []) live1000
    = (Returned false, reject "JWT Token Error, expired", live1000) ∧
  live1000 = live1000.
Proof.
  assert (E : checkToken 2500 Sample.t1000 emptyReason None None (JObj []) live1000
              = (Returned false, reject "JWT Token Error, expired", live1000))
    by (vm_compute; reflexivity).
  split; [exact E|].
  symmetry.
  exact (proj1 (checkToken_rejection_keeps_table _ _ _ _ _ _ _ _ _ _ E) eq_refl).
Defined.

(** Each cause of rejection, on the sample platform. *)
Example rejected_absent :
  checkToken 1500 Sample.t1000 emptyReason None None (JObj []) ∅
  = (Returned false, reject "JWT Token Error, no last access found", ∅).
Proof. vm_compute; reflexivity. Qed.

Example rejected_unparseable :
  checkToken 1500 "no-dots" emptyReason None None (JObj []) {[ "no-dots" := 1000 ]}
  = (Returned false, reject "JWT Token Error, claims are not parseable",
     {[ "no-dots" := 1000 ]}).
Proof. vm_compute; reflexivity. Qed.

Example rejected_access_level :
  (checkToken 1500 Sample.tUser1 emptyReason (Some "admin,root") None (JObj [])
     {[ Sample.tUser1 := 1000 ]}).1.1 = Returned false.
Proof. vm_compute; reflexivity. Qed.

Example accepted_access_level :
  (checkToken 1500 Sample.tUser1 emptyReason (Some "admin,user1") None (JObj [])
     {[ Sample.tUser1 := 1000 ]}).1.1 = Returned true.
Proof. vm_compute; reflexivity. Qed.

Example rejected_claims_check :
  (checkToken 1500 Sample.tUser1 emptyReason (Some "true") (Some "sub")
     (JObj [("sub", JStr "user2")]) {[ Sample.tUser1 := 1000 ]}).1
  = (Returned false,
     reject "JWT Token Error, claims check failed. Claims keys is sub, found JWT claim user1, request claims user2.").
Proof. vm_compute; reflexivity. Qed.

Example accepted_claims_check :
  (checkToken 1500 Sample.tUser1 emptyReason (Some "true") (Some "sub")
     (JObj [("sub", JStr "user1")]) {[ Sample.tUser1 := 1000 ]}).1.1
  = Returned true.
Proof. vm_compute; reflexivity. Qed.

Lemma sliding_expiry_witness :
  (accesses [1900; 2800; 3700; 4600] Sample.t1000 None None (JObj []) live1000).1
    = [Returned true; Returned true; Returned true; Returned true] ∧
  (accesses [4700; 4800] Sample.t1000 None None (JObj [])
     (<[Sample.t1000 := 3600]> live1000)).1
    = [Returned false; Returned false] ∧
  (checkSecurity 1500
     (mkEntry {[ "needsToken" := "true" ]} "?needsToken=true" "/srv/apis/ping.js")
     (JObj []) {[ "authorization" := "Bearer " +:+ Sample.t1000 ]} emptyReason
     live1000).2 !! Sample.t1000 = Some 1500.
Proof.
  destruct (sliding_expiry Sample.t1000 None None (JObj []) 1000)
    as (Hrefresh & Hkeep & Hgap).
  split; [|split].
  - refine (proj1 (Hkeep t1000_numericExpiry t1000_authorized
                     [1900; 2800; 3700; 4600] live1000 1000 _ _ _)).
    + vm_compute; reflexivity.
    + lia.
    + simpl. lia.
  - destruct (Hgap t1000_numericExpiry (<[Sample.t1000 := 3600]> live1000)
                3600 4700 emptyReason) as [_ Hlater].
    + apply lookup_insert_eq.
    + lia.
    + lia.
    + rewrite (Hlater [4700; 4800]); [reflexivity|].
      repeat constructor; lia.
  - refine (proj2 (Hrefresh 1500 live1000 _ (by_checkSecurity _ _ _ _ _ _ _ _ _) _)).
    + split; vm_compute; reflexivity.
    + exists ("Bearer " +:+ Sample.t1000), "Bearer".
      repeat split; try (vm_compute; reflexivity). discriminate.
    + vm_compute; reflexivity.
Defined.

End TokenExamples.

Module GcExamples.
Import JwtTokenManager TokenSpec TokenProps.
#[local] Existing Instance Sample.platform.

(** C9 on the code: a token whose [lastAccess] is
    [now - expiryInterval - 1] is evicted by the sweep and the listener
    is called once, but with the event name "token_expireed", which is
    not "token_expired". *)
Theorem sweep_fires_misspelt_event :
  _cleanTokens 5000 [7%nat] {[ Sample.t1000 := 3999 ]}
    = (Returned tt, ∅, [(7%nat, "token_expireed", Sample.t1000)]) ∧
  "token_expireed" ≠ "token_expired".
Proof. split; [vm_compute; reflexivity | discriminate]. Qed.

(** Tokens whose claims do not parse are left alone, and so are tokens
    that are not old enough. *)
Example sweep_keeps_the_rest :
  _cleanTokens 5000 [7%nat; 8%nat]
    {[ Sample.t1000 := 3999; "no-dots" := 1; Sample.tUser1 := 4500 ]}
  = (Returned tt, {[ "no-dots" := 1; Sample.tUser1 := 4500 ]},
     [(7%nat, "token_expireed", Sample.t1000);
      (8%nat, "token_expireed", Sample.t1000)]).
Proof. vm_compute; reflexivity. Qed.

End GcExamples.

Module IssueExamples.
Import JwtTokenManager TokenSpec TokenProps Fixtures.
#[local] Existing Instance Sample.platform.

(** C2 as stated fails: on this call the string handed to the HMAC is
    [claims.header], which is not [header.claims], and the signature
    segment of the token is the HMAC-SHA256 of the former, not of the
    latter, under the key of the call. *)
Lemma signature_not_over_header_then_claims :
  ∃ claimB64 sig64 key,
    split_on "." issued = [BASE_64_HEADER; claimB64; sig64] ∧
    key = hex (string_of_list_ascii (map (tape g0) (seq 16 32))) ∧
    tokenClaimHeader claimB64 ≠ headerThenClaims claimB64 ∧
    sig64 = "16402a8c7d3594ce9ceaaff6b35c9edd62dfd1d9e4e92fe4d8d56b2f442067a6" ∧
    hex (hmac_sha256 key (tokenClaimHeader claimB64)) = sig64 ∧
    hex (hmac_sha256 key (headerThenClaims claimB64))
      = "ebe95fd9df3bc44f43e428a912eaa1b38b9fdb21ee4b4c7d2173b9da6bb362b6" ∧
    sig64 ≠ hex (hmac_sha256 key (headerThenClaims claimB64)).
Proof.
  eexists _, _, _. split; [apply three_segments|].
  split; [reflexivity|].
  split; [vm_compute; discriminate|].
  split; [vm_compute; reflexivity|].
  split; [reflexivity|].
  split; [vm_compute; reflexivity|].
  vm_compute; discriminate.
Qed.

Example issued_token_is_live :
  (createSignedJWTToken 1700000000000 conf0 [("sub", JStr "user1")] g0 ∅).2
    !! issued = Some 1700000000000.
Proof. apply lookup_insert_eq. Qed.

End IssueExamples.

(** * Properties of the API registry *)

Module RegistryProps.
Import ApiRegistry RegistrySpec.

Lemma inherited_spec (name : string) :
  inherited name = true ↔ name ∈ Object_prototype_names.
Proof.
  unfold inherited. rewrite List.existsb_exists, list_elem_of_In. split.
  - intros (x & Hx & ->%String.eqb_eq). exact Hx.
  - intros Hx. exists name. split; [exact Hx | apply String.eqb_refl].
Qed.

Section WithPlatform.
Context `{Platform} {World : Type}.

#[local] Abbreviation Chain := (list (Slot (World := World))).

(** The list of calls made so far is only ever extended. *)
Lemma runCheckers_invoked (chain : Chain) e ep req headers r :
  ∀ h w invoked,
    runCheckers chain e ep req headers r h w invoked =
    let '(res, h', w', inv) := runCheckers chain e ep req headers r h w [] in
    (res, h', w', (invoked ++ inv)%list).
Proof.
  induction chain as [|[c| |] chain IH]; intros h w invoked; cbn [runCheckers].
  - by rewrite app_nil_r.
  - destruct (check c e ep req headers r h w) as [[[[|]|] h1] w1]; cbn [app].
    + rewrite (IH h1 w1 (invoked ++ [c])%list), (IH h1 w1 [c]).
      destruct (runCheckers chain e ep req headers r h1 w1 [])
        as [[[res h'] w'] inv]. by rewrite <- app_assoc.
    + by destruct (h1 !! r).
    + done.
  - by rewrite app_nil_r.
  - apply IH.
Qed.

(** The rest of a chain runs when the front of it has said yes, from the
    state the front has left; otherwise the outcome is the one of the
    front. *)
Lemma runCheckers_app (pre rest : Chain) e ep req headers r :
  ∀ h w invoked,
    runCheckers (pre ++ rest) e ep req headers r h w invoked =
    match runCheckers pre e ep req headers r h w invoked with
    | (Returned true, h', w', inv) =>
        runCheckers rest e ep req headers r h' w' inv
    | other => other
    end.
Proof.
  induction pre as [|[c| |] pre IH]; intros h w invoked;
    cbn [app runCheckers].
  - reflexivity.
  - destruct (check c e ep req headers r h w) as [[[[|]|] h1] w1].
    + apply IH.
    + by destruct (h1 !! r).
    + reflexivity.
  - reflexivity.
  - apply IH.
Qed.

(** An [undefined] slot changes nothing. *)
Lemma runCheckers_defined (chain : Chain) e ep req headers r :
  NotAModule ∉ chain →
  ∀ h w invoked,
    runCheckers chain e ep req headers r h w invoked =
    runCheckers (map Module (defined chain)) e ep req headers r h w invoked.
Proof.
  induction chain as [|[c| |] chain IH]; intros Hno h w invoked;
    cbn [runCheckers].
  - done.
  - change (defined (Module c :: chain)) with (c :: defined chain).
    cbn [map runCheckers].
    destruct (check c e ep req headers r h w) as [[[[|]|] h1] w1]; [|done..].
    apply IH. intros Hin. apply Hno, elem_of_cons. by right.
  - exfalso. apply Hno, elem_of_cons. by left.
  - apply IH. intros Hin. apply Hno, elem_of_cons. by right.
Qed.

(** A prefix that passes hands its state to the rest of the chain. *)
Lemma runCheckers_passes (pre : Chain) e ep req headers r s s' :
  passes e ep req headers r pre s s' →
  ∀ rest invoked,
    runCheckers (pre ++ rest) e ep req headers r s.1 s.2 invoked =
    runCheckers rest e ep req headers r s'.1 s'.2 (invoked ++ defined pre)%list.
Proof.
  induction 1 as [s | chain s s' _ IH | c chain h w h1 w1 s' Hc _ IH];
    intros rest invoked.
  - by rewrite app_nil_r.
  - apply IH.
  - cbn [app runCheckers fst snd]. rewrite Hc.
    specialize (IH rest (invoked ++ [c])%list). cbn [fst snd] in IH.
    rewrite IH.
    change (defined (Module c :: chain)) with ([c] ++ defined chain)%list.
    by rewrite app_assoc.
Qed.

Lemma runCheckers_after (pre : Chain) e ep req headers r h w s' :
  passes e ep req headers r pre (h, w) s' →
  ∀ rest invoked,
    runCheckers (pre ++ rest) e ep req headers r h w invoked =
    runCheckers rest e ep req headers r s'.1 s'.2 (invoked ++ defined pre)%list.
Proof. intros Hp rest invoked. exact (runCheckers_passes _ _ _ _ _ _ _ _ Hp rest invoked). Qed.

Lemma runCheckers_true_inv (chain : Chain) e ep req headers r :
  ∀ h w invoked h' w' inv,
    runCheckers chain e ep req headers r h w invoked = (Returned true, h', w', inv) →
    passes e ep req headers r chain (h, w) (h', w') ∧
    inv = (invoked ++ defined chain)%list.
Proof.
  induction chain as [|[c| |] chain IH]; intros h w invoked h' w' inv;
    cbn [runCheckers].
  - intros [= <- <- <-]. split; [constructor | by rewrite app_nil_r].
  - destruct (check c e ep req headers r h w) as [[[[|]|] h1] w1] eqn:Hc.
    + intros [Hp ->]%IH. split; [by econstructor|].
      change (defined (Module c :: chain)) with ([c] ++ defined chain)%list.
      by rewrite app_assoc.
    + by destruct (h1 !! r).
    + done.
  - done.
  - intros [Hp ->]%IH. split; [by constructor | done].
Qed.

Lemma runCheckers_false_inv (chain : Chain) e ep req headers r :
  ∀ h w invoked h' w' inv,
    runCheckers chain e ep req headers r h w invoked = (Returned false, h', w', inv) →
    ∃ pre c post s1 h2 o,
      chain = (pre ++ Module c :: post)%list ∧
      passes e ep req headers r pre (h, w) s1 ∧
      check c e ep req headers r s1.1 s1.2 = (Returned false, h2, w') ∧
      h2 !! r = Some o ∧
      h' = <[r := failedOn o c]> h2 ∧
      inv = (invoked ++ defined pre ++ [c])%list.
Proof.
  induction chain as [|[c| |] chain IH]; intros h w invoked h' w' inv;
    cbn [runCheckers].
  - done.
  - destruct (check c e ep req headers r h w) as [[[[|]|] h1] w1] eqn:Hc.
    + intros (pre & c' & post & s1 & h2 & o & -> & Hp & Hc' & Ho & -> & ->)%IH.
      exists (Module c :: pre), c', post, s1, h2, o.
      repeat split; try done; [by econstructor|].
      change (defined (Module c :: pre)) with ([c] ++ defined pre)%list.
      by rewrite <- !app_assoc.
    + destruct (h1 !! r) as [o|] eqn:Ho; [|done].
      intros [= <- <- <-].
      exists [], c, chain, (h, w), h1, o.
      repeat split; try done; constructor.
    + done.
  - done.
  - intros (pre & c' & post & s1 & h2 & o & -> & Hp & Hc' & Ho & -> & ->)%IH.
    exists (Undefined :: pre), c', post, s1, h2, o.
    repeat split; try done. by constructor.
Qed.

(** The modules of a chain are called in the order of the chain and
    none is left out: whatever the outcome, the list of the modules
    called and the modules at the front of the chain are one the
    beginning of the other. *)
Lemma runCheckers_front (front : list (Checker (World := World))) (rest : Chain)
  e ep req headers r :
  ∀ h w res h' w' inv,
    runCheckers (map Module front ++ rest) e ep req headers r h w []
      = (res, h', w', inv) →
    inv `prefix_of` front ∨ front `prefix_of` inv.
Proof.
  induction front as [|c front IH]; intros h w res h' w' inv.
  - intros _. right. apply prefix_nil.
  - cbn [map app runCheckers].
    destruct (check c e ep req headers r h w) as [[[[|]|] h1] w1].
    + rewrite runCheckers_invoked.
      destruct (runCheckers (map Module front ++ rest) e ep req headers r h1 w1 [])
        as [[[res1 h2] w2] inv1] eqn:Hrun.
      intros [= <- <- <- <-].
      destruct (IH _ _ _ _ _ _ Hrun) as [Hp | Hp].
      * left. by apply prefix_cons.
      * right. by apply prefix_cons.
    + destruct (h1 !! r); intros [= <- <- <- <-]; left;
        apply prefix_cons, prefix_nil.
    + intros [= <- <- <- <-]. left. apply prefix_cons, prefix_nil.
Qed.

(** The loop of [checkSecurity] on a registered end point. When a
    module says no after those before it said yes, [checkSecurity]
    returns [false], the reason object carries what the module wrote
    followed by the name the module is tagged with, and the modules
    called are those before it and itself, none after it. A [false]
    result always comes about that way, and the result is [true] exactly
    when every module of the chain, core and custom, says yes. *)
Lemma security_chain_short_circuit reg url e req headers r (h : Heap) (w : World) :
  lookupEntry reg url = Some e →
  let apiregentry := _getAPIRegEntryAsURL e in
  let chain := allSecurityCheckers reg apiregentry in
  let ep := URL_pathname url in
  (∀ pre c post s1 h2 w2 o,
     chain = (pre ++ Module c :: post)%list →
     passes apiregentry ep req headers r pre (h, w) s1 →
     check c apiregentry ep req headers r s1.1 s1.2 = (Returned false, h2, w2) →
     h2 !! r = Some o →
     checkSecurity reg url req headers r h w
       = (Returned false, <[r := failedOn o c]> h2, w2, (defined pre ++ [c])%list)) ∧
  (∀ h' w' inv,
     checkSecurity reg url req headers r h w = (Returned false, h', w', inv) →
     ∃ pre c post s1 h2 o,
       chain = (pre ++ Module c :: post)%list ∧
       passes apiregentry ep req headers r pre (h, w) s1 ∧
       check c apiregentry ep req headers r s1.1 s1.2 = (Returned false, h2, w') ∧
       h2 !! r = Some o ∧
       h' = <[r := failedOn o c]> h2 ∧
       inv = (defined pre ++ [c])%list) ∧
  (∀ h' w' inv,
     checkSecurity reg url req headers r h w = (Returned true, h', w', inv) ↔
     passes apiregentry ep req headers r chain (h, w) (h', w') ∧
     inv = defined chain).
Proof.
  intros He apiregentry chain ep.
  assert (Hcs : checkSecurity reg url req headers r h w
                = runCheckers chain apiregentry ep req headers r h w [])
    by (unfold checkSecurity; by rewrite He).
  rewrite Hcs. split; [|split].
  - intros pre c post s1 h2 w2 o -> Hp Hc Ho.
    rewrite (runCheckers_after _ _ _ _ _ _ _ _ _ Hp (Module c :: post) []).
    cbn [runCheckers]. rewrite Hc, Ho. reflexivity.
  - intros h' w' inv Hrun. by apply runCheckers_false_inv in Hrun.
  - intros h' w' inv. split.
    + intros Hrun. by apply runCheckers_true_inv in Hrun.
    + intros [Hp ->].
      pose proof (runCheckers_after _ _ _ _ _ _ _ _ _ Hp [] []) as Hrun.
      rewrite app_nil_r in Hrun. exact Hrun.
Qed.

(** The slot of a name that has a module, and of a name that is
    unknown. *)
Lemma member_own (obj : ModuleMap (World := World)) name c :
  own obj !! name = Some c → member obj name = Module c.
Proof. intros Ho. unfold member. by rewrite Ho. Qed.

Lemma member_unknown (obj : ModuleMap (World := World)) name :
  unknownName obj name → member obj name = Undefined.
Proof.
  intros (Ho & Hp & Hn). unfold member. rewrite Ho, Hp.
  destruct (inherited name) eqn:Hi; [|done].
  by apply inherited_spec in Hi.
Qed.

(** A name that no module is registered under and that the object
    inherits from [Object.prototype]. *)
Lemma member_inherited (obj : ModuleMap (World := World)) name :
  own obj !! name = None → proto obj = None → name ∈ Object_prototype_names →
  member obj name = NotAModule.
Proof.
  intros Ho Hp Hn. unfold member. rewrite Ho, Hp.
  by apply inherited_spec in Hn as ->.
Qed.

(** The slots of the names of a directive, once the names without
    module that are unknown are stepped over. *)
Lemma slots_of_names (obj : ModuleMap (World := World)) (names : list string) :
  (∀ name, name ∈ names → is_Some (own obj !! name) ∨ unknownName obj name) →
  (NotAModule ∉ map (member obj) names) ∧
  defined (map (member obj) names) = registeredUnder obj names.
Proof.
  induction names as [|n names IH]; intros Hn.
  - split; [by intros ?%elem_of_nil | done].
  - destruct IH as [IH1 IH2].
    { intros name Hin. apply Hn, elem_of_cons. by right. }
    unfold defined, registeredUnder in *. cbn [map].
    destruct (Hn n) as [[c Hc] | Hu]; [apply elem_of_cons; by left | |].
    + rewrite (member_own _ _ _ Hc). cbn. rewrite Hc. cbn.
      split; [|by rewrite IH2].
      intros [?|?]%elem_of_cons; [done | by apply IH1].
    + rewrite (member_unknown _ _ Hu). destruct Hu as [Ho _]. cbn.
      rewrite Ho. cbn. split; [|exact IH2].
      intros [?|?]%elem_of_cons; [done | by apply IH1].
Qed.

Lemma defined_modules (l : list (Checker (World := World))) :
  defined (map Module l) = l.
Proof.
  unfold defined. induction l as [|c l IH]; [done|]. cbn. by rewrite IH.
Qed.

Lemma NotAModule_modules (l : list (Checker (World := World))) :
  NotAModule ∉ map Module l.
Proof.
  induction l as [|c l IH]; [by intros ?%elem_of_nil|].
  cbn [map]. by intros [?|?]%elem_of_cons.
Qed.

(** C3, amended: on a registered end point whose [customSecurity]
    directive names checkers, a name under which no module is registered
    is stepped over, provided it is not a name the map inherits as a
    plain object: [checkSecurity] neither throws nor fails on its
    account, its result is the one of the chain of the modules that are
    registered, the core ones and then those registered under names of
    the directive, and it is [true] exactly when every one of those says
    yes. When none of the names is registered, that is the core chain,
    and with an empty core chain the request passes. *)
Theorem missing_custom_checker_is_skipped reg url e names req headers r
  (h : Heap) (w : World) :
  lookupEntry reg url = Some e →
  let apiregentry := _getAPIRegEntryAsURL e in
  let ep := URL_pathname url in
  let custom := CUSTOM_SECURITY_CHECKERS reg in
  let registered :=
    (securitycheckers reg ++ registeredUnder custom (escapedSplit names ","))%list in
  query apiregentry !! "customSecurity" = Some names → names ≠ "" →
  (∀ name, name ∈ escapedSplit names "," →
           is_Some (own custom !! name) ∨ unknownName custom name) →
  checkSecurity reg url req headers r h w =
    runCheckers (map Module registered) apiregentry ep req headers r h w [] ∧
  (∀ h' w' inv,
     checkSecurity reg url req headers r h w = (Returned true, h', w', inv) ↔
     passes apiregentry ep req headers r (map Module registered) (h, w) (h', w') ∧
     inv = registered) ∧
  ((∀ name, name ∈ escapedSplit names "," → unknownName custom name) →
   checkSecurity reg url req headers r h w =
     runCheckers (map Module (securitycheckers reg)) apiregentry ep req headers
       r h w [] ∧
   (securitycheckers reg = [] →
    checkSecurity reg url req headers r h w = (Returned true, h, w, []))).
Proof.
  intros He apiregentry ep custom registered Hq Hne Hnames.
  destruct (slots_of_names custom (escapedSplit names ",") Hnames) as [Hno Hdef].
  assert (Hcs : checkSecurity reg url req headers r h w
                = runCheckers (map Module registered) apiregentry ep req headers
                    r h w []).
  { unfold checkSecurity. rewrite He. fold apiregentry ep.
    unfold allSecurityCheckers. fold custom. rewrite Hq.
    destruct (String.eqb_spec names ""); [done|].
    rewrite runCheckers_defined.
    - unfold registered, defined. rewrite omap_app.
      fold (defined (map Module (securitycheckers reg))).
      fold (defined (map (member custom) (escapedSplit names ","))).
      by rewrite defined_modules, Hdef.
    - intros [Hin|Hin]%elem_of_app; [by apply NotAModule_modules in Hin | done]. }
  split; [exact Hcs|]. split.
  - intros h' w' inv. rewrite Hcs. split.
    + intros [Hp ->]%runCheckers_true_inv. by rewrite defined_modules.
    + intros [Hp ->].
      pose proof (runCheckers_after _ _ _ _ _ _ _ _ _ Hp [] []) as Hrun.
      rewrite app_nil_r, defined_modules in Hrun. exact Hrun.
  - intros Hmiss.
    assert (Hnone : registeredUnder custom (escapedSplit names ",") = []).
    { clear -Hmiss. unfold registeredUnder.
      induction (escapedSplit names ",") as [|n l IH]; [done|]. cbn.
      destruct (Hmiss n) as [-> _]; [apply elem_of_cons; by left|]. cbn.
      apply IH. intros name Hin. apply Hmiss, elem_of_cons. by right. }
    rewrite Hcs. unfold registered. rewrite Hnone, app_nil_r.
    split; [done|]. by intros ->.
Qed.

(** A name without module that the map inherits from [Object.prototype]
    is no [undefined] slot: once the core chain has said yes, the call
    through it throws. *)
Lemma inherited_name_throws reg url e name req headers r (h : Heap) (w : World) :
  lookupEntry reg url = Some e →
  let apiregentry := _getAPIRegEntryAsURL e in
  let ep := URL_pathname url in
  let custom := CUSTOM_SECURITY_CHECKERS reg in
  query apiregentry !! "customSecurity" = Some name → name ≠ "" →
  escapedSplit name "," = [name] →
  own custom !! name = None → proto custom = None →
  name ∈ Object_prototype_names →
  checkSecurity reg url req headers r h w =
    match runCheckers (map Module (securitycheckers reg)) apiregentry ep req
            headers r h w [] with
    | (Returned true, h', w', inv) => (Thrown, h', w', inv)
    | other => other
    end.
Proof.
  intros He apiregentry ep custom Hq Hne Hsplit Ho Hp Hn.
  unfold checkSecurity. rewrite He. fold apiregentry ep.
  unfold allSecurityCheckers. fold custom. rewrite Hq, Hsplit.
  destruct (String.eqb_spec name ""); [done|]. cbn [map].
  rewrite (member_inherited _ _ Ho Hp Hn), runCheckers_app.
  destruct (runCheckers (map Module (securitycheckers reg)) apiregentry ep req
              headers r h w []) as [[[[[|]|] h'] w'] inv]; reflexivity.
Qed.

(** An unregistered end point: the decoder and the encoder return
    [false], the header managers are not run, and [checkSecurity]
    returns [false] after it has made a new reason object, with no
    checker called; every object that was in the store, the caller's
    reason object among them, is as it was. *)
Lemma unregistered_endpoint reg url data req headers reqHeaders respHeaders
  response r (h : Heap) (w : World) :
  lookupEntry reg url = None →
  decodeIncomingData reg url data headers w = (JBool false, w) ∧
  encodeResponse reg url response reqHeaders respHeaders w = (JBool false, w) ∧
  injectResponseHeaders reg url response reqHeaders respHeaders w
    = (respHeaders, w) ∧
  ∃ h',
    checkSecurity reg url req headers r h w = (Returned false, h', w, []) ∧
    h' = <[fresh (dom h) := {| reason := Some "API endpoint missing";
                               code := Some 403 |}]> h ∧
    ∀ l, is_Some (h !! l) → h' !! l = h !! l.
Proof.
  intros He.
  unfold decodeIncomingData, encodeResponse, injectResponseHeaders, checkSecurity.
  rewrite He. repeat split.
  eexists. split; [reflexivity|]. split; [reflexivity|].
  intros l Hl. apply lookup_insert_ne. intros <-.
  apply elem_of_dom in Hl. by apply is_fresh in Hl.
Qed.

(** A URL whose path is not a key of the table has no entry. *)
Lemma lookupEntry_unregistered (reg : Registry (World := World)) url :
  apireg reg !! URL_pathname url = None → lookupEntry reg url = None.
Proof. intros Hm. unfold lookupEntry. by rewrite Hm. Qed.

(** *** Run-time changes of the table *)

Lemma listAPIs_spec (reg : Registry (World := World)) path :
  path ∈ listAPIs reg ↔ is_Some (apireg reg !! path).
Proof.
  unfold listAPIs. rewrite list_elem_of_fmap. split.
  - intros ([k v] & -> & Hkv). apply elem_of_map_to_list in Hkv. by exists v.
  - intros [v Hv]. exists (path, v). split; [done|]. by apply elem_of_map_to_list.
Qed.

(** C6 on the code: called with an application name, [addAPI] and
    [deleteAPI] throw at [app.getApps()], a method call on the name,
    before they touch the table or the file: the table and the disk are
    as they were. *)
Theorem addAPI_deleteAPI_throw_on_app_name API_REGISTRY path apiregentry name
  (reg : Registry (World := World)) (disk : Disk) :
  addAPI API_REGISTRY path apiregentry (ArgValue (JStr name)) reg disk
    = (Thrown, reg, disk) ∧
  deleteAPI API_REGISTRY path (ArgValue (JStr name)) reg disk
    = (Thrown, reg, disk).
Proof. split; reflexivity. Qed.

(** With an argument that does have [getApps], and a registry file on
    disk, the two functions complete and do what C6 says. *)
Lemma addAPI_with_getApps API_REGISTRY path apiregentry appRoots
  (reg : Registry (World := World)) (disk : Disk) regFileObj url :
  disk !! API_REGISTRY = Some regFileObj →
  URL_pathname url = path → apiregentry ≠ "" →
  ∃ reg' disk',
    addAPI API_REGISTRY path apiregentry (ArgWithGetApps appRoots) reg disk
      = (Returned tt, reg', disk') ∧
    getAPI reg' url
      = Some (path_resolve (rawpathname (_getAPIRegEntryAsURL apiregentry))) ∧
    path ∈ listAPIs reg' ∧
    disk' !! API_REGISTRY = Some (<[path := apiregentry]> regFileObj).
Proof.
  intros Hd Hu Hne. unfold addAPI. simpl. rewrite Hd.
  eexists _, _. split; [reflexivity|]. split; [|split].
  - unfold getAPI, lookupEntry. simpl. rewrite Hu, lookup_insert_eq.
    by destruct (String.eqb_spec apiregentry "").
  - apply listAPIs_spec. simpl. rewrite lookup_insert_eq. by eexists.
  - apply lookup_insert_eq.
Qed.

Lemma deleteAPI_with_getApps API_REGISTRY path appRoots
  (reg : Registry (World := World)) (disk : Disk) regFileObj url :
  disk !! API_REGISTRY = Some regFileObj →
  URL_pathname url = path → apireg reg !! path ≠ Some "" →
  ∃ reg' disk',
    deleteAPI API_REGISTRY path (ArgWithGetApps appRoots) reg disk
      = (Returned tt, reg', disk') ∧
    getAPI reg' url = None ∧
    path ∉ listAPIs reg'.
Proof.
  intros Hd Hu Hne. unfold deleteAPI. simpl. rewrite Hd.
  eexists _, _. split; [reflexivity|].
  destruct (apireg reg !! path) as [e|] eqn:He; simpl.
  - destruct (String.eqb_spec e "") as [->|_]; [done|]. simpl. split.
    + unfold getAPI, lookupEntry. simpl. by rewrite Hu, lookup_delete_eq.
    + rewrite listAPIs_spec. simpl. rewrite lookup_delete_eq. by intros [? ?].
  - split.
    + unfold getAPI, lookupEntry. by rewrite Hu, He.
    + rewrite listAPIs_spec, He. by intros [? ?].
Qed.

End WithPlatform.
End RegistryProps.

(** ** The registry on concrete requests *)

Module RegistryExamples.
Import ApiRegistry RegistrySpec RegistryProps Fixtures.
#[local] Existing Instance Sample.platform.

Lemma security_chain_short_circuit_on_three :
  checkSecurity (registryOf pingTable [checkerA; checkerB; checkerC] ∅) pingURL
    (JObj []) ∅ 0%nat callerHeap []
  = (Returned false,
     <[0%nat := failedOn deniedByB checkerB]> (<[0%nat := deniedByB]> callerHeap),
     ["a"; "b"], [checkerA; checkerB]) ∧
  checkSecurity (registryOf pingTable [checkerA; checkerC] ∅) pingURL
    (JObj []) ∅ 0%nat callerHeap []
  = (Returned true, callerHeap, ["a"; "c"], [checkerA; checkerC]).
Proof.
  split.
  - refine (proj1 (security_chain_short_circuit
                     (registryOf pingTable [checkerA; checkerB; checkerC] ∅)
                     pingURL "/srv/apis/ping.js" (JObj []) ∅ 0%nat callerHeap [] _)
              [Module checkerA] checkerB [Module checkerC] (callerHeap, ["a"])
              (<[0%nat := deniedByB]> callerHeap) ["a"; "b"] deniedByB _ _ _ _).
    + vm_compute; reflexivity.
    + reflexivity.
    + eapply passes_checker; [reflexivity | apply passes_nil].
    + reflexivity.
    + apply lookup_insert_eq.
  - refine (proj2 (proj2 (proj2 (security_chain_short_circuit
                     (registryOf pingTable [checkerA; checkerC] ∅)
                     pingURL "/srv/apis/ping.js" (JObj []) ∅ 0%nat callerHeap [] _))
              callerHeap ["a"; "c"] [checkerA; checkerC]) _).
    + vm_compute; reflexivity.
    + split; [|reflexivity].
      eapply passes_checker; [reflexivity|].
      eapply passes_checker; [reflexivity|]. apply passes_nil.
Defined.

(** C3 as stated fails: the entry names the custom checker [ghost], no
    module is registered under that name, and the request passes. *)
Lemma missing_custom_checker_passes :
  let reg := registryOf pingTable [] ∅ in
  getAPIConf reg guardedURL = Some {[ "customSecurity" := "ghost" ]} ∧
  own (CUSTOM_SECURITY_CHECKERS reg) !! "ghost" = None ∧
  checkSecurity reg guardedURL (JObj []) ∅ 0%nat callerHeap []
    = (Returned true, callerHeap, [], []).
Proof. repeat split; vm_compute; reflexivity. Qed.

Lemma missing_custom_checker_is_skipped_witness :
  lookupEntry (registryOf pingTable [] ∅) guardedURL
    = Some "/srv/apis/guarded.js?customSecurity=ghost" ∧
  checkSecurity (registryOf pingTable [] ∅) guardedURL (JObj []) ∅ 0%nat
    callerHeap []
  = (Returned true, callerHeap, [], []).
Proof.
  assert (He : lookupEntry (registryOf pingTable [] ∅) guardedURL
               = Some "/srv/apis/guarded.js?customSecurity=ghost")
    by (vm_compute; reflexivity).
  assert (Hu : ∀ name, name ∈ Sample.escapedSplit "ghost" "," →
                 unknownName (CUSTOM_SECURITY_CHECKERS (registryOf pingTable [] ∅))
                   name).
  { intros name Hin. apply list_elem_of_In in Hin. vm_compute in Hin.
    destruct Hin as [<- | []]. repeat split.
    rewrite list_elem_of_In. vm_compute. intuition discriminate. }
  split; [exact He|].
  refine (proj2 (proj2 (proj2 (missing_custom_checker_is_skipped
                   (registryOf pingTable [] ∅) guardedURL _ "ghost" (JObj []) ∅
                   0%nat callerHeap [] He _ _ _)) Hu) _).
  - vm_compute; reflexivity.
  - discriminate.
  - intros name Hin. right. by apply Hu.
  - reflexivity.
Defined.

(** The name [constructor] has no module either, but the map, a plain
    object, inherits a function under it: the call through it throws. *)
Example inherited_name_is_not_skipped :
  let reg := registryOf oddTable [checkerA] ∅ in
  own (CUSTOM_SECURITY_CHECKERS reg) !! "constructor" = None ∧
  checkSecurity reg oddURL (JObj []) ∅ 0%nat callerHeap []
    = (Thrown, callerHeap, ["a"], [checkerA]).
Proof. split; vm_compute; reflexivity. Qed.

(** Registering a module under [__proto__] makes it the prototype of
    the map: the module is found under that name, and its members with
    it; the map has no own property, and removing the name changes
    nothing. *)
Example registering_under_proto :
  let obj := assign "__proto__" checkerB emptyObject in
  own obj = ∅ ∧
  member obj "__proto__" = Module checkerB ∧
  member obj "checkSecurity" = NotAModule ∧
  member obj "toString" = NotAModule ∧
  member obj "ghost" = Undefined ∧
  remove "__proto__" obj = obj.
Proof. repeat split; vm_compute; reflexivity. Qed.

(** C5 on the code: a custom checker, registered with
    [addCustomSecurityChecker], says no after the core checker said yes.
    [checkSecurity] returns [false] and has called the core checker and
    then the custom one, but the text it appends to the reason is
    "undefined" and not a name of the module: the name is the tag of the
    loader, and a custom checker does not go through the loader. For a
    core checker that says no, the name of its file is appended. *)
Theorem custom_checker_rejection_is_not_named :
  let reg := addCustomSecurityChecker "ghost" ghostModule
               (registryOf pingTable [checkerA] ∅) in
  let res := checkSecurity reg guardedURL (JObj []) ∅ 0%nat callerHeap [] in
  let core := checkSecurity (registryOf pingTable [checkerA; checkerB] ∅)
                guardedURL (JObj []) ∅ 0%nat callerHeap [] in
  res.1.1.1 = Returned false ∧
  res.2 = [checkerA; ghostModule] ∧
  res.1.2 = ["a"; "ghost"] ∧
  res.1.1.2 !! 0%nat
    = Some {| reason := Some "denied ---- Failed on: undefined";
              code := Some 403 |} ∧
  core.1.1.2 !! 0%nat
    = Some {| reason := Some "denied ---- Failed on: b.js"; code := Some 403 |}.
Proof. repeat split; vm_compute; reflexivity. Qed.

(** With the checker registered under the name, it does run. *)
Example registered_custom_checker_runs :
  (checkSecurity (registryOf pingTable [checkerA] {[ "ghost" := checkerB ]})
     guardedURL (JObj []) ∅ 0%nat callerHeap []).1.2 = ["a"; "b"].
Proof. vm_compute; reflexivity. Qed.

(** C4 on the code: for a URL without entry the decoder and the encoder
    return [false], the response headers are untouched and
    [checkSecurity] returns [false]; but the reason object of the caller
    is still empty, it does not hold "API endpoint missing" and 403: the
    function assigns a new object to its parameter. *)
Theorem unregistered_endpoint_leaves_reason_empty :
  let reg := registryOf pingTable [checkerA] ∅ in
  let res := checkSecurity reg nowhereURL (JObj []) ∅ 0%nat callerHeap [] in
  decodeIncomingData reg nowhereURL (JStr "payload") ∅ [] = (JBool false, []) ∧
  encodeResponse reg nowhereURL (JStr "payload") ∅ ∅ [] = (JBool false, []) ∧
  injectResponseHeaders reg nowhereURL (JStr "payload") ∅ {[ "x" := "y" ]} []
    = ({[ "x" := "y" ]}, []) ∧
  res.1.1.1 = Returned false ∧
  res.1.1.2 !! 0%nat = Some emptyReason ∧
  res.1.1.2 !! 0%nat
    ≠ Some {| reason := Some "API endpoint missing"; code := Some 403 |}.
Proof.
  intros reg res.
  assert (Hr : res.1.1.2 !! 0%nat = Some emptyReason) by (vm_compute; reflexivity).
  repeat split; try (vm_compute; reflexivity).
  rewrite Hr. discriminate.
Qed.

(** C6 on the code: [addAPI] called with the name of an application
    throws and the path is still not registered; [deleteAPI] throws and
    the path is still registered. *)
Example addAPI_registers_nothing :
  let reg := registryOf pingTable [] ∅ in
  let res := addAPI "/srv/conf/apiregistry.json" "/apis/new" "/srv/apis/new.js"
               (ArgValue (JStr "myapp")) reg
               {[ "/srv/conf/apiregistry.json" := pingTable ]} in
  res.1.1 = Thrown ∧
  getAPI res.1.2 "http://localhost:9090/apis/new" = None ∧
  listAPIs res.1.2 = ["/apis/guarded"; "/apis/ping"].
Proof. repeat split; vm_compute; reflexivity. Qed.

Example deleteAPI_removes_nothing :
  let reg := registryOf pingTable [] ∅ in
  let res := deleteAPI "/srv/conf/apiregistry.json" "/apis/ping"
               (ArgValue (JStr "myapp")) reg
               {[ "/srv/conf/apiregistry.json" := pingTable ]} in
  res.1.1 = Thrown ∧
  getAPI res.1.2 "http://localhost:9090/apis/ping" = Some "/srv/apis/ping.js" ∧
  listAPIs res.1.2 = ["/apis/guarded"; "/apis/ping"].
Proof. repeat split; vm_compute; reflexivity. Qed.

End RegistryExamples.

(** * Properties of the extension pipeline loader *)

Module LoaderProps.
Import ApiRegistry LoaderSpec.

Lemma byPriority_pos a b : Z.ltb 0 (byPriority a b) = Z.ltb (priority b) (priority a).
Proof.
  unfold byPriority.
  destruct (Z.ltb_spec (priority a) (priority b)),
           (Z.gtb_spec (priority a) (priority b)),
           (Z.ltb_spec (priority b) (priority a)); simpl; try reflexivity; lia.
Qed.

Lemma insertSorted_perm x (l : list ConfObject) :
  insertSorted byPriority x l ≡ₚ x :: l.
Proof.
  induction l as [|y l IH]; [done|]. simpl.
  destruct (Z.ltb 0 (byPriority x y)); [|done].
  rewrite IH. apply Permutation_swap.
Qed.

Lemma Array_sort_perm (l : list ConfObject) : Array_sort byPriority l ≡ₚ l.
Proof.
  induction l as [|x l IH]; [done|].
  unfold Array_sort in *. simpl. rewrite insertSorted_perm. by rewrite IH.
Qed.

Lemma insertSorted_sorted x (l : list ConfObject) :
  StronglySorted byPriorityLe l →
  StronglySorted byPriorityLe (insertSorted byPriority x l).
Proof.
  induction 1 as [|y l Hs IH Hy]; simpl.
  - repeat constructor.
  - rewrite byPriority_pos.
    destruct (Z.ltb_spec (priority y) (priority x)) as [Hlt|Hge].
    + constructor; [exact IH|].
      rewrite (insertSorted_perm x l). constructor; [unfold byPriorityLe; lia | done].
    + constructor; [by constructor|].
      constructor; [done|].
      eapply Forall_impl; [exact Hy|]. unfold byPriorityLe. simpl. intros; lia.
Qed.

Lemma Array_sort_sorted (l : list ConfObject) :
  StronglySorted byPriorityLe (Array_sort byPriority l).
Proof.
  induction l as [|x l IH]; [constructor|].
  unfold Array_sort in *. simpl. by apply insertSorted_sorted.
Qed.

(** Insertion moves the new entry past entries of strictly smaller
    priority only: among the entries of one priority, it stays first. *)
Lemma insertSorted_stable k x (l : list ConfObject) :
  ofPriority k (insertSorted byPriority x l) = ofPriority k (x :: l).
Proof.
  induction l as [|y l IH]; [done|]. simpl.
  rewrite byPriority_pos.
  destruct (Z.ltb_spec (priority y) (priority x)) as [Hlt|Hge]; [|done].
  unfold ofPriority in *. simpl in *. rewrite IH.
  destruct (Z.eqb_spec (priority x) k), (Z.eqb_spec (priority y) k);
    try reflexivity; lia.
Qed.

Lemma Array_sort_stable k (l : list ConfObject) :
  ofPriority k (Array_sort byPriority l) = ofPriority k l.
Proof.
  induction l as [|x l IH]; [done|].
  unfold Array_sort in *. simpl. rewrite insertSorted_stable.
  unfold ofPriority in *. simpl. by rewrite IH.
Qed.

Lemma ofPriority_app k (l1 l2 : list ConfObject) :
  ofPriority k (l1 ++ l2) = (ofPriority k l1 ++ ofPriority k l2)%list.
Proof. apply List.filter_app. Qed.

Lemma ofPriority_elem k c (l : list ConfObject) :
  c ∈ ofPriority k l ↔ c ∈ l ∧ priority c = k.
Proof.
  unfold ofPriority. rewrite !list_elem_of_In, List.filter_In.
  by rewrite Z.eqb_eq.
Qed.

(** Two ordered lists with the same entries of each priority, in the
    same order, are the same list: the result of a stable sort does not
    depend on the algorithm. *)
Lemma Array_sort_unique (l1 l2 : list ConfObject) :
  StronglySorted byPriorityLe l1 → StronglySorted byPriorityLe l2 →
  (∀ k, ofPriority k l1 = ofPriority k l2) →
  l1 = l2.
Proof.
  intros Hs1. revert l2.
  induction Hs1 as [|x l1 Hs1 IH Hx]; intros l2 Hs2 Heq.
  - destruct l2 as [|y l2]; [done|].
    specialize (Heq (priority y)). unfold ofPriority in Heq. simpl in Heq.
    rewrite Z.eqb_refl in Heq. discriminate.
  - destruct Hs2 as [|y l2 Hs2 Hy].
    + specialize (Heq (priority x)). unfold ofPriority in Heq. simpl in Heq.
      rewrite Z.eqb_refl in Heq. discriminate.
    + assert (Hxy : priority y <= priority x).
      { assert (Hin : x ∈ y :: l2).
        { apply (ofPriority_elem (priority x)). rewrite <- Heq.
          apply ofPriority_elem. split; [apply elem_of_cons; by left | done]. }
        apply elem_of_cons in Hin as [->|Hin]; [lia|].
        rewrite Forall_forall in Hy. by apply Hy. }
      assert (Hyx : priority x <= priority y).
      { assert (Hin : y ∈ x :: l1).
        { apply (ofPriority_elem (priority y)). rewrite Heq.
          apply ofPriority_elem. split; [apply elem_of_cons; by left | done]. }
        apply elem_of_cons in Hin as [->|Hin]; [lia|].
        rewrite Forall_forall in Hx. by apply Hx. }
      assert (Hhead : x = y).
      { specialize (Heq (priority x)). unfold ofPriority in Heq. simpl in Heq.
        rewrite Z.eqb_refl in Heq.
        destruct (Z.eqb_spec (priority y) (priority x)); [|lia].
        by injection Heq. }
      subst y. f_equal. apply IH; [done|].
      intros k. specialize (Heq k). unfold ofPriority in *. simpl in Heq.
      destruct (Z.eqb (priority x) k); [by injection Heq | done].
Qed.

Section WithPlatform.
Context `{Platform}.

(** The loader sorts what discovery finds. *)
Lemma arranged_sort (l : list ConfObject) : arranged (Array_sort byPriority l) l.
Proof.
  split; [apply Array_sort_sorted|]. split; [apply Array_sort_perm|].
  intros k. apply Array_sort_stable.
Qed.

Lemma arranged_unique (l1 l2 entries : list ConfObject) :
  arranged l1 entries → arranged l2 entries → l1 = l2.
Proof.
  intros (Hs1 & _ & Hk1) (Hs2 & _ & Hk2).
  apply Array_sort_unique; [done..|]. intros k. by rewrite Hk1, Hk2.
Qed.

Lemma discovered_discovery (existsSync : string → bool)
  (requireConf : string → list (string * Z)) (ROOTDIR : string)
  (paths : ConfPaths) (apps : list (string * string)) :
  discovered requireConf
    (pathAndRootsOf existsSync ROOTDIR (CONF_CORE_SERVER paths)
       (CONF_APPS paths) apps)
  = discovery existsSync requireConf ROOTDIR paths apps.
Proof.
  unfold discovered, discovery, pathAndRootsOf. cbn [map concat]. f_equal.
  induction apps as [|a apps IH]; [done|].
  cbn [map concat flat_map]. rewrite map_app, concat_app, IH. f_equal.
  destruct (existsSync _); [|done]. cbn. apply app_nil_r.
Qed.

(** Whatever list holds the discovered entries in ascending order of
    priority, ties in discovery order, the loader hands back the
    modules of that list. *)
Lemma loaded_arranged {M : Type} (existsSync : string → bool)
  (requireConf : string → list (string * Z)) (requireModule : string → M)
  (ROOTDIR : string) (paths : ConfPaths) (apps : list (string * string))
  (sorted : list ConfObject) :
  arranged sorted (discovery existsSync requireConf ROOTDIR paths apps) →
  _loadSortedConfOjbects requireConf requireModule
    (pathAndRootsOf existsSync ROOTDIR (CONF_CORE_SERVER paths)
       (CONF_APPS paths) apps)
  = map (fun c => (requireModule (module c), path_basename (module c))) sorted.
Proof.
  intros Ha. unfold _loadSortedConfOjbects, sortedConfObjects.
  rewrite discovered_discovery. f_equal.
  eapply arranged_unique; [apply arranged_sort | exact Ha].
Qed.

Lemma fold_left_modules {A B C : Type} (f : A → C → A) (g : B → C)
  (l : list B) (a : A) :
  fold_left f (map g l) a = fold_left (fun acc x => f acc (g x)) l a.
Proof. revert a. induction l as [|x l IH]; intros a; [done|]. apply IH. Qed.

(** C7: for each pipeline kind, the chain the loader hands back is the
    list of the modules of the discovered entries (those of the core
    configuration, then those of each application that has one, in
    catalog order), arranged so that priorities ascend and entries of
    equal priority keep the order in which they were discovered; and on
    every request to a registered end point the modules run in that
    order: the decoders, the encoders and the header managers one after
    the other, each on what the one before has left, and the security
    checkers from the first on, none left out, before any custom
    checker. *)
Theorem loaded_chain_sorted_and_stable {World : Type}
  (existsSync : string → bool) (requireConf : string → list (string * Z))
  (ROOTDIR : string)
  (DECODERS ENCODERS HEADERMANAGERS SECURITYCHECKERS : ConfPaths)
  (requireDecoder : string → Decoder (World := World))
  (requireEncoder : string → Encoder (World := World))
  (requireHeaderManager : string → HeaderManager (World := World))
  (requireChecker : string → Checker (World := World))
  (apps : list (string * string)) (reg : Registry (World := World)) :
  let found paths := discovery existsSync requireConf ROOTDIR paths apps in
  let loaded :=
    loadChains existsSync requireConf ROOTDIR DECODERS ENCODERS HEADERMANAGERS
      SECURITYCHECKERS requireDecoder requireEncoder requireHeaderManager
      requireChecker apps reg in
  (∀ (M : Type) (requireModule : string → M) paths,
     ∃ sorted,
       arranged sorted (found paths) ∧
       _loadSortedConfOjbects requireConf requireModule
         (pathAndRootsOf existsSync ROOTDIR (CONF_CORE_SERVER paths)
            (CONF_APPS paths) apps)
       = map (fun c => (requireModule (module c), path_basename (module c)))
           sorted) ∧
  ∀ ds es hs cs,
    arranged ds (found DECODERS) → arranged es (found ENCODERS) →
    arranged hs (found HEADERMANAGERS) → arranged cs (found SECURITYCHECKERS) →
    ∀ url e, lookupEntry reg url = Some e →
    let apiregentry := _getAPIRegEntryAsURL e in
    let endPoint := URL_pathname url in
    (∀ data headers w,
       decodeIncomingData loaded url data headers w
       = fold_left
           (fun acc c => decode (requireDecoder (module c)) apiregentry url
                           acc.1 headers acc.2)
           ds (data, w)) ∧
    (∀ respObj reqHeaders respHeaders w,
       encodeResponse loaded url respObj reqHeaders respHeaders w
       = fold_left
           (fun acc c => encode (requireEncoder (module c)) apiregentry endPoint
                           acc.1 reqHeaders respHeaders acc.2)
           es (respObj, w)) ∧
    (∀ response requestHeaders responseHeaders w,
       injectResponseHeaders loaded url response requestHeaders responseHeaders w
       = fold_left
           (fun acc c => inject (requireHeaderManager (module c)) apiregentry
                           endPoint response requestHeaders acc.1 acc.2)
           hs (responseHeaders, w)) ∧
    (∀ req headers r (h : Heap) w res h' w' called,
       checkSecurity loaded url req headers r h w = (res, h', w', called) →
       let core :=
         map (fun c => mkChecker (Some (path_basename (module c)))
                         (check (requireChecker (module c)))) cs in
       (called `prefix_of` core ∨ core `prefix_of` called) ∧
       (res = Returned true → core `prefix_of` called) ∧
       (res = Returned true →
        query apiregentry !! "customSecurity" = None → called = core)).
Proof.
  intros found loaded. split.
  - intros M requireModule paths.
    exists (Array_sort byPriority (found paths)).
    split; [apply arranged_sort|]. apply loaded_arranged, arranged_sort.
  - intros ds es hs cs Hds Hes Hhs Hcs url e He apiregentry endPoint.
    assert (Hl : lookupEntry loaded url = Some e) by exact He.
    split; [|split; [|split]].
    + intros data headers w. unfold decodeIncomingData. rewrite Hl.
      unfold loaded, loadChains. cbn [decoders].
      rewrite (loaded_arranged _ _ _ _ _ _ _ Hds), map_map. cbn [fst].
      apply fold_left_modules.
    + intros respObj reqHeaders respHeaders w. unfold encodeResponse.
      rewrite Hl. unfold loaded, loadChains. cbn [encoders].
      rewrite (loaded_arranged _ _ _ _ _ _ _ Hes), map_map. cbn [fst].
      apply fold_left_modules.
    + intros response requestHeaders responseHeaders w.
      unfold injectResponseHeaders. rewrite Hl.
      unfold loaded, loadChains. cbn [headermanagers].
      rewrite (loaded_arranged _ _ _ _ _ _ _ Hhs), map_map. cbn [fst].
      apply fold_left_modules.
    + intros req headers r h w res h' w' called Hrun core.
      unfold checkSecurity in Hrun. rewrite Hl in Hrun.
      fold apiregentry endPoint in Hrun. unfold allSecurityCheckers in Hrun.
      assert (Hcore : securitycheckers loaded = core).
      { unfold loaded, loadChains. cbn [securitycheckers].
        by rewrite (loaded_arranged _ _ _ _ _ _ _ Hcs), map_map. }
      rewrite Hcore in Hrun. split; [|split].
      * by apply RegistryProps.runCheckers_front in Hrun.
      * intros ->.
        apply RegistryProps.runCheckers_true_inv in Hrun as [_ ->].
        cbn [app]. unfold RegistrySpec.defined. rewrite omap_app.
        fold (RegistrySpec.defined (map Module core)).
        rewrite RegistryProps.defined_modules. by apply prefix_app_r.
      * intros -> Hq. rewrite Hq, app_nil_r in Hrun.
        apply RegistryProps.runCheckers_true_inv in Hrun as [_ ->].
        cbn [app]. apply RegistryProps.defined_modules.
Qed.

(** The chains run in list order: what runs on a longer chain is the
    rest of the chain after the front of it. *)
Lemma decodeIncomingData_order {World : Type} (reg : Registry (World := World))
  url e data headers w front rest :
  lookupEntry reg url = Some e → decoders reg = (front ++ rest)%list →
  decodeIncomingData reg url data headers w =
  fold_left (fun acc d => decode d (_getAPIRegEntryAsURL e) url acc.1 headers acc.2)
    rest
    (fold_left (fun acc d => decode d (_getAPIRegEntryAsURL e) url acc.1 headers acc.2)
       front (data, w)).
Proof.
  intros He Hd. unfold decodeIncomingData. rewrite He, Hd. apply fold_left_app.
Qed.

End WithPlatform.
End LoaderProps.

Module LoaderExamples.
Import ApiRegistry LoaderSpec LoaderProps Fixtures.
#[local] Existing Instance Sample.platform.

Lemma loaded_chain_sorted_and_stable_witness :
  decodeIncomingData loadedRegistry pingURL (JStr "payload") ∅ []
  = (JStr "payload",
     [ "/srv/lib/apiregistry_extensions/ten.js";
       "/apps/shop/lib/apiregistry_extensions/alsoten.js";
       "/apps/shop/lib/apiregistry_extensions/twenty.js";
       "/srv/lib/apiregistry_extensions/thirty.js" ]) ∧
  (checkSecurity loadedRegistry pingURL (JObj []) ∅ 0%nat callerHeap []).1.2
  = [ "/srv/lib/apiregistry_extensions/first.js";
      "/srv/lib/apiregistry_extensions/second.js" ] ∧
  map modulename
    (checkSecurity loadedRegistry pingURL (JObj []) ∅ 0%nat callerHeap []).2
  = [ Some "first.js"; Some "second.js" ].
Proof.
  assert (He : lookupEntry (registryOf pingTable [] ∅) pingURL
               = Some "/srv/apis/ping.js") by (vm_compute; reflexivity).
  destruct (loaded_chain_sorted_and_stable (fun _ => true) manifests "/srv"
              (confPathsOf "decoders") (confPathsOf "encoders")
              (confPathsOf "headermanagers") (confPathsOf "securitycheckers")
              tracingDecoder quietEncoder quietHeaderManager agreeingChecker
              [("shop", "/apps/shop")] (registryOf pingTable [] ∅))
    as [_ Hrun].
  destruct (Hrun _ _ _ _ (arranged_sort _) (arranged_sort _) (arranged_sort _)
              (arranged_sort _) pingURL _ He) as (Hdec & _ & _ & Hsec).
  split; [|split].
  - unfold loadedRegistry. rewrite Hdec. vm_compute; reflexivity.
  - vm_compute; reflexivity.
  - destruct (checkSecurity loadedRegistry pingURL (JObj []) ∅ 0%nat callerHeap [])
      as [[[res h'] w'] called] eqn:Hc.
    assert (Hres : res = Returned true)
      by (apply (f_equal (fun x => x.1.1.1)) in Hc; vm_compute in Hc; congruence).
    destruct (Hsec _ _ _ _ _ _ _ _ _ Hc) as (_ & _ & Hall).
    cbn [snd]. rewrite (Hall Hres); [vm_compute; reflexivity|].
    vm_compute; reflexivity.
Defined.

(** Priorities 30, 10, 20 over two sources come out as 10, 20, 30; with
    a tie at 10 the core entry stays ahead of the application's. *)
Example decoders_in_priority_order :
  map (fun m : string * string => m.1)
    (_loadSortedConfOjbects
       (fun p => if String.eqb p "/srv/conf/decoders.json"
                 then [("Thirty", 30); ("Ten", 10)]
                 else [("Twenty", 20); ("AlsoTen", 10)])
       (fun modulePath => modulePath)
       (pathAndRootsOf (fun _ => true) "/srv" "/srv/conf/decoders.json"
          "conf/decoders.json" [("shop", "/apps/shop")]))
  = [ "/srv/lib/apiregistry_extensions/ten.js";
      "/apps/shop/lib/apiregistry_extensions/alsoten.js";
      "/apps/shop/lib/apiregistry_extensions/twenty.js";
      "/srv/lib/apiregistry_extensions/thirty.js" ].
Proof. vm_compute; reflexivity. Qed.

End LoaderExamples.

(** ** The hash of the sample platform on the published test vectors *)

Module Sha256Examples.

Example sha256_abc :
  hex (Sha256.string_of (Sha256.sha256 (Sha256.bytes_of "abc")))
  = "ba7816bf8f01cfea414140de5dae2223b00361a396177a9cb410ff61f20015ad".
Proof. vm_compute; reflexivity. Qed.

Example sha256_two_blocks :
  hex (Sha256.string_of (Sha256.sha256 (Sha256.bytes_of
         "abcdbcdecdefdefgefghfghighijhijkijkljklmklmnlmnomnopnopq")))
  = "248d6a61d20638b8e5c026930c3e6039a33ce45964ff2167f6ecedd419db06c1".
Proof. vm_compute; reflexivity. Qed.

Example hmac_rfc4231_case2 :
  hex (Sample.hmac_sha256 "Jefe" "what do ya want for nothing?")
  = "5bdcc146bf60754e6a042426089575c75a003f089d2739839dec58b964ec3843".
Proof. vm_compute; reflexivity. Qed.

End Sha256Examples.

(** * Further properties of the token manager *)

Module TokenMore.
Import JwtTokenManager TokenSpec TokenProps JwtTokenManagerMore.
Section WithPlatform.
Context `{Platform}.

(** *** The sweep and validation *)





Lemma filter_none {A : Type} (f : A → bool) (l : list A) :
  (∀ x, x ∈ l → f x = false) → List.filter f l = [].
Proof.
  induction l as [|x l IH]; intros Hf; [done|]. simpl.
  rewrite Hf by (apply elem_of_cons; by left).
  apply IH. intros y Hy. apply Hf, elem_of_cons. by right.
Qed.



(** X3: a second sweep at the same clock reading changes nothing and
    calls no listener. *)
Theorem sweep_twice now listeners (activeTokens : gmap string Z) :
  (∀ k, is_Some (activeTokens !! k) →
        getProp (getClaims k) "expiryInterval" ≠ Thrown) →
  ∀ swept calls,
    _cleanTokens now listeners activeTokens = (Returned tt, swept, calls) →
    _cleanTokens now listeners swept = (Returned tt, swept, []).
Proof.
  intros Hok swept calls Hs.
  destruct (cleanTokens_spec now listeners activeTokens Hok) as (m' & E & Hm').
  rewrite E in Hs. injection Hs as <- _.
  assert (Hsub : ∀ k la, m' !! k = Some la →
                         activeTokens !! k = Some la ∧ expiredAt now k la = false).
  { intros k la. rewrite Hm'. destruct (activeTokens !! k) as [la'|]; [|done].
    destruct (expiredAt now k la') eqn:He; [done|]. by intros [= <-]. }
  destruct (cleanTokens_spec now listeners m') as (m'' & E' & Hm'').
  { intros k [la Hk]. apply Hok. destruct (Hsub _ _ Hk) as [-> _]. by eexists. }
  rewrite E'. f_equal; [f_equal|].
  - apply map_eq. intros k. rewrite Hm''.
    destruct (m' !! k) as [la|] eqn:Hk; [|done].
    by destruct (Hsub _ _ Hk) as [_ ->].
  - rewrite filter_none; [done|].
    intros k ([k' la] & -> & Hkv)%list_elem_of_fmap.
    apply elem_of_map_to_list in Hkv. simpl. rewrite Hkv. simpl.
    by destruct (Hsub _ _ Hkv) as [_ ->].
Qed.

(** *** The security checker as a whole *)

Ltac split_checkToken E :=
  unfold checkToken in E;
  repeat match type of E with
         | context [match ?x with _ => _ end] => destruct x eqn:?
         end;
  simplify_eq.

Lemma checkSecurity_cases now apiregentry req headers rsn
  (activeTokens : gmap string Z) :
  checkSecurity now apiregentry req headers rsn activeTokens
    = (Returned true, rsn, activeTokens) ∨
  (∃ msg, checkSecurity now apiregentry req headers rsn activeTokens
            = (Returned false, reject msg, activeTokens)) ∨
  (∃ token accessNeeded checkClaims,
     checkSecurity now apiregentry req headers rsn activeTokens
     = checkToken now token rsn accessNeeded checkClaims req activeTokens).
Proof.
  unfold checkSecurity.
  destruct (negb (truthyStr (query apiregentry !! "needsToken"))
            || String.eqb (toLowerCase (default "" (query apiregentry !! "needsToken")))
                 "false"); [by left|].
  destruct (if truthyStr (headers !! "authorization")
            then split_blanks false (default "" (headers !! "authorization"))
            else []) as [|scheme [|token [|x l]]];
    try (right; left; by eexists).
  destruct (String.eqb (toLowerCase (trim scheme)) "bearer");
    [|right; left; by eexists].
  right; right. by eexists _, _, _.
Qed.

Lemma checkSecurity_false now apiregentry req headers rsn
  (activeTokens : gmap string Z) rsn' t' :
  checkSecurity now apiregentry req headers rsn activeTokens
    = (Returned false, rsn', t') →
  code rsn' = Some 403 ∧ t' = activeTokens.
Proof.
  destruct (checkSecurity_cases now apiregentry req headers rsn activeTokens)
    as [-> | [[msg ->] | (token & a & c & ->)]].
  - discriminate.
  - by intros [= <- <-].
  - intros Hc. split.
    + by apply checkToken_false_code in Hc.
    + by apply checkToken_table in Hc.
Qed.

(** X4: whatever the entry and the headers, when the security checker
    of the token manager returns [false] the reason carries the code 403
    and the live-token table is the one it was given; when an exception
    escapes, the table and the reason object are as they were too; and
    when it returns [true] the reason object is untouched. *)
Theorem checkSecurity_refusal now apiregentry req headers rsn
  (activeTokens : gmap string Z) r rsn' t' :
  checkSecurity now apiregentry req headers rsn activeTokens = (r, rsn', t') →
  (r = Returned false → code rsn' = Some 403 ∧ t' = activeTokens) ∧
  (r = Thrown → rsn' = rsn ∧ t' = activeTokens) ∧
  (r = Returned true → rsn' = rsn).
Proof.
  intros Hc. split; [|split].
  - intros ->. by apply checkSecurity_false in Hc.
  - intros ->.
    destruct (checkSecurity_cases now apiregentry req headers rsn activeTokens)
      as [E | [[msg E] | (token & a & c & E)]]; rewrite E in Hc;
      [discriminate | discriminate |]. split.
    + split_checkToken Hc; reflexivity.
    + by apply checkToken_table in Hc.
  - intros ->.
    destruct (checkSecurity_cases now apiregentry req headers rsn activeTokens)
      as [E | [[msg E] | (token & a & c & E)]]; rewrite E in Hc.
    + by injection Hc as <- _.
    + discriminate.
    + by apply checkToken_true_inv in Hc
        as (? & ? & ? & _ & _ & _ & _ & _ & -> & _).
Qed.

(** The verdict of [checkToken] on a token depends on the table through
    the entry of that token only. *)
Lemma checkToken_local now token rsn accessNeeded checkClaims req
  (t1 t2 : gmap string Z) :
  t1 !! token = t2 !! token →
  (checkToken now token rsn accessNeeded checkClaims req t1).1
  = (checkToken now token rsn accessNeeded checkClaims req t2).1.
Proof.
  intros Heq. unfold checkToken. rewrite Heq.
  repeat match goal with
         | |- context [match ?x with _ => _ end] => destruct x
         end; reflexivity.
Qed.

(** X5: what happens to one token leaves the others alone. After
    [releaseToken], a validation or the registration of a token [t], the
    verdict of [checkToken] on any other token, and the reason it
    gives, are what they were before. *)
Theorem other_tokens_unaffected t other (activeTokens : gmap string Z)
  now rsn accessNeeded checkClaims req :
  t ≠ other →
  let verdict table :=
    (checkToken now other rsn accessNeeded checkClaims req table).1 in
  verdict (releaseToken t activeTokens) = verdict activeTokens ∧
  (∀ at_ rsn0 a0 c0 req0,
     verdict (checkToken at_ t rsn0 a0 c0 req0 activeTokens).2
     = verdict activeTokens) ∧
  (∀ at_, verdict (updateLastAccessOrAddToken at_ t activeTokens)
          = verdict activeTokens).
Proof.
  intros Hne verdict. unfold verdict. split; [|split].
  - apply checkToken_local. unfold releaseToken.
    destruct (_ && _); [by apply lookup_delete_ne | done].
  - intros at_ rsn0 a0 c0 req0. apply checkToken_local.
    destruct (checkToken at_ t rsn0 a0 c0 req0 activeTokens)
      as [[r rsn'] t'] eqn:Hc.
    apply checkToken_table in Hc. subst t'. simpl.
    destruct r as [[|]|]; [by apply lookup_insert_ne | done | done].
  - intros at_. apply checkToken_local. by apply lookup_insert_ne.
Qed.

(** *** The claim set *)

Lemma assoc_setProp k k' v (props : list (string * jsval)) :
  assoc k (setProp k' v props)
  = if String.eqb k' k then Some v else assoc k props.
Proof.
  induction props as [|[k0 v0] props IH]; simpl.
  - reflexivity.
  - destruct (String.eqb_spec k0 k') as [->|Hne]; simpl.
    + by destruct (String.eqb k' k).
    + rewrite IH. destruct (String.eqb_spec k0 k) as [->|_]; [|done].
      destruct (String.eqb_spec k' k) as [->|_]; [done|done].
Qed.

(** In [{...a, ...b}] a key holds what [b] says last about it, else what
    [a] says. *)
Lemma assoc_spread k (b : list (string * jsval)) :
  ∀ a, assoc k (spread a b)
       = match assoc k (rev b) with
         | Some v => Some v
         | None => assoc k a
         end.
Proof.
  unfold spread. induction b as [|[k' v] b IH]; intros a; simpl.
  - reflexivity.
  - rewrite IH, assoc_setProp.
    assert (Hrev : ∀ l1 l2, assoc k (l1 ++ l2)%list
                            = match assoc k l1 with
                              | Some x => Some x
                              | None => assoc k l2
                              end).
    { clear. induction l1 as [|[k0 v0] l1 IH]; intros l2; simpl; [done|].
      destruct (String.eqb k0 k); [done | apply IH]. }
    rewrite Hrev. destruct (assoc k (rev b)); [done|]. simpl.
    by destruct (String.eqb k' k).
Qed.

Lemma assoc_app k (l1 l2 : list (string * jsval)) :
  assoc k (l1 ++ l2)%list
  = match assoc k l1 with
    | Some x => Some x
    | None => assoc k l2
    end.
Proof.
  induction l1 as [|[k0 v0] l1 IH]; simpl; [done|].
  destruct (String.eqb k0 k); [done | apply IH].
Qed.

Lemma assoc_rev_None k (l : list (string * jsval)) :
  assoc k (rev l) = None → assoc k l = None.
Proof.
  induction l as [|[k0 v0] l IH]; simpl; [done|].
  rewrite assoc_app. destruct (assoc k (rev l)); [done|]. simpl.
  destruct (String.eqb k0 k); [done|]. intros _. by apply IH.
Qed.

(** X6: in the claim set of a new token the properties of the caller
    win over the generated claims, [iss], [jti], [exp] and
    [expiryInterval] included: a key the caller supplies holds the
    caller's (last) value. The generated claims the caller does not
    supply hold the issuer "Monkshu", the time in seconds for [iat] and
    [nbf], the time in milliseconds for [iatms], the random [jti], the
    parsed interval for [expiryInterval] and the time in seconds plus
    that interval for [exp]; no other key is in the set. *)
Theorem claims_of_caller_win now conf (jwtproperties : list (string * jsval))
  jti k :
  let claims := buildClaims now conf jwtproperties jti in
  let configured := default JUndefined (assoc "expiryInterval" jwtproperties) in
  let parsed := parseInt (if truthy configured then configured
                          else JNum (expiryInterval conf)) in
  (∀ v, assoc k (rev jwtproperties) = Some v → assoc k claims = Some v) ∧
  (assoc k (rev jwtproperties) = None →
   assoc k claims =
     if String.eqb k "iss" then Some (JStr "Monkshu")
     else if String.eqb k "iat" then Some (JNum ((now + 500) / 1000))
     else if String.eqb k "iatms" then Some (JNum now)
     else if String.eqb k "nbf" then Some (JNum ((now + 500) / 1000))
     else if String.eqb k "exp"
          then Some (match parsed with
                     | Some e => JNum ((now + 500) / 1000 + e)
                     | None => JNaN
                     end)
     else if String.eqb k "jti" then Some (JStr jti)
     else if String.eqb k "expiryInterval"
          then Some (match parseInt (JNum (expiryInterval conf)) with
                     | Some e => JNum e
                     | None => JNaN
                     end)
     else None).
Proof.
  intros claims configured parsed.
  unfold claims, buildClaims. rewrite assoc_spread. split.
  - by intros v ->.
  - intros Hnone. rewrite Hnone. cbn [assoc].
    rewrite !(String.eqb_sym _ k).
    repeat (destruct (String.eqb k _) eqn:?; [reflexivity|]).
    destruct (String.eqb_spec k "expiryInterval") as [->|_]; [|done].
    by rewrite (assoc_rev_None _ _ Hnone).
Qed.

(** *** Listeners *)

(** X7: [removeListener] takes out one registration of the listener, the
    first, and leaves the others in their order: what comes before the
    first registration and what comes after it are kept as they are.
    The listener is then registered once less, every other listener as
    often as before; when the listener is not registered nothing
    changes. A listener added twice and removed once is still
    registered. *)
Theorem removeListener_once listener (listeners : list nat) :
  (∀ before after,
     listeners = (before ++ listener :: after)%list → listener ∉ before →
     removeListener listener listeners = (before ++ after)%list) ∧
  (∀ x, count_occ Nat.eq_dec (removeListener listener listeners) x
        = if Nat.eqb x listener
          then Nat.pred (count_occ Nat.eq_dec listeners x)
          else count_occ Nat.eq_dec listeners x) ∧
  List.filter (fun l => negb (Nat.eqb l listener))
    (removeListener listener listeners)
  = List.filter (fun l => negb (Nat.eqb l listener)) listeners ∧
  (listener ∉ listeners → removeListener listener listeners = listeners) ∧
  listener ∈ removeListener listener
               (addListener listener (addListener listener listeners)).
Proof.
  split; [|split; [|split; [|split]]].
  - intros before after -> Hnot. induction before as [|b before IH]; simpl.
    + by rewrite Nat.eqb_refl.
    + destruct (Nat.eqb_spec b listener) as [->|Hne].
      * exfalso. apply Hnot, elem_of_cons. by left.
      * f_equal. apply IH. intros Hin. apply Hnot, elem_of_cons. by right.
  - intros x. induction listeners as [|l ls IH]; simpl.
    + by destruct (Nat.eqb x listener).
    + destruct (Nat.eqb_spec l listener) as [->|Hne].
      * destruct (Nat.eq_dec listener x) as [->|Hx].
        -- by rewrite Nat.eqb_refl.
        -- destruct (Nat.eqb_spec x listener); [by subst | done].
      * simpl. rewrite IH.
        destruct (Nat.eq_dec l x) as [->|Hx]; [|done].
        by destruct (Nat.eqb_spec x listener).
  - induction listeners as [|l ls IH]; simpl; [done|].
    destruct (Nat.eqb_spec l listener) as [->|Hne]; simpl.
    + done.
    + destruct (Nat.eqb_spec l listener); [done|]. simpl. by rewrite IH.
  - induction listeners as [|l ls IH]; simpl; [done|].
    intros Hnot. destruct (Nat.eqb_spec l listener) as [->|Hne].
    + exfalso. apply Hnot, elem_of_cons. by left.
    + f_equal. apply IH. intros Hin. apply Hnot, elem_of_cons. by right.
  - unfold addListener. induction listeners as [|l ls IH]; simpl.
    + rewrite Nat.eqb_refl. apply elem_of_cons. by left.
    + destruct (Nat.eqb_spec l listener) as [->|Hne].
      * rewrite <- app_assoc. apply elem_of_app. right.
        apply elem_of_cons. by left.
      * apply elem_of_cons. by right.
Qed.

(** *** Claims read from headers *)

Lemma split_on_cons c (s : string) : ∃ w ws, split_on c s = w :: ws.
Proof.
  induction s as [|x s (w & ws & IH)]; simpl; [by eexists _, _|].
  destruct (Ascii.eqb x c); [by eexists _, _|]. rewrite IH. by eexists _, _.
Qed.

Lemma split_on_prefix c (p s : string) :
  has_char c p = false →
  split_on c (p +:+ s)
  = match split_on c s with
    | w :: ws => (p +:+ w) :: ws
    | [] => [p]
    end.
Proof.
  destruct (split_on_cons c s) as (w & ws & Hs). rewrite Hs.
  induction p as [|x p IH]; simpl.
  - by intros _.
  - intros [Hx Hp]%orb_false_elim. by rewrite Hx, (IH Hp).
Qed.

Lemma parseClaims_prefix (p token : string) :
  has_char "." p = false →
  parseClaims (p +:+ token) = parseClaims token.
Proof.
  intros Hp. unfold parseClaims. rewrite (split_on_prefix _ _ _ Hp).
  by destruct (split_on "." token).
Qed.

(** X8: [getClaims] gives the same claims for the headers of a request
    that carry [Authorization: Bearer t] as for the token [t] itself,
    though it takes the whole header value for the token; without
    the header it gives the empty object. *)
Theorem getClaims_of_bearer_header (headers : gmap string string) token :
  (headers !! "authorization" = Some ("Bearer " +:+ token) →
   getClaimsOf (TheHeaders headers) = getClaimsOf (AToken token)) ∧
  (headers !! "authorization" = None →
   getClaimsOf (TheHeaders headers) = JObj []).
Proof.
  split.
  - intros Hh. unfold getClaimsOf, getToken. rewrite Hh.
    unfold getClaims at 1. cbn [String.eqb append Ascii.eqb].
    change (String "B" (String "e" (String "a" (String "r" (String "e"
              (String "r" (String " " token)))))))
      with ("Bearer " +:+ token).
    simpl (String.eqb _ ""). rewrite parseClaims_prefix by reflexivity.
    unfold getClaims. destruct (String.eqb_spec token "") as [->|_]; [|done].
    reflexivity.
  - intros Hh. unfold getClaimsOf, getToken. by rewrite Hh.
Qed.

(** *** checkHeaderToken *)

(** X9: [checkHeaderToken] throws on every headers object: the entry it
    builds has the boolean [true] for [needsToken], which has no
    [toLowerCase]; nothing is checked and the table is not touched. On
    an entry whose [needsToken] is a string or is missing, the same code
    is [checkSecurity]. *)
Theorem checkHeaderToken_throws now (headers : gmap string string)
  (activeTokens : gmap string Z) :
  checkHeaderToken now headers activeTokens
    = (Thrown, mkReason None None, activeTokens) ∧
  ∀ apiregentry req rsn,
    checkSecurityAny now
      (match query apiregentry !! "needsToken" with
       | Some s => JStr s
       | None => JUndefined
       end)
      (query apiregentry !! "checkClaims") req headers rsn activeTokens
    = checkSecurity now apiregentry req headers rsn activeTokens.
Proof.
  split; [reflexivity|].
  intros apiregentry req rsn. unfold checkSecurityAny, checkSecurity.
  destruct (query apiregentry !! "needsToken") as [s|]; simpl; [|done].
  destruct (String.eqb s ""); simpl; [done|].
  by destruct (String.eqb (toLowerCase s) "false").
Qed.

(** *** initSync *)

(** X10: [initSync] of the token manager works once: a second call,
    whatever the configuration file then holds, changes nothing. The
    first call keeps a table that is already in the cluster store, makes
    an empty one otherwise, schedules one sweep, and loads intervals
    that are never zero. *)
Theorem initSync_once confFile confFile' (s : ManagerState) :
  initSync confFile' (initSync confFile s) = initSync confFile s ∧
  alreadyInit (initSync confFile s) = true ∧
  (alreadyInit s = false →
   storedTokens (initSync confFile s) = Some (default ∅ (storedTokens s)) ∧
   ∃ conf,
     loadedConf (initSync confFile s) = Some conf ∧
     expiryInterval conf ≠ 0 ∧ tokenGCInterval conf ≠ 0 ∧
     (confFile = None →
      expiryInterval conf = 600000 ∧ tokenGCInterval conf = 1800000) ∧
     scheduled (initSync confFile s)
       = (scheduled s ++ [tokenGCInterval conf])%list).
Proof.
  assert (Hnz : ∀ x d, d ≠ 0 → orDefault x d ≠ 0).
  { intros [n|] d Hd; simpl; [|done]. unfold truthyNum.
    destruct (Z.eqb_spec n 0); simpl; [done | done]. }
  unfold initSync. destruct (alreadyInit s) eqn:Hs.
  - rewrite Hs. repeat split; done.
  - simpl. repeat split; try done.
    eexists. split; [reflexivity|]. simpl.
    split; [by apply Hnz|]. split; [by apply Hnz|].
    split; [by intros ->|done].
Qed.

(** *** From issue to validation *)

Lemma digit_avoids (c d : ascii) (alphabet : string) (k : nat) :
  has_char c (String d alphabet) = false →
  Ascii.eqb (default d (String.get k alphabet)) c = false.
Proof.
  revert k. induction alphabet as [|x alphabet IH]; intros k; simpl.
  - by intros [Hd _]%orb_false_elim.
  - intros [Hd [Hx Ha]%orb_false_elim]%orb_false_elim.
    destruct k as [|k]; simpl; [done|].
    apply IH. simpl. by rewrite Hd, Ha.
Qed.

Lemma base64_avoids_upto (c : ascii) (n : nat) :
  has_char c (String "A" b64_alphabet) = false → Ascii.eqb "=" c = false →
  ∀ s, (String.length s < n)%nat → has_char c (base64 s) = false.
Proof.
  intros Ha He.
  assert (Hd : ∀ k, Ascii.eqb (b64_digit k) c = false)
    by (intros k; by apply digit_avoids).
  induction n as [|n IH]; intros s Hlen; [lia|].
  destruct s as [|x [|y [|z r]]].
  - done.
  - cbn [base64 has_char]. by rewrite !Hd, He.
  - cbn [base64 has_char]. by rewrite !Hd, He.
  - rewrite base64_step. cbn [has_char]. rewrite !Hd. simpl.
    apply IH. simpl in Hlen. lia.
Qed.

Lemma hex_avoids (c : ascii) s :
  has_char c "00123456789abcdef" = false → has_char c (hex s) = false.
Proof.
  intros Ha.
  assert (Hd : ∀ k, Ascii.eqb (hex_digit k) c = false)
    by (intros k; by apply digit_avoids).
  induction s as [|a s IH]; [done|].
  cbn [hex has_char]. by rewrite !Hd, IH.
Qed.

Lemma has_char_app c (a b : string) :
  has_char c (a +:+ b) = has_char c a || has_char c b.
Proof.
  induction a as [|x a IH]; simpl; [done|]. by rewrite IH, orb_assoc.
Qed.

(** A string without blanks is one field. *)
Lemma split_blanks_free (s : string) :
  has_char " " s = false → has_char "009" s = false →
  ∀ in_run, split_blanks in_run s = [s].
Proof.
  induction s as [|x s IH]; simpl; [done|].
  intros [Hx Hs]%orb_false_elim [Hx' Hs']%orb_false_elim in_run.
  unfold is_blank. rewrite Hx, Hx'. simpl. by rewrite (IH Hs Hs').
Qed.

(** A word, a space, and the rest. *)
Lemma split_blanks_word (w s : string) :
  has_char " " w = false → has_char "009" w = false →
  split_blanks false (w +:+ String " " s) = w :: split_blanks true s.
Proof.
  induction w as [|x w IH]; simpl; [done|].
  intros [Hx Hs]%orb_false_elim [Hx' Hs']%orb_false_elim.
  unfold is_blank. rewrite Hx, Hx'. simpl. by rewrite (IH Hs Hs').
Qed.

Lemma split_blanks_bearer (s : string) :
  has_char " " s = false → has_char "009" s = false →
  split_blanks false ("Bearer " +:+ s) = ["Bearer"; s].
Proof.
  intros Hs Ht.
  change ("Bearer " +:+ s) with ("Bearer" +:+ String " " s).
  rewrite split_blanks_word by reflexivity.
  by rewrite split_blanks_free.
Qed.

(** A token made by [createSignedJWTToken] has no blank in it. *)
Lemma token_no_blank (c : ascii) (claimsJSON digest : string) :
  c = " "%char ∨ c = "009"%char →
  has_char c (BASE_64_HEADER +:+ "." +:+ base64 claimsJSON +:+ "."
              +:+ hex digest) = false.
Proof.
  intros Hc. rewrite !has_char_app.
  rewrite (base64_avoids_upto c (S (String.length claimsJSON)));
    [| by destruct Hc as [-> | ->] | by destruct Hc as [-> | ->] | lia].
  rewrite hex_avoids by (by destruct Hc as [-> | ->]).
  by destruct Hc as [-> | ->].
Qed.

(** X11: a token validates where it was issued. Let [t] be the token
    [createSignedJWTToken] returns at time [now], on a platform that
    decodes the claims segment back into the claim set and reads a
    number [E] in its [expiryInterval]. For an entry with
    [needsToken=true] and no [checkClaims], the security checker, given
    [Authorization: Bearer t], returns [true] and refreshes the token
    at any time up to [now + E], and refuses it as expired after. *)
Theorem issued_token_validates now conf jwtproperties g
  (activeTokens : gmap string Z) apiregentry req rsn E :
  let claims :=
    buildClaims now conf jwtproperties (hex (randomBytes 16 g).1) in
  let token := (createSignedJWTToken now conf jwtproperties g activeTokens).1.1 in
  let live := (createSignedJWTToken now conf jwtproperties g activeTokens).2 in
  now ≠ 0 →
  query apiregentry !! "needsToken" = Some "true" →
  query apiregentry !! "checkClaims" = None →
  toLowerCase "true" = "true" →
  toLowerCase (trim "Bearer") = "bearer" →
  decodeClaims (base64 (JSON_stringify (JObj claims))) = Some (JObj claims) →
  ToNumber (default JUndefined (assoc "expiryInterval" claims)) = Some E →
  ∀ later (headers : gmap string string),
    headers !! "authorization" = Some ("Bearer " +:+ token) →
    (later - now <= E →
     checkSecurity later apiregentry req headers rsn live
       = (Returned true, rsn, <[token := later]> live)) ∧
    (E < later - now →
     checkSecurity later apiregentry req headers rsn live
       = (Returned false, reject "JWT Token Error, expired", live)).
Proof.
  intros claims token live Hnow Hnt Hcc Htrue Hbearer Hdec HE later headers Hh.
  set (claimB64 := base64 (JSON_stringify (JObj claims))).
  set (sig64 := hex (hmac_sha256
                       (hex (randomBytes 32 (randomBytes 16 g).2).1)
                       (tokenClaimHeader claimB64))).
  assert (Htok : token = BASE_64_HEADER +:+ "." +:+ claimB64 +:+ "." +:+ sig64)
    by reflexivity.
  assert (Hlive : live !! token = Some now) by apply lookup_insert_eq.
  assert (Hparse : parseClaims token = Some (JObj claims)).
  { unfold parseClaims. rewrite Htok. unfold claimB64, sig64.
    rewrite three_segments. simpl. exact Hdec. }
  assert (Hnum : numericExpiry token E).
  { exists (JObj claims), (default JUndefined (assoc "expiryInterval" claims)).
    by repeat split. }
  assert (Hreq : requiresToken apiregentry).
  { unfold requiresToken. rewrite Hnt. simpl. by rewrite Htrue. }
  assert (Hcarry : carriesBearer headers token).
  { exists ("Bearer " +:+ token), "Bearer". repeat split; [done|done| |].
    - apply split_blanks_bearer;
        rewrite Htok; unfold claimB64, sig64; apply token_no_blank; auto.
    - by rewrite Hbearer. }
  rewrite (checkSecurity_bearer _ _ _ _ _ _ token Hreq Hcarry), Hnt, Hcc.
  split.
  - intros Hage. apply (checkToken_pass _ _ _ _ _ _ _ now E); try done.
    exists (JObj claims), (default JUndefined (assoc "sub" claims)).
    repeat split; [done|]. simpl. by rewrite Htrue.
  - intros Hage. by apply (checkToken_expired _ _ _ _ _ _ _ now E).
Qed.

End WithPlatform.

Section WithTemplating.
Context `{Platform} `{Templating}.

(** *** The header manager *)

(** [split(":")] and [join(":")] undo each other. *)
Lemma join_split_on (c : ascii) (s : string) :
  join (String c "") (split_on c s) = s.
Proof.
  induction s as [|x s IH]; [done|]. simpl.
  destruct (Ascii.eqb_spec x c) as [->|Hne].
  - destruct (split_on_cons c s) as (w & ws & Hs). rewrite Hs in *.
    cbn [join]. cbn [join] in IH. by rewrite IH.
  - destruct (split_on_cons c s) as (w & ws & Hs). rewrite Hs in *.
    cbn [join] in *. destruct ws as [|w' ws]; simpl in *; by rewrite <- IH.
Qed.

(** X12: an item [key:template] of the [addsToken] directive is cut at
    its first colon, so the template may hold colons. The value stored
    under the key is the template rendered on the response when that is
    not empty, else the template rendered on the request when that is
    not empty and the key is not [flag], else the template itself. *)
Theorem parseItem_key_and_template request response (key template : string) :
  has_char ":" key = false →
  parseItem request response (key +:+ ":" +:+ template)
  = (key,
     if negb (String.eqb (mustache_render template response) "")
     then mustache_render template response
     else if negb (String.eqb (mustache_render template request) "")
             && negb (String.eqb key "flag")
          then mustache_render template request
          else template).
Proof.
  intros Hk. unfold parseItem.
  change (key +:+ ":" +:+ template) with (key +:+ String ":" template).
  rewrite (split_on_segment ":" key template Hk). simpl.
  by rewrite (join_split_on ":" template).
Qed.


Lemma assoc_parse_None k request response (items : list string) :
  (∀ item, item ∈ items → default "" (head (split_on ":" item)) ≠ k) →
  ∀ acc, assoc k acc = None →
    assoc k (fold_left
               (fun retObj split =>
                  let kv := parseItem request response split in
                  setProp kv.1 (JStr kv.2) retObj)
               items acc) = None.
Proof.
  induction items as [|item items IH]; intros Hk acc Hacc; [done|].
  cbn [fold_left]. apply IH.
  - intros it Hit. apply Hk, elem_of_cons. by right.
  - rewrite assoc_setProp. simpl.
    destruct (String.eqb_spec (default "" (head (split_on ":" item))) k)
      as [Heq|_]; [|done].
    exfalso. eapply Hk; [|exact Heq]. apply elem_of_cons. by left.
Qed.

(** X14: the gate of the header manager reads the key [tokenflag]. When
    no item of the [addsToken] directive has that key, as when the gate
    is written [flag:...], a token is issued if [response.result] is
    truthy and nothing is done if it is falsy, whatever the items say.
    When the directive does set [tokenflag] to a non-empty text, the
    token is issued if [parseBoolean] accepts the text and nothing is
    done otherwise, and the response is not looked at. *)
Theorem token_gate now conf apiregentry directive request response
  (headersOut : gmap string string) listeners g (activeTokens : gmap string Z) :
  query apiregentry !! "addsToken" = Some directive → directive ≠ "" →
  let parsed := _parseAddstokenString directive request response in
  let inj := injectResponseHeaders now conf apiregentry request response
               headersOut listeners g activeTokens in
  let issued :=
    tokens inj = (createSignedJWTToken now conf parsed g activeTokens).2 ∧
    responseHeaders inj !! "access_token"
      = Some (createSignedJWTToken now conf parsed g activeTokens).1.1 in
  let nothing :=
    inj = mkInjected (Returned tt) headersOut g activeTokens [] in
  ((∀ item, item ∈ escapedSplit directive "," →
            default "" (head (split_on ":" item)) ≠ "tokenflag") →
   ∀ result, getProp response "result" = Returned result →
     (truthy result = true → issued) ∧ (truthy result = false → nothing)) ∧
  (∀ text, assoc "tokenflag" parsed = Some (JStr text) → text ≠ "" →
     (parseBoolean text = true → issued) ∧
     (parseBoolean text = false → nothing)).
Proof.
  intros Hq Hne parsed inj issued nothing.
  assert (Hinj : inj = injectResponseHeadersInternal now conf directive request
                         response headersOut listeners g activeTokens).
  { unfold inj, injectResponseHeaders. rewrite Hq. simpl.
    by destruct (String.eqb_spec directive ""). }
  assert (Hcreate : ∀ i,
    i = (let '(token, g', activeTokens') :=
           createSignedJWTToken now conf parsed g activeTokens in
         mkInjected (Returned tt)
           (<["authorization" := "Bearer " +:+ token]>
              (<["token_type" := "bearer"]>
                 (<["access_token" := token]> headersOut)))
           g' activeTokens'
           (map (fun l => (l, "token_generated", token)) listeners)) →
    tokens i = (createSignedJWTToken now conf parsed g activeTokens).2 ∧
    responseHeaders i !! "access_token"
      = Some (createSignedJWTToken now conf parsed g activeTokens).1.1).
  { intros i ->. unfold createSignedJWTToken. simpl. split; [done|].
    by rewrite lookup_insert_ne, lookup_insert_ne, lookup_insert_eq. }
  split.
  - intros Hkeys result Hres.
    assert (Hflag : assoc "tokenflag" parsed = None)
      by (by apply assoc_parse_None).
    unfold issued, nothing. rewrite Hinj.
    unfold injectResponseHeadersInternal. fold parsed.
    rewrite Hflag, Hres. cbn [from_option id truthy andb negb]. split.
    + intros ->. cbn [negb]. by apply Hcreate.
    + by intros ->.
  - intros text Hflag Htext.
    unfold issued, nothing. rewrite Hinj.
    unfold injectResponseHeadersInternal. fold parsed.
    rewrite Hflag. cbn [from_option id truthy flagText].
    destruct (String.eqb_spec text ""); [done|]. cbn [andb negb]. split.
    + intros ->. cbn [negb]. by apply Hcreate.
    + by intros ->.
Qed.

End WithTemplating.
End TokenMore.

(** * Further properties of the API registry *)

Module RegistryMore.
Import ApiRegistry RegistrySpec RegistryProps ApiRegistryMore.
Section WithPlatform.
Context `{Platform} {World : Type}.

(** *** Reading the table *)

(** X15: the three readers of the table agree. A URL resolves to a
    target exactly when it has metadata, which is exactly when the table
    holds a non-empty entry under its path; then the path is listed.
    [listAPIs] lists no path twice. *)
Theorem readers_agree (reg : Registry (World := World)) url :
  (is_Some (getAPI reg url) ↔ is_Some (getAPIConf reg url)) ∧
  (is_Some (getAPI reg url) ↔
   ∃ e, apireg reg !! URL_pathname url = Some e ∧ e ≠ "") ∧
  (is_Some (getAPI reg url) → URL_pathname url ∈ listAPIs reg) ∧
  NoDup (listAPIs reg).
Proof.
  assert (Hl : is_Some (getAPI reg url) ↔
               ∃ e, apireg reg !! URL_pathname url = Some e ∧ e ≠ "").
  { unfold getAPI, lookupEntry.
    destruct (apireg reg !! URL_pathname url) as [e|]; simpl.
    - destruct (String.eqb_spec e "") as [->|Hne].
      + split; [by intros [? ?] | by intros (e & [= <-] & ?)].
      + split; [by exists e | by eexists].
    - split; [by intros [? ?] | by intros (e & ? & _)]. }
  split; [|split; [exact Hl|split]].
  - unfold getAPI, getAPIConf. destruct (lookupEntry reg url);
      split; intros [? ?]; done || by eexists.
  - rewrite Hl. intros (e & He & _). apply listAPIs_spec. by eexists.
  - apply NoDup_fst_map_to_list.
Qed.

(** *** Changing the table at run time *)


(** X17: [addAPI] writes the table before it reads the file. When the
    registry file cannot be read the call throws, the disk is as it
    was, and yet the table already holds the new entry: the path
    resolves to it. *)
Theorem addAPI_throws_after_writing API_REGISTRY path apiregentry appRoots
  (reg : Registry (World := World)) (disk : Disk) url :
  disk !! API_REGISTRY = None → apiregentry ≠ "" → URL_pathname url = path →
  ∃ reg',
    addAPI API_REGISTRY path apiregentry (ArgWithGetApps appRoots) reg disk
      = (Thrown, reg', disk) ∧
    apireg reg' = <[path := apiregentry]> (apireg reg) ∧
    getAPI reg' url
      = Some (path_resolve (rawpathname (_getAPIRegEntryAsURL apiregentry))).
Proof.
  intros Hd Hne Hu. unfold addAPI. simpl. rewrite Hd.
  eexists. split; [reflexivity|]. split; [reflexivity|].
  unfold getAPI, lookupEntry. simpl.
  rewrite Hu, lookup_insert_eq. by destruct (String.eqb_spec apiregentry "").
Qed.


(** *** Custom security checkers *)

(** X19: a module registered under a name runs for the entries that name
    it, after the core chain, whatever the name. Taking it out again
    gives back the core chain alone when the name is not one the map, a
    plain object, inherits from [Object.prototype]; when it is, such as
    [constructor], a request that passes the core chain throws. For an
    entry whose [customSecurity] is the one name [name]: after
    [addCustomSecurityChecker name c] the chain is the core chain
    followed by [c]; after [removeCustomSecurityChecker name], on a map
    whose prototype was not replaced, it is the core chain alone for a
    name that is not inherited, and the core chain followed by a
    [TypeError] for one that is. Apart from [__proto__], removing after
    adding leaves the map as removing alone does. *)
Theorem custom_checker_registration (reg : Registry (World := World)) url e
  names name c req headers r (h : Heap) (w : World) :
  lookupEntry reg url = Some e →
  query (_getAPIRegEntryAsURL e) !! "customSecurity" = Some names →
  names ≠ "" → escapedSplit names "," = [name] →
  let core :=
    runCheckers (map Module (securitycheckers reg)) (_getAPIRegEntryAsURL e)
      (URL_pathname url) req headers r h w [] in
  checkSecurity (addCustomSecurityChecker name c reg) url req headers r h w
    = runCheckers (map Module (securitycheckers reg ++ [c])%list)
        (_getAPIRegEntryAsURL e) (URL_pathname url) req headers r h w [] ∧
  (proto (CUSTOM_SECURITY_CHECKERS reg) = None →
   (name ∉ Object_prototype_names →
    checkSecurity (removeCustomSecurityChecker name reg) url req headers r h w
      = core) ∧
   (name ∈ Object_prototype_names →
    checkSecurity (removeCustomSecurityChecker name reg) url req headers r h w
      = match core with
        | (Returned true, h', w', inv) => (Thrown, h', w', inv)
        | other => other
        end)) ∧
  (name ≠ "__proto__" →
   CUSTOM_SECURITY_CHECKERS
     (removeCustomSecurityChecker name (addCustomSecurityChecker name c reg))
   = remove name (CUSTOM_SECURITY_CHECKERS reg)).
Proof.
  intros He Hq Hne Hsplit core.
  assert (Hrun : ∀ custom,
    checkSecurity
      (mkRegistry (apireg reg) (decoders reg) (encoders reg) (headermanagers reg)
         (securitycheckers reg) custom) url req headers r h w
    = runCheckers (map Module (securitycheckers reg) ++ [member custom name])
        (_getAPIRegEntryAsURL e) (URL_pathname url) req headers r h w []).
  { intros custom. unfold checkSecurity.
    change (lookupEntry (mkRegistry _ _ _ _ _ custom) url)
      with (lookupEntry reg url).
    rewrite He. unfold allSecurityCheckers.
    cbn [securitycheckers CUSTOM_SECURITY_CHECKERS].
    rewrite Hq, Hsplit. by destruct (String.eqb_spec names ""). }
  assert (Hdel : ∀ obj : ModuleMap (World := World),
            own (remove name obj) !! name = None)
    by (intros obj; apply lookup_delete_eq).
  split; [|split].
  - unfold addCustomSecurityChecker. rewrite Hrun.
    assert (member (assign name c (CUSTOM_SECURITY_CHECKERS reg)) name = Module c)
      as ->.
    { unfold assign, member.
      destruct (own (CUSTOM_SECURITY_CHECKERS reg) !! name) eqn:Ho.
      - cbn. by rewrite lookup_insert_eq.
      - destruct (String.eqb_spec name "__proto__") as [->|Hn]; cbn.
        + by rewrite Ho.
        + by rewrite lookup_insert_eq. }
    by rewrite map_app.
  - intros Hp. unfold removeCustomSecurityChecker. rewrite Hrun. split.
    + intros Hn. rewrite member_unknown by (by repeat split).
      rewrite runCheckers_app. fold core.
      by destruct core as [[[[[|]|] h'] w'] inv].
    + intros Hn. rewrite member_inherited by done.
      rewrite runCheckers_app. fold core.
      by destruct core as [[[[[|]|] h'] w'] inv].
  - intros Hn. cbn. unfold assign, remove.
    destruct (own (CUSTOM_SECURITY_CHECKERS reg) !! name) eqn:Ho; cbn.
    + by rewrite delete_insert_eq.
    + destruct (String.eqb_spec name "__proto__"); [done|]. cbn.
      by rewrite delete_insert_eq.
Qed.

End WithPlatform.

(** *** The token manager in the chain *)

Section TokenChain.
Context `{Platform}.

(** X20: the registry with the token manager for only checker. On a
    registered end point that names no custom checker, and with the
    caller's reason object at [r]: when the token manager says yes the
    registry returns [true], the table holds what the token manager
    left and the reason object is as it was; when it says no the
    registry returns [false], the table is untouched, and the reason
    object holds the code 403 and the reason of the token manager
    followed by " ---- Failed on: jwttokenmanager.js". *)
Theorem registry_runs_token_manager now
  (reg : Registry (World := gmap string Z)) url e req headers r (h : Heap)
  rsn (activeTokens : gmap string Z) :
  lookupEntry reg url = Some e →
  securitycheckers reg = [tokenChecker now] →
  query (_getAPIRegEntryAsURL e) !! "customSecurity" = None →
  h !! r = Some rsn →
  ∀ res rsn' t',
    JwtTokenManager.checkSecurity now (_getAPIRegEntryAsURL e) req headers rsn
      activeTokens = (Returned res, rsn', t') →
    checkSecurity reg url req headers r h activeTokens =
    if res
    then (Returned true, h, t', [tokenChecker now])
    else (Returned false,
          <[r := {| reason := Some (showStr (reason rsn')
                                    +:+ " ---- Failed on: jwttokenmanager.js");
                    code := Some 403 |}]> h,
          activeTokens, [tokenChecker now]).
Proof.
  intros He Hchain Hcustom Hr res rsn' t' Htm.
  unfold checkSecurity. rewrite He.
  unfold allSecurityCheckers. rewrite Hchain, Hcustom.
  cbn [map app runCheckers tokenChecker check]. rewrite Hr, Htm.
  destruct res.
  - assert (rsn' = rsn) as ->.
    { destruct (TokenMore.checkSecurity_cases now (_getAPIRegEntryAsURL e) req
                  headers rsn activeTokens)
        as [E | [[msg E] | (token & a & c & E)]]; rewrite E in Htm.
      - by injection Htm as <- _.
      - discriminate.
      - by apply TokenProps.checkToken_true_inv in Htm
          as (? & ? & ? & _ & _ & _ & _ & _ & -> & _). }
    cbn [runCheckers]. unfold Heap in *. by rewrite (insert_id h r rsn Hr).
  - destruct (TokenMore.checkSecurity_false _ _ _ _ _ _ _ _ Htm) as [Hcode ->].
    unfold Heap in *.
    rewrite lookup_insert_eq. cbn [modulename showStr from_option id].
    by rewrite Hcode, insert_insert_eq.
Qed.

(** *** The table at start-up *)

Lemma overlayApp_lookup existsSync readAppRegistry
  (table : gmap string string) appObj k :
  overlayApp existsSync readAppRegistry table appObj !! k =
  if existsSync (appObj.2 +:+ "/conf/apiregistry.json")
  then match readAppRegistry appObj.1 appObj.2 !! k with
       | Some entry => Some (resolveTarget existsSync appObj.2 entry)
       | None => table !! k
       end
  else table !! k.
Proof.
  unfold overlayApp. destruct (existsSync _); [|done].
  rewrite lookup_union, lookup_fmap.
  by destruct (readAppRegistry appObj.1 appObj.2 !! k), (table !! k).
Qed.

Lemma fold_overlay_silent existsSync readAppRegistry k apps :
  Forall (silentOn existsSync readAppRegistry k) apps →
  ∀ table : gmap string string,
    fold_left (overlayApp existsSync readAppRegistry) apps table !! k
    = table !! k.
Proof.
  induction 1 as [|appObj apps Hs _ IH]; intros table; [done|].
  cbn [fold_left]. rewrite IH, overlayApp_lookup.
  destruct (existsSync _) eqn:Hex; [|done]. by rewrite (Hs Hex).
Qed.

(** X21: the table built at start-up, entry by entry. A path that no
    application registry mentions holds the entry of the table in the
    cluster store, or of the core file when the store has none, taken
    relative to the server root unless it is on disk. A path that
    application registries mention holds the entry of the last of them
    in catalog order, taken relative to the root of that application
    unless it is on disk. *)
Theorem initTable_precedence existsSync readAppRegistry ROOTDIR cached
  (coreFile : gmap string string) apps k :
  (Forall (silentOn existsSync readAppRegistry k) apps →
   initTable existsSync readAppRegistry ROOTDIR cached coreFile apps !! k
   = resolveTarget existsSync ROOTDIR <$> default coreFile cached !! k) ∧
  (∀ before appObj after entry,
     apps = (before ++ appObj :: after)%list →
     existsSync (appObj.2 +:+ "/conf/apiregistry.json") = true →
     readAppRegistry appObj.1 appObj.2 !! k = Some entry →
     Forall (silentOn existsSync readAppRegistry k) after →
     initTable existsSync readAppRegistry ROOTDIR cached coreFile apps !! k
     = Some (resolveTarget existsSync appObj.2 entry)).
Proof.
  unfold initTable. split.
  - intros Hs. rewrite (fold_overlay_silent _ _ _ _ Hs). apply lookup_fmap.
  - intros before appObj after entry -> Hex Hk Hs.
    rewrite fold_left_app. cbn [fold_left].
    rewrite (fold_overlay_silent _ _ _ _ Hs), overlayApp_lookup.
    by rewrite Hex, Hk.
Qed.

End TokenChain.
End RegistryMore.

(** * Further properties of the loader *)

Module LoaderMore.
Import ApiRegistry LoaderSpec LoaderProps.
Section WithPlatform.
Context `{Platform}.

(** X22: the order of a chain is fixed by the priorities and the order
    of discovery, not by the sorting algorithm: any arrangement of the
    discovered entries in which priorities ascend and entries of equal
    priority keep their order of discovery is the one the loader
    makes. *)
Theorem chain_order_unique (requireConf : string → list (string * Z))
  (pathAndRoots : list PathAndRoot) (arranged : list ConfObject) :
  StronglySorted byPriorityLe arranged →
  (∀ k, ofPriority k arranged
        = ofPriority k (discovered requireConf pathAndRoots)) →
  arranged = sortedConfObjects requireConf pathAndRoots.
Proof.
  intros Hs Hk. apply Array_sort_unique; [done | apply Array_sort_sorted |].
  intros k. unfold sortedConfObjects. by rewrite Array_sort_stable.
Qed.

(** X23: loading drops nothing and adds nothing. The chain has one
    module for each entry of each configuration, and the module of
    every entry, of the core configuration in particular, is in it
    under the base name of its file: an application adds to a chain and
    cannot take a core module out. *)
Theorem nothing_dropped {M : Type} (requireConf : string → list (string * Z))
  (requireModule : string → M) (pathAndRoots : list PathAndRoot) :
  let chain := _loadSortedConfOjbects requireConf requireModule pathAndRoots in
  length chain = length (discovered requireConf pathAndRoots) ∧
  ∀ pr c, pr ∈ pathAndRoots → c ∈ confObjectsOf requireConf pr →
          (requireModule (module c), path_basename (module c)) ∈ chain.
Proof.
  intros chain. unfold chain, _loadSortedConfOjbects, sortedConfObjects. split.
  - rewrite length_map. apply Permutation_length, Array_sort_perm.
  - intros pr c Hpr Hc. apply list_elem_of_fmap. exists c. split; [done|].
    rewrite (Array_sort_perm _). unfold discovered.
    apply list_elem_of_In, List.in_concat.
    exists (confObjectsOf requireConf pr).
    split; [|by apply list_elem_of_In].
    apply List.in_map. by apply list_elem_of_In.
Qed.

End WithPlatform.
End LoaderMore.

(** ** The further properties on concrete inputs *)

Module TokenMoreExamples.
Import JwtTokenManager TokenSpec JwtTokenManagerMore TokenMore Fixtures
  MoreFixtures.
#[local] Existing Instance Sample.platform.


Lemma twoTokens_parse k :
  is_Some (twoTokens !! k) →
  getProp (getClaims k) "expiryInterval" ≠ Thrown.
Proof.
  intros [v Hk]. unfold twoTokens in Hk.
  apply lookup_insert_Some in Hk as [[<- _] | [_ Hk]];
    [vm_compute; discriminate|].
  apply lookup_singleton_Some in Hk as [<- _]. vm_compute; discriminate.
Qed.


Lemma sweep_twice_witness :
  _cleanTokens 5000 [7%nat] {[ Sample.tUser1 := 4500 ]}
  = (Returned tt, {[ Sample.tUser1 := 4500 ]}, []).
Proof.
  apply (sweep_twice 5000 [7%nat] twoTokens twoTokens_parse _
           [(7%nat, "token_expireed", Sample.t1000)]).
  vm_compute; reflexivity.
Defined.

Lemma checkSecurity_refusal_witness :
  checkSecurity 1500 secureEntry (JObj []) ∅ emptyReason live1000
    = (Returned false, reject "JWT malformatted. Got token undefined", live1000) ∧
  code (reject "JWT malformatted. Got token undefined") = Some 403.
Proof.
  assert (E : checkSecurity 1500 secureEntry (JObj []) ∅ emptyReason live1000
              = (Returned false, reject "JWT malformatted. Got token undefined",
                 live1000)) by (vm_compute; reflexivity).
  split; [exact E|].
  exact (proj1 (proj1 (checkSecurity_refusal _ _ _ _ _ _ _ _ _ E) eq_refl)).
Defined.

Lemma other_tokens_unaffected_witness :
  (checkToken 4600 Sample.t1000 emptyReason None None (JObj [])
     (releaseToken Sample.tUser1 twoTokens)).1
  = (checkToken 4600 Sample.t1000 emptyReason None None (JObj []) twoTokens).1.
Proof.
  refine (proj1 (other_tokens_unaffected Sample.tUser1 Sample.t1000 twoTokens
                   4600 emptyReason None None (JObj []) _)).
  vm_compute; discriminate.
Defined.

Lemma claims_of_caller_win_witness :
  let claims :=
    buildClaims 1000 conf0 [("iss", JStr "me"); ("sub", JStr "user1")] "0a" in
  assoc "iss" claims = Some (JStr "me") ∧ assoc "iat" claims = Some (JNum 1).
Proof.
  split.
  - exact (proj1 (claims_of_caller_win 1000 conf0
                    [("iss", JStr "me"); ("sub", JStr "user1")] "0a" "iss")
             (JStr "me") eq_refl).
  - exact (proj2 (claims_of_caller_win 1000 conf0
                    [("iss", JStr "me"); ("sub", JStr "user1")] "0a" "iat")
             eq_refl).
Defined.

Lemma removeListener_once_witness :
  removeListener 2%nat [1%nat; 2%nat; 1%nat; 2%nat] = [1%nat; 1%nat; 2%nat] ∧
  removeListener 3%nat [1%nat; 2%nat] = [1%nat; 2%nat].
Proof.
  split.
  - apply (proj1 (removeListener_once 2%nat [1%nat; 2%nat; 1%nat; 2%nat])
             [1%nat] [1%nat; 2%nat] eq_refl).
    intros Hin. apply list_elem_of_In in Hin. simpl in Hin. lia.
  - apply (proj1 (proj2 (proj2 (proj2 (removeListener_once 3%nat [1%nat; 2%nat]))))).
    intros Hin. apply list_elem_of_In in Hin. simpl in Hin. lia.
Defined.

Lemma getClaims_of_bearer_header_witness :
  getClaimsOf (TheHeaders {[ "authorization" := "Bearer " +:+ Sample.t1000 ]})
  = JObj [("expiryInterval", JNum 1000)].
Proof.
  rewrite (proj1 (getClaims_of_bearer_header
                    {[ "authorization" := "Bearer " +:+ Sample.t1000 ]}
                    Sample.t1000)).
  - vm_compute; reflexivity.
  - vm_compute; reflexivity.
Defined.

Lemma initSync_once_witness :
  let s0 := mkManagerState false None None [] in
  storedTokens (initSync None s0) = Some ∅ ∧
  initSync (Some (Some 5, None)) (initSync None s0) = initSync None s0.
Proof.
  intros s0.
  destruct (initSync_once None (Some (Some 5, None)) s0) as (Hidem & _ & Hfirst).
  split; [exact (proj1 (Hfirst eq_refl)) | exact Hidem].
Defined.

End TokenMoreExamples.

Module IssueMoreExamples.
Import JwtTokenManager TokenSpec JwtTokenManagerMore TokenMore Fixtures
  MoreFixtures.
#[local] Existing Instance issuingPlatform.

Lemma issued_token_validates_witness :
  let token :=
    (createSignedJWTToken 1000 conf0 [("sub", JStr "user1")] g0 ∅).1.1 in
  let live := (createSignedJWTToken 1000 conf0 [("sub", JStr "user1")] g0 ∅).2 in
  let headers : gmap string string :=
    {[ "authorization" := "Bearer " +:+ token ]} in
  checkSecurity 600000 secureEntry (JObj []) headers emptyReason live
    = (Returned true, emptyReason, <[token := 600000]> live) ∧
  checkSecurity 700000 secureEntry (JObj []) headers emptyReason live
    = (Returned false, reject "JWT Token Error, expired", live).
Proof.
  intros token live headers.
  assert (Hv := issued_token_validates 1000 conf0 [("sub", JStr "user1")] g0 ∅
                  secureEntry (JObj []) emptyReason 600000).
  cbn zeta in Hv.
  assert (Hh : headers !! "authorization" = Some ("Bearer " +:+ token))
    by apply lookup_insert_eq.
  split.
  - refine (proj1 (Hv _ _ _ _ _ _ _ 600000 headers Hh) _);
      try (vm_compute; reflexivity); lia.
  - refine (proj2 (Hv _ _ _ _ _ _ _ 700000 headers Hh) _);
      try (vm_compute; reflexivity); lia.
Defined.

End IssueMoreExamples.

Module HeaderExamples.
Import JwtTokenManager TokenSpec JwtTokenManagerMore TokenMore Fixtures
  MoreFixtures.
#[local] Existing Instance Sample.platform.
#[local] Existing Instance SampleTemplating.templating.

Lemma parseItem_key_and_template_witness :
  parseItem loginRequest loginResponse ("sub" +:+ ":" +:+ "{{id}}")
    = ("sub", "user1") ∧
  parseItem loginRequest loginResponse ("aud" +:+ ":" +:+ "urn:{{id}}")
    = ("aud", "urn:").
Proof.
  split.
  - rewrite (parseItem_key_and_template loginRequest loginResponse "sub"
               "{{id}}" eq_refl).
    vm_compute; reflexivity.
  - rewrite (parseItem_key_and_template loginRequest loginResponse "aud"
               "urn:{{id}}" eq_refl).
    vm_compute; reflexivity.
Defined.

Lemma token_gate_witness :
  let parsed :=
    _parseAddstokenString "sub:{{id}},flag:false" loginRequest loginResponse in
  let inj := injectResponseHeaders 1000 conf0 loginEntry loginRequest
               loginResponse ∅ [7%nat] g0 ∅ in
  assoc "flag" parsed = Some (JStr "false") ∧
  tokens inj = (createSignedJWTToken 1000 conf0 parsed g0 ∅).2 ∧
  responseHeaders inj !! "access_token"
    = Some (createSignedJWTToken 1000 conf0 parsed g0 ∅).1.1.
Proof.
  intros parsed inj. split; [vm_compute; reflexivity|].
  destruct (token_gate 1000 conf0 loginEntry "sub:{{id}},flag:false"
              loginRequest loginResponse ∅ [7%nat] g0 ∅) as [Hresp _].
  - vm_compute; reflexivity.
  - discriminate.
  - refine (proj1 (Hresp _ (JBool true) eq_refl) eq_refl).
    intros item Hin. apply list_elem_of_In in Hin. vm_compute in Hin.
    destruct Hin as [<- | [<- | []]]; vm_compute; discriminate.
Defined.

End HeaderExamples.

Module RegistryMoreExamples.
Import ApiRegistry RegistrySpec ApiRegistryMore RegistryMore Fixtures
  MoreFixtures.
#[local] Existing Instance Sample.platform.

Lemma readers_agree_witness :
  URL_pathname pingURL ∈ listAPIs (registryOf pingTable [] ∅).
Proof.
  apply (proj1 (proj2 (proj2 (readers_agree (registryOf pingTable [] ∅) pingURL)))).
  eexists. vm_compute; reflexivity.
Defined.


Lemma addAPI_throws_after_writing_witness :
  ∃ reg',
    addAPI coreRegistryFile "/apis/new" "/srv/apis/new.js"
      (ArgWithGetApps []) (registryOf pingTable [] ∅) ∅
      = (Thrown, reg', ∅) ∧
    getAPI reg' newURL = Some "/srv/apis/new.js".
Proof.
  destruct (addAPI_throws_after_writing coreRegistryFile "/apis/new"
              "/srv/apis/new.js" [] (registryOf pingTable [] ∅) ∅ newURL)
    as (reg' & E & _ & Hget).
  - vm_compute; reflexivity.
  - discriminate.
  - vm_compute; reflexivity.
  - exists reg'. split; [exact E|]. rewrite Hget. vm_compute; reflexivity.
Defined.


Lemma custom_checker_registration_witness :
  checkSecurity
    (addCustomSecurityChecker "ghost" checkerB (registryOf pingTable [checkerA] ∅))
    guardedURL (JObj []) ∅ 0%nat callerHeap []
  = runCheckers [Module checkerA; Module checkerB]
      (_getAPIRegEntryAsURL "/srv/apis/guarded.js?customSecurity=ghost")
      "/apis/guarded" (JObj []) ∅ 0%nat callerHeap [] [] ∧
  checkSecurity
    (removeCustomSecurityChecker "constructor"
       (registryOf oddTable [checkerA] {[ "constructor" := checkerB ]}))
    oddURL (JObj []) ∅ 0%nat callerHeap []
  = (Thrown, callerHeap, ["a"], [checkerA]).
Proof.
  split.
  - refine (proj1 (custom_checker_registration (registryOf pingTable [checkerA] ∅)
                     guardedURL "/srv/apis/guarded.js?customSecurity=ghost"
                     "ghost" "ghost" checkerB (JObj []) ∅ 0%nat callerHeap []
                     _ _ _ _));
      try (vm_compute; reflexivity).
    discriminate.
  - set (reg := registryOf oddTable [checkerA] {[ "constructor" := checkerB ]}).
    assert (He : lookupEntry reg oddURL
                 = Some "/srv/apis/odd.js?customSecurity=constructor")
      by (vm_compute; reflexivity).
    assert (Hq : query (_getAPIRegEntryAsURL
                          "/srv/apis/odd.js?customSecurity=constructor")
                   !! "customSecurity" = Some "constructor")
      by (vm_compute; reflexivity).
    assert (Hs : escapedSplit "constructor" "," = ["constructor"])
      by (vm_compute; reflexivity).
    assert (Hne : "constructor" ≠ "") by discriminate.
    destruct (custom_checker_registration reg oddURL _ _ _ checkerB (JObj []) ∅
                0%nat callerHeap [] He Hq Hne Hs) as (_ & Hrm & _).
    destruct (Hrm eq_refl) as [_ Hin]. rewrite Hin; [vm_compute; reflexivity|].
    rewrite list_elem_of_In. vm_compute. tauto.
Defined.

Lemma registry_runs_token_manager_witness :
  checkSecurity (tokenRegistry 1500) secureURL (JObj []) ∅ 0%nat callerHeap
    live1000
  = (Returned false,
     <[0%nat := {| reason := Some "JWT malformatted. Got token undefined ---- Failed on: jwttokenmanager.js";
                   code := Some 403 |}]> callerHeap,
     live1000, [tokenChecker 1500]).
Proof.
  refine (registry_runs_token_manager 1500 (tokenRegistry 1500) secureURL
            "/srv/apis/secure.js?needsToken=true" (JObj []) ∅ 0%nat callerHeap
            emptyReason live1000 _ eq_refl _ _ false
            (JwtTokenManager.reject "JWT malformatted. Got token undefined")
            live1000 _);
    vm_compute; reflexivity.
Defined.

Lemma initTable_precedence_witness :
  initTable onDisk appRegistryOf "/srv" None coreTable startApps !! "/apis/x"
    = Some "/apps/blog/apis/blog_x.js?needsToken=true" ∧
  initTable onDisk appRegistryOf "/srv" None coreTable startApps !! "/apis/ping"
    = Some "/srv/apis/ping.js".
Proof.
  split.
  - refine (proj2 (initTable_precedence onDisk appRegistryOf "/srv" None
                     coreTable startApps "/apis/x")
              [("shop", "/apps/shop")] ("blog", "/apps/blog")
              [("wiki", "/apps/wiki")] "apis/blog_x.js?needsToken=true"
              eq_refl _ _ _);
      try (vm_compute; reflexivity).
    repeat constructor.
  - rewrite (proj1 (initTable_precedence onDisk appRegistryOf "/srv" None
                      coreTable startApps "/apis/ping")).
    + vm_compute; reflexivity.
    + repeat constructor; intros _; vm_compute; reflexivity.
Defined.

End RegistryMoreExamples.

Module LoaderMoreExamples.
Import ApiRegistry LoaderSpec LoaderMore MoreFixtures.
#[local] Existing Instance Sample.platform.

Lemma chain_order_unique_witness :
  sortedConfObjects decoderConfs decoderSources
  = [ mkConfObject "/srv/lib/apiregistry_extensions/ten.js" 10;
      mkConfObject "/apps/shop/lib/apiregistry_extensions/alsoten.js" 10;
      mkConfObject "/apps/shop/lib/apiregistry_extensions/twenty.js" 20;
      mkConfObject "/srv/lib/apiregistry_extensions/thirty.js" 30 ].
Proof.
  symmetry. apply chain_order_unique.
  - repeat constructor; unfold byPriorityLe; simpl; lia.
  - intros k.
    let d := eval vm_compute in (discovered decoderConfs decoderSources) in
    change (discovered decoderConfs decoderSources) with d.
    unfold ofPriority. cbn [List.filter priority].
    destruct (Z.eqb_spec 10 k), (Z.eqb_spec 20 k), (Z.eqb_spec 30 k);
      (reflexivity || lia).
Defined.

Lemma nothing_dropped_witness :
  ("/srv/lib/apiregistry_extensions/thirty.js", "thirty.js")
  ∈ _loadSortedConfOjbects decoderConfs (fun p => p) decoderSources.
Proof.
  refine (proj2 (nothing_dropped decoderConfs (fun p => p) decoderSources)
            (mkPathAndRoot "/srv/conf/decoders.json" "/srv")
            (mkConfObject "/srv/lib/apiregistry_extensions/thirty.js" 30) _ _).
  - apply list_elem_of_In. vm_compute. left. reflexivity.
  - apply list_elem_of_In. vm_compute. left. reflexivity.
Defined.

End LoaderMoreExamples.
